(** * RubyTranspiler: the JavaScript-to-Ruby code generator of semantic

    A shallow embedding of [src/ruby-transpiler/ruby-transpiler.js] and of
    the part of [src/transpiler-super/transpiler-super.js] that a
    [RubyTranspiler] instance can reach, followed by the properties of the
    generator stated in the specification.

    The AST handed to the transpiler is a graph of mutable JavaScript
    objects, and two of the visitor methods rewrite it in place, so nodes
    live in a store and are passed around by reference. *)

From Stdlib Require Import ZArith Ascii String List Lia Bool.
From stdpp Require Import gmap strings list pretty.

Open Scope Z_scope.
Open Scope nat_scope.

(** ** JavaScript values and the object store *)

Module JS.

(** Text is a sequence of code units below 256. *)
Definition text := list ascii.

Definition chars (s : string) : text := list_ascii_of_string s.

(** [VNum] holds the integral numbers; a number with a fractional part is
    a [VDec], kept as the decimal rendering that [String(x)] gives it.  An
    integral number is printed with all its digits as long as it is below
    10^21 in magnitude; the exponent form used from there on is not
    modelled. *)
Inductive value :=
| VUndef
| VNull
| VBool (b : bool)
| VNum (n : Z)
| VDec (shown : string)
| VStr (s : string)
| VRef (l : nat).

Inductive cell :=
| CObj (props : gmap string value)
| CArr (elems : list value).

Inductive exn := TypeError | RangeError | SyntaxError.

(** Two ways in which an evaluation says nothing about the program: the
    recursion bound was reached, or the program took a step (coercing an
    object to a primitive, a dangling reference) that is not modelled. *)
Inductive limit := OutOfFuel | OutsideModel.

(** Calls received by a [Buffer] object, in order. *)
Inductive call :=
| Add (t : value)
| Newline
| Indent
| Dedent
| Trim
| DeleteLines (n : nat).

Record state := State { heap : list cell; buffer : list call }.

Inductive outcome (A : Type) :=
| Ok (a : A) (s : state)
| Throw (e : exn) (s : state)
| Beyond (w : limit).
Arguments Ok {A} a s.
Arguments Throw {A} e s.
Arguments Beyond {A} w.

Definition M (A : Type) : Type := state -> outcome A.

Definition ret {A} (a : A) : M A := fun s => Ok a s.

Definition bind {A B} (m : M A) (f : A -> M B) : M B :=
  fun s =>
    match m s with
    | Ok a s' => f a s'
    | Throw e s' => Throw e s'
    | Beyond w => Beyond w
    end.

Definition throw {A} (e : exn) : M A := fun s => Throw e s.
Definition beyond {A} (w : limit) : M A := fun _ => Beyond w.

#[global] Instance M_ret : MRet M := @ret.
#[global] Instance M_bind : MBind M := fun A B f m => bind m f.

(** *** Reading *)

(** [v.k] for a property name [k] other than an array index. *)
Definition getProp (v : value) (k : string) : M value :=
  fun s =>
    match v with
    | VUndef | VNull => Throw TypeError s
    | VRef l =>
        match heap s !! l with
        | Some (CObj o) => Ok (default VUndef (o !! k)) s
        | Some (CArr a) =>
            if decide (k = "length") then Ok (VNum (Z.of_nat (length a))) s
            else Ok VUndef s
        | None => Beyond OutsideModel
        end
    | VStr str =>
        if decide (k = "length") then Ok (VNum (Z.of_nat (String.length str))) s
        else Ok VUndef s
    | VBool _ | VNum _ | VDec _ => Ok VUndef s
    end.

(** [v[i]] for a loop counter [i]. *)
Definition getIndex (v : value) (i : nat) : M value :=
  fun s =>
    match v with
    | VUndef | VNull => Throw TypeError s
    | VRef l =>
        match heap s !! l with
        | Some (CObj o) => Ok (default VUndef (o !! pretty i)) s
        | Some (CArr a) => Ok (default VUndef (a !! i)) s
        | None => Beyond OutsideModel
        end
    | VStr str =>
        match String.get i str with
        | Some c => Ok (VStr (String c EmptyString)) s
        | None => Ok VUndef s
        end
    | VBool _ | VNum _ | VDec _ => Ok VUndef s
    end.

(** ToBoolean. *)
Definition truthy (v : value) : bool :=
  match v with
  | VUndef | VNull => false
  | VBool b => b
  | VNum n => negb (n =? 0)%Z
  | VDec _ => true
  | VStr s => negb (String.eqb s EmptyString)
  | VRef _ => true
  end.

(** Number::toString of an integral number. *)
Definition digits (n : Z) : M string :=
  if (Z.abs n <? 1000000000000000000000)%Z then ret (pretty n)
  else beyond OutsideModel.

(** ToString of a primitive; objects are not coerced in this model. *)
Definition toString (v : value) : M string :=
  match v with
  | VUndef => ret "undefined"
  | VNull => ret "null"
  | VBool true => ret "true"
  | VBool false => ret "false"
  | VNum n => digits n
  | VDec shown => ret shown
  | VStr s => ret s
  | VRef _ => beyond OutsideModel
  end.

(** [v == str] and [v != str] against a string literal that is not
    numeric: only a string can be equal to it, an object would first be
    coerced. *)
Definition looseEqStr (v : value) (str : string) : M bool :=
  match v with
  | VStr s => ret (String.eqb s str)
  | VRef _ => beyond OutsideModel
  | _ => ret false
  end.

(** ToNumber of the values a [length] can be, [None] standing for NaN. *)
Definition toNumber (v : value) : M (option Z) :=
  match v with
  | VUndef => ret None
  | VNull => ret (Some 0%Z)
  | VBool b => ret (Some (if b then 1 else 0)%Z)
  | VNum n => ret (Some n)
  | VDec _ | VStr _ | VRef _ => beyond OutsideModel
  end.

(** [i < v], [i != v], [v != 0], [v > 0] and [v == 0] for a loop counter
    [i]; [null] and [undefined] are loosely equal to no number. *)
Definition ltNat (i : nat) (v : value) : M bool :=
  n ← toNumber v;
  ret (match n with Some z => (Z.of_nat i <? z)%Z | None => false end).

Definition looseEqNat (v : value) (i : nat) : M bool :=
  match v with
  | VUndef | VNull | VDec _ => ret false
  | _ => n ← toNumber v;
         ret (match n with Some z => (z =? Z.of_nat i)%Z | None => false end)
  end.

Definition gtZero (v : value) : M bool :=
  n ← toNumber v;
  ret (match n with Some z => (0 <? z)%Z | None => false end).

(** *** Writing *)

Definition alloc (c : cell) : M value :=
  fun s => Ok (VRef (length (heap s))) (State (heap s ++ [c]) (buffer s)).

(** [v.k = x] in strict mode. *)
Definition setProp (v : value) (k : string) (x : value) : M unit :=
  fun s =>
    match v with
    | VRef l =>
        match heap s !! l with
        | Some (CObj o) =>
            Ok tt (State (<[l := CObj (<[k := x]> o)]> (heap s)) (buffer s))
        | Some (CArr _) => Beyond OutsideModel
        | None => Beyond OutsideModel
        end
    | _ => Throw TypeError s
    end.

(** The own enumerable properties of a value, as [Object.assign] sees
    them. *)
Fixpoint indexed (i : nat) (xs : list value) : gmap string value :=
  match xs with
  | [] => ∅
  | x :: xs' => <[pretty i := x]> (indexed (S i) xs')
  end.

Fixpoint charValues (s : string) : list value :=
  match s with
  | EmptyString => []
  | String c s' => VStr (String c EmptyString) :: charValues s'
  end.

Definition ownProps (v : value) : M (gmap string value) :=
  fun s =>
    match v with
    | VRef l =>
        match heap s !! l with
        | Some (CObj o) => Ok o s
        | Some (CArr a) => Ok (indexed 0 a) s
        | None => Beyond OutsideModel
        end
    | VStr str => Ok (indexed 0 (charValues str)) s
    | _ => Ok ∅ s
    end.

(** [Object.assign(target, source)] for a target that is a fresh object:
    every own property of the source is copied over the target's. *)
Definition copyInto (target : value) (src : gmap string value) : M unit :=
  fun s =>
    match target with
    | VRef l =>
        match heap s !! l with
        | Some (CObj o) => Ok tt (State (<[l := CObj (src ∪ o)]> (heap s)) (buffer s))
        | _ => Beyond OutsideModel
        end
    | _ => Beyond OutsideModel
    end.

Definition objectAssign (target source : value) : M unit :=
  src ← ownProps source; copyInto target src.

(** [v.push(x)]: only an array has a [push]. *)
Definition push (v : value) (x : value) : M unit :=
  fun s =>
    match v with
    | VUndef | VNull => Throw TypeError s
    | VRef l =>
        match heap s !! l with
        | Some (CArr a) => Ok tt (State (<[l := CArr (a ++ [x])]> (heap s)) (buffer s))
        | Some (CObj _) => Throw TypeError s
        | None => Beyond OutsideModel
        end
    | _ => Throw TypeError s
    end.

(** A call on [this.buffer]. *)
Definition emit (c : call) : M unit :=
  fun s => Ok tt (State (heap s) (buffer s ++ [c])).

Definition add (s : string) : M unit := emit (Add (VStr s)).

(** [for (let i = start; cond(i); i++) body(i)]: the condition is
    evaluated again before every iteration. *)
Fixpoint forLoop (fuel : nat) (cond : nat -> M bool) (body : nat -> M unit)
    (i : nat) : M unit :=
  match fuel with
  | 0 => beyond OutOfFuel
  | S fuel' =>
      b ← cond i;
      if b : bool then body i;; forLoop fuel' cond body (S i) else ret tt
  end.

(** *** JSON.stringify of a primitive *)

Definition dquote : ascii := "034"%char.
Definition squote : ascii := "039"%char.

Definition hexDigit (n : nat) : ascii :=
  match n with
  | 0 => "0" | 1 => "1" | 2 => "2" | 3 => "3" | 4 => "4" | 5 => "5"
  | 6 => "6" | 7 => "7" | 8 => "8" | 9 => "9" | 10 => "a" | 11 => "b"
  | 12 => "c" | 13 => "d" | 14 => "e" | _ => "f"
  end%char.

Definition quoteChar (c : ascii) : string :=
  let n := nat_of_ascii c in
  if decide (c = dquote) then String "\" (String dquote EmptyString)
  else if decide (c = "\"%char) then "\\"
  else if decide (n = 8) then "\b"
  else if decide (n = 12) then "\f"
  else if decide (n = 10) then "\n"
  else if decide (n = 13) then "\r"
  else if decide (n = 9) then "\t"
  else if decide (n < 32) then
    "\u00" +:+ String (hexDigit (n / 16)) (String (hexDigit (n mod 16)) EmptyString)
  else String c EmptyString.

Fixpoint quoteBody (s : string) : string :=
  match s with
  | EmptyString => EmptyString
  | String c s' => quoteChar c +:+ quoteBody s'
  end.

Definition jsonStringify (v : value) : M value :=
  match v with
  | VUndef => ret VUndef
  | VNull => ret (VStr "null")
  | VBool true => ret (VStr "true")
  | VBool false => ret (VStr "false")
  | VNum n => shown ← digits n; ret (VStr shown)
  | VDec shown => ret (VStr shown)
  | VStr s => ret (VStr (String dquote (quoteBody s +:+ String dquote EmptyString)))
  | VRef _ => beyond OutsideModel
  end.

End JS.

Import JS.

(** ** The emission buffer

    [Buffer] ([src/buffer/buffer.js]) is not among the sources.  The
    transpiler only calls its methods and reads it back with [get()], so a
    buffer is represented by the calls it has received since [new Buffer],
    and an implementation of the class turns such a history into text. *)

Module Buffer.

Record Impl := {
  buf : Type;
  new : buf;
  add : value -> buf -> buf;
  newline : buf -> buf;
  indent : buf -> buf;
  dedent : buf -> buf;
  trim : buf -> buf;
  deleteLines : nat -> buf -> buf;
  get : buf -> text
}.

Definition apply (I : Impl) (b : buf I) (c : call) : buf I :=
  match c with
  | Add t => add I t b
  | Newline => newline I b
  | Indent => indent I b
  | Dedent => dedent I b
  | Trim => trim I b
  | DeleteLines n => deleteLines I n b
  end.

Definition replay (I : Impl) (calls : list call) : buf I :=
  fold_left (apply I) calls (new I).

Definition render (I : Impl) (calls : list call) : text :=
  get I (replay I calls).

End Buffer.

(** ** TranspilerSuper

    The methods of the base class that a [RubyTranspiler] inherits or
    reaches through [super].  [IfStatement], [ForStatement] and
    [UpdateExpression] of the base class are overridden without a [super]
    call and are left out. *)

Module TranspilerSuper.

Section Methods.

(** [this.recursiveParse], bound late, and the bound on loop iterations. *)
Variable recursiveParse : value -> M text.
Variable fuel : nat.

Definition File (node : value) : M unit :=
  program ← getProp node "program";
  recursiveParse program;; ret tt.

Definition Program (node : value) : M unit :=
  forLoop fuel
    (fun i => body ← getProp node "body"; len ← getProp body "length";
              eq ← looseEqNat len i; ret (negb eq))
    (fun i => body ← getProp node "body"; stmt ← getIndex body i;
              recursiveParse stmt;; ret tt)
    0.

Definition ExpressionStatement (node : value) : M unit :=
  expression ← getProp node "expression";
  recursiveParse expression;; ret tt.

Definition ImportDeclaration (node : value) : M unit :=
  JS.add (String "@" (String "D" (String "E" (String "L" (String "E"
    (String "T" (String "E" (String "@" (String "010" EmptyString))))))))).

Definition FunctionDeclaration (node : value) : M unit :=
  id ← getProp node "id";
  recursiveParse id;;
  JS.add "(";;
  params ← getProp node "params";
  len ← getProp params "length";
  empty ← looseEqNat len 0;
  (if empty : bool then ret tt
   else
     params ← getProp node "params";
     p ← getIndex params 0;
     recursiveParse p;;
     forLoop fuel
       (fun i => params ← getProp node "params"; len ← getProp params "length";
                 ltNat i len)
       (fun i => JS.add ", ";;
                 params ← getProp node "params"; p ← getIndex params i;
                 recursiveParse p;; ret tt)
       1);;
  JS.add ")";;
  body ← getProp node "body";
  recursiveParse body;;
  emit Newline.

Definition AssignmentExpression (node : value) : M unit :=
  left ← getProp node "left";
  recursiveParse left;;
  JS.add " ";;
  operator ← getProp node "operator";
  emit (Add operator);;
  JS.add " ";;
  right ← getProp node "right";
  recursiveParse right;; ret tt.

Definition BlockStatement (node : value) : M unit :=
  forLoop fuel
    (fun i => body ← getProp node "body"; len ← getProp body "length";
              ltNat i len)
    (fun i => body ← getProp node "body"; stmt ← getIndex body i;
              recursiveParse stmt;; ret tt)
    0.

Definition VariableDeclaration (node : value) : M unit :=
  forLoop fuel
    (fun i => ds ← getProp node "declarations"; len ← getProp ds "length";
              ltNat i len)
    (fun i => ds ← getProp node "declarations"; d ← getIndex ds i;
              recursiveParse d;; ret tt)
    0.

Definition VariableDeclarator (node : value) : M unit :=
  id ← getProp node "id";
  recursiveParse id;;
  init ← getProp node "init";
  if truthy init then
    JS.add " = ";;
    init ← getProp node "init";
    recursiveParse init;; ret tt
  else ret tt.

Definition ReturnStatement (node : value) : M unit :=
  argument ← getProp node "argument";
  if truthy argument then
    argument ← getProp node "argument";
    recursiveParse argument;; ret tt
  else ret tt.

Definition CallExpression (node : value) : M unit :=
  callee ← getProp node "callee";
  recursiveParse callee;;
  JS.add "(";;
  args ← getProp node "arguments";
  len ← getProp args "length";
  some ← gtZero len;
  (if some : bool then
     args ← getProp node "arguments";
     a ← getIndex args 0;
     recursiveParse a;;
     forLoop fuel
       (fun i => args ← getProp node "arguments"; len ← getProp args "length";
                 eq ← looseEqNat len i; ret (negb eq))
       (fun i => JS.add ", ";;
                 args ← getProp node "arguments"; a ← getIndex args i;
                 recursiveParse a;; ret tt)
       1
   else ret tt);;
  JS.add ")".

Definition MemberExpression (node : value) : M unit :=
  object ← getProp node "object";
  name ← getProp object "name";
  (if truthy name then
     object ← getProp node "object";
     name ← getProp object "name";
     emit (Add name)
   else
     object ← getProp node "object";
     recursiveParse object;; ret tt);;
  computed ← getProp node "computed";
  if truthy computed then
    JS.add "[";;
    property ← getProp node "property";
    name ← getProp property "name";
    emit (Add name);;
    JS.add "]"
  else
    JS.add ".";;
    property ← getProp node "property";
    name ← getProp property "name";
    emit (Add name).

Definition UnaryExpression (node : value) : M unit :=
  prefix ← getProp node "prefix";
  (if truthy prefix then
     operator ← getProp node "operator"; emit (Add operator)
   else ret tt);;
  argument ← getProp node "argument";
  recursiveParse argument;;
  prefix ← getProp node "prefix";
  if negb (truthy prefix) then
    operator ← getProp node "operator"; emit (Add operator)
  else ret tt.

(** One operand of a binary expression: [node[side]], in parentheses
    when its tag is [BinaryExpression]. *)
Definition operand (node : value) (side : string) : M unit :=
  child ← getProp node side;
  ty ← getProp child "type";
  nested ← looseEqStr ty "BinaryExpression";
  if nested : bool then
    JS.add "(";;
    child ← getProp node side;
    recursiveParse child;;
    JS.add ")"
  else
    child ← getProp node side;
    recursiveParse child;; ret tt.

Definition BinaryExpression (node : value) : M unit :=
  operand node "left";;
  JS.add " ";;
  operator ← getProp node "operator";
  emit (Add operator);;
  JS.add " ";;
  operand node "right".

Definition ConditionalExpression (node : value) : M unit :=
  JS.add "(";;
  test ← getProp node "test";
  recursiveParse test;;
  JS.add " ? ";;
  consequent ← getProp node "consequent";
  recursiveParse consequent;;
  JS.add " : ";;
  alternate ← getProp node "alternate";
  recursiveParse alternate;;
  JS.add ")".

Definition LogicalExpression (node : value) : M unit :=
  left ← getProp node "left";
  recursiveParse left;;
  operator ← getProp node "operator";
  op ← toString operator;
  JS.add (" " +:+ op +:+ " ");;
  right ← getProp node "right";
  recursiveParse right;; ret tt.

Definition WhileStatement (node : value) : M unit :=
  JS.add "while (";;
  test ← getProp node "test";
  recursiveParse test;;
  JS.add ")";;
  body ← getProp node "body";
  recursiveParse body;; ret tt.

Definition DoWhileStatement (node : value) : M unit :=
  JS.add "do";;
  body ← getProp node "body";
  recursiveParse body;;
  emit Trim;;
  JS.add " while (";;
  test ← getProp node "test";
  recursiveParse test;;
  JS.add ") ";;
  emit Newline.

Definition Identifier (node : value) : M unit :=
  name ← getProp node "name";
  emit (Add name).

Definition Literal (node : value) : M unit :=
  regex ← getProp node "regex";
  if truthy regex then
    raw ← getProp node "raw"; emit (Add raw)
  else
    v ← getProp node "value";
    str ← jsonStringify v;
    emit (Add str).

Definition NumericLiteral (node : value) : M unit :=
  extra ← getProp node "extra";
  rawValue ← getProp extra "rawValue";
  emit (Add rawValue).

Definition StringLiteral (node : value) : M unit :=
  extra ← getProp node "extra";
  raw ← getProp extra "raw";
  emit (Add raw).

Definition BooleanLiteral (node : value) : M unit :=
  v ← getProp node "value";
  emit (Add v).

Definition RegExpLiteral (node : value) : M unit :=
  extra ← getProp node "extra";
  raw ← getProp extra "raw";
  emit (Add raw).

Definition ArrayExpression (node : value) : M unit :=
  JS.add "[";;
  elements ← getProp node "elements";
  len ← getProp elements "length";
  empty ← looseEqNat len 0;
  if empty : bool then JS.add "]"
  else
    elements ← getProp node "elements";
    e ← getIndex elements 0;
    recursiveParse e;;
    forLoop fuel
      (fun i => elements ← getProp node "elements";
                len ← getProp elements "length"; ltNat i len)
      (fun i => JS.add ", ";;
                elements ← getProp node "elements"; e ← getIndex elements i;
                recursiveParse e;; ret tt)
      1;;
    JS.add "]".

End Methods.

End TranspilerSuper.

(** ** Regular expressions

    The backtracking matcher of ECMAScript (22.2.2), for the constructs
    that occur in the transpiler's patterns: a matcher takes the current
    position and captures together with a continuation, and the first
    alternative whose continuation succeeds wins. *)

Module RegExp.

Inductive item :=
| IChar (c : ascii)
| IRange (lo hi : ascii)
| IWord | IDigit | ISpace.

Inductive regex :=
| Empty
| Char (c : ascii)
| Dot
| Class (negated : bool) (items : list item)
| Seq (r1 r2 : regex)
| Alt (r1 r2 : regex)
| Quant (r : regex) (min : nat) (max : option nat) (greedy : bool)
| Group (idx : nat) (r : regex)
| LookBehind (negated : bool) (r : regex)
| LineStart
| LineEnd.

Definition Star (r : regex) : regex := Quant r 0 None true.
Definition Plus (r : regex) : regex := Quant r 1 None true.
Definition LazyPlus (r : regex) : regex := Quant r 1 None false.
Definition Opt (r : regex) : regex := Quant r 0 (Some 1) true.

(** The characters of a literal, in sequence. *)
Fixpoint lit (cs : text) : regex :=
  match cs with
  | [] => Empty
  | [c] => Char c
  | c :: cs' => Seq (Char c) (lit cs')
  end.

Fixpoint sequence (rs : list regex) : regex :=
  match rs with
  | [] => Empty
  | [r] => r
  | r :: rs' => Seq r (sequence rs')
  end.

Record flags := Flags { ignoreCase : bool; multiline : bool }.

Definition between (lo hi : nat) (c : ascii) : bool :=
  let n := nat_of_ascii c in (lo <=? n) && (n <=? hi).

Definition isDigit (c : ascii) : bool := between 48 57 c.
Definition isUpper (c : ascii) : bool := between 65 90 c.
Definition isLower (c : ascii) : bool := between 97 122 c.
Definition isWord (c : ascii) : bool :=
  isDigit c || isUpper c || isLower c || (nat_of_ascii c =? 95).
Definition isSpace (c : ascii) : bool :=
  between 9 13 c || (nat_of_ascii c =? 32) || (nat_of_ascii c =? 160).
Definition lineTerminator (c : ascii) : bool :=
  (nat_of_ascii c =? 10) || (nat_of_ascii c =? 13).

(** The letters that have their other case below 256: those of ASCII and
    the accented ones, which leave out the signs at 215 and 247. *)
Definition hasUpper (c : ascii) : bool :=
  isLower c || (between 224 254 c && negb (nat_of_ascii c =? 247)).
Definition hasLower (c : ascii) : bool :=
  isUpper c || (between 192 222 c && negb (nat_of_ascii c =? 215)).

Definition toUpper (c : ascii) : ascii :=
  if hasUpper c then ascii_of_nat (nat_of_ascii c - 32) else c.
Definition toLower (c : ascii) : ascii :=
  if hasLower c then ascii_of_nat (nat_of_ascii c + 32) else c.

Definition ascii_eqb (a b : ascii) : bool := nat_of_ascii a =? nat_of_ascii b.

(** Canonicalize. *)
Definition canon (f : flags) (c : ascii) : ascii :=
  if ignoreCase f then toUpper c else c.

Definition inItem (it : item) (c : ascii) : bool :=
  match it with
  | IChar a => ascii_eqb a c
  | IRange lo hi => between (nat_of_ascii lo) (nat_of_ascii hi) c
  | IWord => isWord c
  | IDigit => isDigit c
  | ISpace => isSpace c
  end.

Definition inItems (its : list item) (c : ascii) : bool :=
  existsb (fun it => inItem it c) its.

(** A character is in a set when some member of the set has the same
    canonical form. *)
Definition inSet (f : flags) (its : list item) (c : ascii) : bool :=
  inItems its c
  || (ignoreCase f && (inItems its (toUpper c) || inItems its (toLower c))).

Record mstate := MState { endIndex : nat; captures : list (option (nat * nat)) }.

Definition cont := mstate -> option mstate.
Definition matcher := mstate -> cont -> option mstate.

Fixpoint groupsOf (r : regex) : list nat :=
  match r with
  | Seq r1 r2 | Alt r1 r2 => groupsOf r1 ++ groupsOf r2
  | Quant r' _ _ _ | LookBehind _ r' => groupsOf r'
  | Group i r' => i :: groupsOf r'
  | _ => []
  end.

Definition clearCaptures (gs : list nat) (caps : list (option (nat * nat))) :=
  fold_left (fun cs i => <[i := None]> cs) gs caps.

(** RepeatMatcher: an iteration that matches the empty string once the
    minimum is reached is rejected, so [fuel] iterations suffice when
    [fuel] exceeds the minimum plus the length of the input. *)
Fixpoint repeatMatcher (fuel : nat) (m : matcher) (gs : list nat)
    (min : nat) (max : option nat) (greedy : bool) (x : mstate) (c : cont)
    : option mstate :=
  match fuel with
  | 0 => None
  | S fuel' =>
      if decide (max = Some 0) then c x
      else
        let d : cont := fun y =>
          if (min =? 0) && (endIndex y =? endIndex x) then None
          else repeatMatcher fuel' m gs (pred min) (pred <$> max) greedy y c in
        let xr := MState (endIndex x) (clearCaptures gs (captures x)) in
        if negb (min =? 0) then m xr d
        else if greedy then
          match m xr d with
          | Some z => Some z
          | None => c x
          end
        else
          match c x with
          | Some z => Some z
          | None => m xr d
          end
  end.

Section Matching.

Variable f : flags.
Variable input : text.

(** One character, read forwards or (inside a lookbehind) backwards. *)
Definition charMatcher (p : ascii -> bool) (backward : bool) : matcher :=
  fun x c =>
    if backward then
      match endIndex x with
      | 0 => None
      | S e =>
          match input !! e with
          | Some ch => if p ch then c (MState e (captures x)) else None
          | None => None
          end
      end
    else
      match input !! endIndex x with
      | Some ch => if p ch then c (MState (S (endIndex x)) (captures x)) else None
      | None => None
      end.

Definition atLineStart (e : nat) : bool :=
  match e with
  | 0 => true
  | S e' => multiline f &&
            match input !! e' with Some ch => lineTerminator ch | None => false end
  end.

Definition atLineEnd (e : nat) : bool :=
  match input !! e with
  | None => true
  | Some ch => multiline f && lineTerminator ch
  end.

Fixpoint compile (r : regex) (backward : bool) : matcher :=
  match r with
  | Empty => fun x c => c x
  | Char a => charMatcher (fun ch => ascii_eqb (canon f ch) (canon f a)) backward
  | Dot => charMatcher (fun ch => negb (lineTerminator ch)) backward
  | Class neg its => charMatcher (fun ch => xorb neg (inSet f its ch)) backward
  | Seq r1 r2 =>
      fun x c =>
        if backward then compile r2 backward x (fun y => compile r1 backward y c)
        else compile r1 backward x (fun y => compile r2 backward y c)
  | Alt r1 r2 =>
      fun x c =>
        match compile r1 backward x c with
        | Some z => Some z
        | None => compile r2 backward x c
        end
  | Quant r' min max greedy =>
      repeatMatcher (min + length input + 1) (compile r' backward) (groupsOf r')
        min max greedy
  | Group i r' =>
      fun x c =>
        compile r' backward x (fun y =>
          let span := if backward then (endIndex y, endIndex x)
                      else (endIndex x, endIndex y) in
          c (MState (endIndex y) (<[i := Some span]> (captures y))))
  | LookBehind neg r' =>
      fun x c =>
        match compile r' true x Some with
        | Some y => if neg then None else c (MState (endIndex x) (captures y))
        | None => if neg then c x else None
        end
  | LineStart => fun x c => if atLineStart (endIndex x) then c x else None
  | LineEnd => fun x c => if atLineEnd (endIndex x) then c x else None
  end.

Definition ngroups (r : regex) : nat := S (list_max (groupsOf r)).

(** A match: where it starts and ends, and the spans of the groups. *)
Record result := Result { index : nat; stop : nat; groups : list (option (nat * nat)) }.

Definition matchAt (r : regex) (i : nat) : option result :=
  match compile r false (MState i (replicate (ngroups r) None)) Some with
  | Some y => Some (Result i (endIndex y) (captures y))
  | None => None
  end.

(** RegExpBuiltinExec without the sticky flag: the first position at or
    after [i] where the pattern matches. *)
Fixpoint search (n : nat) (r : regex) (i : nat) : option result :=
  match n with
  | 0 => None
  | S n' =>
      match matchAt r i with
      | Some res => Some res
      | None => search n' r (S i)
      end
  end.

Definition exec (r : regex) (lastIndex : nat) : option result :=
  search (S (length input) - lastIndex) r lastIndex.

(** All the matches of a global pattern, as [replace] and [matchAll]
    enumerate them: after an empty match the scan moves on by one. *)
Fixpoint matchesFrom (n : nat) (r : regex) (lastIndex : nat) : list result :=
  match n with
  | 0 => []
  | S n' =>
      match exec r lastIndex with
      | None => []
      | Some res =>
          res :: matchesFrom n' r
                   (if stop res =? index res then S (stop res) else stop res)
      end
  end.

Definition matches (r : regex) : list result :=
  matchesFrom (S (length input)) r 0.

Definition slice (i j : nat) : text := take (j - i) (drop i input).

Definition matched (res : result) : text := slice (index res) (stop res).

(** Capture [n] of a match, [None] when the group took no part. *)
Definition capture (res : result) (n : nat) : option text :=
  match groups res !! n with
  | Some (Some (i, j)) => Some (slice i j)
  | _ => None
  end.

(** The global replace: the text between matches is kept and each match
    is replaced by what [rep] returns for it, [rep] being called from
    left to right with a state of its own. *)
Fixpoint substitute {St} (rep : St -> result -> text * St) (st : St)
    (next : nat) (ms : list result) : text * St :=
  match ms with
  | [] => (drop next input, st)
  | res :: ms' =>
      if next <=? index res then
        let '(out, st') := rep st res in
        let '(rest, st'') := substitute rep st' (stop res) ms' in
        (slice next (index res) ++ out ++ rest, st'')
      else substitute rep st next ms'
  end.

End Matching.

Definition gmi : flags := Flags true true.
Definition gm : flags := Flags false true.

(** [str.replace(/r/g, callback)], the callback threading a state. *)
Definition replaceWith {St} (f : flags) (r : regex)
    (rep : St -> text -> list (option text) -> text * St) (st : St) (str : text)
    : text * St :=
  substitute str
    (fun st res =>
       rep st (matched str res)
           (map (capture str res) (seq 1 (length (groups res) - 1))))
    st 0 (matches f str r).

(** GetSubstitution for a pattern without named groups. *)
Definition digitValue (c : ascii) : nat := nat_of_ascii c - 48.

Fixpoint expand (template : text) (str : text) (res : result) : text :=
  let m := length (groups res) - 1 in
  let cap n := default [] (capture str res n) in
  match template with
  | [] => []
  | "$"%char :: rest =>
      match rest with
      | "$"%char :: rest' => "$"%char :: expand rest' str res
      | "&"%char :: rest' => matched str res ++ expand rest' str res
      | "`"%char :: rest' => take (index res) str ++ expand rest' str res
      | "'"%char :: rest' => drop (stop res) str ++ expand rest' str res
      | d1 :: rest' =>
          if isDigit d1 then
            match rest' with
            | d2 :: rest'' =>
                if isDigit d2 && (1 <=? 10 * digitValue d1 + digitValue d2)
                   && (10 * digitValue d1 + digitValue d2 <=? m)
                then cap (10 * digitValue d1 + digitValue d2) ++ expand rest'' str res
                else if (1 <=? digitValue d1) && (digitValue d1 <=? m)
                then cap (digitValue d1) ++ expand rest' str res
                else "$"%char :: expand rest str res
            | [] =>
                if (1 <=? digitValue d1) && (digitValue d1 <=? m)
                then cap (digitValue d1)
                else "$"%char :: expand rest str res
            end
          else "$"%char :: expand rest str res
      | [] => ["$"%char]
      end
  | c :: rest => c :: expand rest str res
  end.

(** [str.replace(/r/g, template)]. *)
Definition replace (f : flags) (r : regex) (template : text) (str : text) : text :=
  fst (substitute str (fun (st : unit) res => (expand template str res, st))
         tt 0 (matches f str r)).

(** The matches that [str.matchAll(/r/g)] yields: the whole match followed
    by the captures. *)
Definition matchAll (f : flags) (r : regex) (str : text) : list (list (option text)) :=
  map (fun res =>
         Some (matched str res)
         :: map (capture str res) (seq 1 (length (groups res) - 1)))
      (matches f str r).

(** *** String methods with a string argument *)

Fixpoint isPrefix (p s : text) : bool :=
  match p, s with
  | [], _ => true
  | a :: p', b :: s' => ascii_eqb a b && isPrefix p' s'
  | _ :: _, [] => false
  end.

(** [str.indexOf(needle)], [None] for -1. *)
Fixpoint indexOf (needle str : text) : option nat :=
  if isPrefix needle str then Some 0
  else
    match str with
    | [] => None
    | _ :: str' => S <$> indexOf needle str'
    end.

(** [str.replace(needle, template)]: the first occurrence only; the
    template is expanded as for a pattern without groups. *)
Definition replaceFirst (needle template str : text) : text :=
  match indexOf needle str with
  | None => str
  | Some i =>
      let res := Result i (i + length needle) [None] in
      take i str ++ expand template str res ++ drop (i + length needle) str
  end.

(** [str.split(sep)] for a separator that is not empty. *)
Fixpoint splitAux (sep : text) (skip : nat) (piece : text) (str : text) : list text :=
  match str with
  | [] => [piece]
  | c :: str' =>
      match skip with
      | S k => splitAux sep k piece str'
      | 0 =>
          if isPrefix sep str then piece :: splitAux sep (length sep - 1) [] str'
          else splitAux sep 0 (piece ++ [c]) str'
      end
  end.

Definition split (sep str : text) : list text := splitAux sep 0 [] str.

(** [pieces.join(sep)]. *)
Fixpoint join (sep : text) (pieces : list text) : text :=
  match pieces with
  | [] => []
  | [p] => p
  | p :: ps => p ++ sep ++ join sep ps
  end.

(** What [new RegExp(pattern, flags)] and [replace] with such an object
    do for the patterns of a correction table, which is read from a file
    and can hold any pattern. *)
Record Engine := {
  rx : Type;
  construct : string -> string -> option rx;
  replaceRx : rx -> string -> text -> text
}.

End RegExp.

(** ** RubyTranspiler *)

Module RubyTranspiler.

Import RegExp.

Definition nl : ascii := "010"%char.

(** *** The patterns of [correct] *)

Definition word : regex := Class false [IWord].
Definition space : regex := Class false [ISpace].

(** [/Math.floor\((.+)\)/gm] *)
Definition floorCall : regex :=
  sequence [lit (chars "Math"); Dot; lit (chars "floor"); Char "(";
            Group 1 (Plus Dot); Char ")"].

(** [/def (\w+)\(.+\)\n(.+\n)+/gmi] *)
Definition definition : regex :=
  sequence [lit (chars "def "); Group 1 (Plus word); Char "("; Plus Dot; Char ")";
            Char nl; Plus (Group 2 (Seq (Plus Dot) (Char nl)))].

(** [/def \w+\((.+)\)/gmi] *)
Definition declaration : regex :=
  sequence [lit (chars "def "); Plus word; Char "("; Group 1 (Plus Dot); Char ")"].

(** [/([^\s,]+\(.+?\))|([^\s,]+)/gmi] *)
Definition parameter : regex :=
  let c := Class true [ISpace; IChar ","] in
  Alt (Group 1 (sequence [Plus c; Char "("; LazyPlus Dot; Char ")"]))
      (Group 2 (Plus c)).

(** [/(.*(?<!def\s)mathematics\()((\w+(\([^()]+\))?(,\s)?)+)(\).+)/gmi] *)
Definition mathematicsCall : regex :=
  sequence
    [Group 1 (sequence [Star Dot; LookBehind true (Seq (lit (chars "def")) space);
                        lit (chars "mathematics"); Char "("]);
     Group 2 (Plus (Group 3 (sequence
       [Plus word;
        Opt (Group 4 (sequence [Char "("; Plus (Class true [IChar "("; IChar ")"]);
                                Char ")"]));
        Opt (Group 5 (Seq (Char ",") space))])));
     Group 6 (Seq (Char ")") (Plus Dot))].

(** [/\w+(\(.+\))?/gmi] *)
Definition argument : regex :=
  Seq (Plus word) (Opt (Group 1 (sequence [Char "("; Plus Dot; Char ")"]))).

(** [/(\w+)\+\+/gmi] *)
Definition increment : regex :=
  Seq (Group 1 (Plus word)) (lit (chars "++")).

(** [/puts\((.+)\)\n/gmi] *)
Definition putsCall : regex :=
  sequence [lit (chars "puts"); Char "("; Group 1 (Plus Dot); Char ")"; Char nl].

(** *** [higherOrderFuncs], an object used as a map

    [Object.keys] lists the keys that are array indices first, in
    increasing order, and then the other keys in the order in which they
    were added.  Assigning a number to the key [__proto__] runs the
    setter of [Object.prototype], which ignores it: no key is added. *)

Definition setKey (k : text) (v : nat) (o : list (text * nat)) : list (text * nat) :=
  if bool_decide (k = chars "__proto__") then o
  else if existsb (fun e => bool_decide (e.1 = k)) o
  then map (fun e => if bool_decide (e.1 = k) then (k, v) else e) o
  else o ++ [(k, v)].

Definition getKey (k : text) (o : list (text * nat)) : option nat :=
  snd <$> find (fun e => bool_decide (e.1 = k)) o.

Definition decimal (k : text) : N :=
  fold_left (fun n c => (10 * n + N.of_nat (digitValue c))%N) k 0%N.

Definition isArrayIndex (k : text) : bool :=
  match k with
  | [] => false
  | c :: k' =>
      forallb isDigit k
      && (negb (ascii_eqb c "0") || bool_decide (k' = []))
      && (length k <=? 10) && (decimal k <? 4294967295)%N
  end.

Fixpoint insertIndex (k : text) (ks : list text) : list text :=
  match ks with
  | [] => [k]
  | k' :: ks' =>
      if (decimal k <=? decimal k')%N then k :: ks
      else k' :: insertIndex k ks'
  end.

Definition objectKeys (o : list (text * nat)) : list text :=
  let ks := map fst o in
  fold_right insertIndex [] (filter (fun k => isArrayIndex k = true) ks)
  ++ filter (fun k => isArrayIndex k = false) ks.

(** A capture used as a string. *)
Definition str (c : option (option text)) : text :=
  match c with
  | Some (Some t) => t
  | _ => chars "undefined"
  end.

(** *** The callbacks of [correct] *)

(** The body of [for (const param of params)]: [def] is the function's
    text as rewritten so far. *)
Fixpoint eachParam (name : text) (params : list (list (option text))) (pos : nat)
    (st : text * list (text * nat)) : text * list (text * nat) :=
  match params with
  | [] => st
  | param :: params' =>
      let '(def, higherOrderFuncs) := st in
      let p := str (param !! 0) in
      eachParam name params' (S pos)
        (if bool_decide (indexOf (p ++ chars "(") def <> None)
         then (replaceFirst (p ++ chars "(") (p ++ chars ".call(") def,
               setKey name pos higherOrderFuncs)
         else st)
  end.

Fixpoint eachDeclaration (name : text) (decls : list (list (option text)))
    (st : text * list (text * nat)) : text * list (text * nat) :=
  match decls with
  | [] => st
  | parameterList :: decls' =>
      eachDeclaration name decls'
        (eachParam name (matchAll gmi parameter (str (parameterList !! 1))) 0 st)
  end.

(** [(def, $1) => { ... return def }]; the iterator of [def.matchAll]
    runs over the text the callback was called with. *)
Definition markCallables (higherOrderFuncs : list (text * nat)) (def : text)
    (caps : list (option text)) : text * list (text * nat) :=
  eachDeclaration (str (caps !! 0)) (matchAll gmi declaration def)
    (def, higherOrderFuncs).

(** [replacer]: [i] is the function's own counter, [None] before the
    first call.  The call to [console.log] is not modelled. *)
Definition replacer (target : option nat) (i : option Z) (param : text)
    (caps : list (option text)) : text * option Z :=
  let i' := (match i with None => -1 | Some n => n end + 1)%Z in
  (if bool_decide (Some i' = Z.of_nat <$> target)
   then chars "method(:" ++ param ++ chars ")"
   else param,
   Some i').

Definition passMethod (target : option nat) (i : option Z) (whole : text)
    (caps : list (option text)) : text * option Z :=
  let '(params, i') :=
    replaceWith gmi argument (replacer target) i (str (caps !! 1)) in
  (str (caps !! 0) ++ params ++ str (caps !! 5), i').

Definition stringify (arg : text) : text :=
  match arg with
  | c :: _ =>
      if ascii_eqb c squote || ascii_eqb c dquote then arg
      else chars "(" ++ arg ++ chars ")" ++ chars ".to_s"
  | [] => chars "(" ++ arg ++ chars ")" ++ chars ".to_s"
  end.

Definition putsArguments (_ : unit) (input : text) (caps : list (option text))
    : text * unit :=
  let args := split (chars " + ") (str (caps !! 0)) in
  (chars "puts(" ++ join (chars " + ") (map stringify args) ++ chars ")" ++ [nl], tt).

Section Translator.

(** The regular expression engine, the content of
    [./src/ruby-transpiler/ruby.json] as [Object.keys] lists it, and
    the implementation of [Buffer]. *)
Variable E : Engine.
Variable corrections : list (string * string).
Variable B : Buffer.Impl.

(** *** correct *)

Fixpoint applyCorrections (table : list (string * string)) (code : text)
    : exn + text :=
  match table with
  | [] => inr code
  | (key, value) :: table' =>
      match construct E key "gmi" with
      | None => inl SyntaxError
      | Some r => applyCorrections table' (replaceRx E r value code)
      end
  end.

Definition floorStep (code : text) : text :=
  replace gm floorCall (chars "($1).floor") code.

Definition definitionStep (code : text) : text * list (text * nat) :=
  replaceWith gmi definition markCallables [] code.

Definition callSiteStep (higherOrderFuncs : list (text * nat)) (code : text) : text :=
  fold_left
    (fun code func =>
       fst (replaceWith gmi mathematicsCall
              (passMethod (getKey func higherOrderFuncs)) None code))
    (objectKeys higherOrderFuncs) code.

Definition incrementStep (code : text) : text :=
  replace gmi increment (chars "$1 += 1") code.

Definition putsStep (code : text) : text :=
  fst (replaceWith gmi putsCall putsArguments tt code).

Definition correct (code : text) : exn + text :=
  match applyCorrections corrections code with
  | inl e => inl e
  | inr code =>
      let code := floorStep code in
      let '(code, higherOrderFuncs) := definitionStep code in
      let code := callSiteStep higherOrderFuncs code in
      let code := incrementStep code in
      inr (putsStep code)
  end.

(** *** The visitor methods of RubyTranspiler *)

Section Methods.

(** [this.recursiveParse] and [this[node.type](node)], bound late,
    and the bound on loop iterations. *)
Variable recursiveParse : value -> M text.
Variable dispatch : value -> M unit.
Variable fuel : nat.

Definition ExpressionStatement (node : value) : M unit :=
  TranspilerSuper.ExpressionStatement recursiveParse node;;
  emit Newline.

Definition FunctionDeclaration (node : value) : M unit :=
  JS.add "def ";;
  TranspilerSuper.FunctionDeclaration recursiveParse fuel node.

Definition BlockStatement (node : value) : M unit :=
  emit Indent;;
  emit Newline;;
  TranspilerSuper.BlockStatement recursiveParse fuel node;;
  emit Trim;;
  emit Dedent;;
  emit Newline;;
  JS.add "end";;
  emit Newline.

Definition IfStatement (node : value) : M unit :=
  JS.add "if ";;
  test ← getProp node "test";
  recursiveParse test;;
  consequent ← getProp node "consequent";
  ty ← getProp consequent "type";
  block ← looseEqStr ty "BlockStatement";
  (if negb block then
     tempNode ← alloc (CObj {[ "type" := VStr "ReturnStatement" ]});
     consequent ← getProp node "consequent";
     objectAssign tempNode consequent;;
     consequent ← getProp node "consequent";
     setProp consequent "type" (VStr "BlockStatement");;
     consequent ← getProp node "consequent";
     body ← alloc (CArr [tempNode]);
     setProp consequent "body" body;;
     consequent ← getProp node "consequent";
     recursiveParse consequent;; ret tt
   else
     consequent ← getProp node "consequent";
     recursiveParse consequent;; ret tt);;
  alternate ← getProp node "alternate";
  if truthy alternate then
    emit (DeleteLines 1);;
    JS.add "else ";;
    alternate ← getProp node "alternate";
    recursiveParse alternate;; ret tt
  else ret tt.

Definition VariableDeclaration (node : value) : M unit :=
  TranspilerSuper.VariableDeclaration recursiveParse fuel node;;
  emit Newline.

Definition ReturnStatement (node : value) : M unit :=
  JS.add "return ";;
  TranspilerSuper.ReturnStatement recursiveParse node;;
  emit Newline.

Definition ForStatement (node : value) : M unit :=
  init ← getProp node "init";
  recursiveParse init;;
  setProp node "type" (VStr "WhileStatement");;
  body ← getProp node "body";
  stmts ← getProp body "body";
  update ← getProp node "update";
  push stmts update;;
  dispatch node.

Definition UpdateExpression (node : value) : M unit :=
  prefix ← getProp node "prefix";
  (if truthy prefix then
     operator ← getProp node "operator"; emit (Add operator)
   else ret tt);;
  argument ← getProp node "argument";
  recursiveParse argument;;
  prefix ← getProp node "prefix";
  if negb (truthy prefix) then
    operator ← getProp node "operator"; emit (Add operator)
  else ret tt.

(** *** The members of a translator

    What [this[name]] finds, looking in the instance, then in
    [RubyTranspiler.prototype], [TranspilerSuper.prototype] and
    [Object.prototype]: a function, which [this[node.type](node)] calls
    with the node whether it is a visitor or not, dropping what it
    returns, or a value that cannot be called.  Of four functions the
    call with a node is not modelled: [parse] and [recursiveParse], which
    dispatch the same node again without end, [correct], which expects a
    text, and [clear], which replaces the buffer. *)

Inductive member :=
| Method (f : value -> M unit)
| NotCallable
| NotModelled.

(** [Object.prototype.toString], [toLocaleString], [valueOf] and
    [isPrototypeOf] return a value and do nothing else. *)
Definition inert (node : value) : M unit := ret tt.

(** [hasOwnProperty], [propertyIsEnumerable], [__lookupGetter__] and
    [__lookupSetter__] turn their argument into a property key first.
    A node without a [toString] of its own gives the key
    [[object Object]].  One that has it fails: no value of this model
    is a function, so its [toString] cannot be called, and [valueOf]
    gives no primitive. *)
Definition keyed (node : value) : M unit :=
  fun s =>
    match node with
    | VRef l =>
        match heap s !! l with
        | Some (CObj o) =>
            if decide (o !! "toString" = None) then Ok tt s else Throw TypeError s
        | _ => Beyond OutsideModel
        end
    | _ => Ok tt s
    end.

(** The class, which is called without [new], and [__defineGetter__]
    and [__defineSetter__], which get no function for second
    argument. *)
Definition refuse (node : value) : M unit := throw TypeError.

Definition instanceFields : list (string * member) :=
  [("buffer", NotCallable); ("corrections", NotCallable)].

Definition rubyPrototype : list (string * member) :=
  [("constructor", Method refuse);
   ("parse", NotModelled);
   ("recursiveParse", NotModelled);
   ("correct", NotModelled);
   ("ExpressionStatement", Method ExpressionStatement);
   ("FunctionDeclaration", Method FunctionDeclaration);
   ("BlockStatement", Method BlockStatement);
   ("IfStatement", Method IfStatement);
   ("VariableDeclaration", Method VariableDeclaration);
   ("ReturnStatement", Method ReturnStatement);
   ("ForStatement", Method ForStatement);
   ("UpdateExpression", Method UpdateExpression)].

Definition superPrototype : list (string * member) :=
  [("clear", NotModelled);
   ("File", Method (TranspilerSuper.File recursiveParse));
   ("Program", Method (TranspilerSuper.Program recursiveParse fuel));
   ("ImportDeclaration", Method TranspilerSuper.ImportDeclaration);
   ("AssignmentExpression", Method (TranspilerSuper.AssignmentExpression recursiveParse));
   ("VariableDeclarator", Method (TranspilerSuper.VariableDeclarator recursiveParse));
   ("CallExpression", Method (TranspilerSuper.CallExpression recursiveParse fuel));
   ("MemberExpression", Method (TranspilerSuper.MemberExpression recursiveParse));
   ("UnaryExpression", Method (TranspilerSuper.UnaryExpression recursiveParse));
   ("BinaryExpression", Method (TranspilerSuper.BinaryExpression recursiveParse));
   ("ConditionalExpression", Method (TranspilerSuper.ConditionalExpression recursiveParse));
   ("LogicalExpression", Method (TranspilerSuper.LogicalExpression recursiveParse));
   ("WhileStatement", Method (TranspilerSuper.WhileStatement recursiveParse));
   ("DoWhileStatement", Method (TranspilerSuper.DoWhileStatement recursiveParse));
   ("Identifier", Method TranspilerSuper.Identifier);
   ("Literal", Method TranspilerSuper.Literal);
   ("NumericLiteral", Method TranspilerSuper.NumericLiteral);
   ("StringLiteral", Method TranspilerSuper.StringLiteral);
   ("BooleanLiteral", Method TranspilerSuper.BooleanLiteral);
   ("RegExpLiteral", Method TranspilerSuper.RegExpLiteral);
   ("ArrayExpression", Method (TranspilerSuper.ArrayExpression recursiveParse fuel))].

Definition objectPrototype : list (string * member) :=
  [("toString", Method inert);
   ("toLocaleString", Method inert);
   ("valueOf", Method inert);
   ("isPrototypeOf", Method inert);
   ("hasOwnProperty", Method keyed);
   ("propertyIsEnumerable", Method keyed);
   ("__lookupGetter__", Method keyed);
   ("__lookupSetter__", Method keyed);
   ("__defineGetter__", Method refuse);
   ("__defineSetter__", Method refuse);
   ("__proto__", NotCallable)].

Definition members : list (string * member) :=
  instanceFields ++ rubyPrototype ++ superPrototype ++ objectPrototype.

Definition lookup (name : string) : option member :=
  snd <$> find (fun e => String.eqb e.1 name) members.

(** [this[node.type](node)] *)
Definition invoke (node : value) : M unit :=
  ty ← getProp node "type";
  name ← toString ty;
  match lookup name with
  | Some (Method f) => f node
  | Some NotModelled => beyond OutsideModel
  | Some NotCallable => throw TypeError
  | None => throw TypeError
  end.

End Methods.

Definition get : M text :=
  fun s => Ok (Buffer.render B (buffer s)) s.

(** [fuel] bounds the depth to which the methods call each other, and
    the number of iterations of each of their loops. *)
Fixpoint dispatch (fuel : nat) (node : value) : M unit :=
  match fuel with
  | 0 => beyond OutOfFuel
  | S fuel' =>
      invoke (fun node => dispatch fuel' node;; get) (dispatch fuel') fuel' node
  end.

Definition recursiveParse (fuel : nat) (node : value) : M text :=
  dispatch fuel node;; get.

Definition parse (fuel : nat) (node : value) : M text :=
  code ← recursiveParse fuel node;
  match correct code with
  | inl e => throw e
  | inr code' => ret code'
  end.

(** [clear()] *)
Definition clear : M unit :=
  fun s => Ok tt (State (heap s) []).

End Translator.

(** [new RubyTranspiler()]: [super()] creates the buffer, and
    [corrections] is what [JSON.parse] returns for the content of
    [ruby.json], here [table].  Nothing else is done with the table. *)
Record translator := Translator {
  this_buffer : list call;
  this_corrections : list (string * string)
}.

Definition constructor (table : list (string * string)) : exn + translator :=
  inr (Translator [] table).

(** A call of [parse] on a translator, the nodes being in [objects]. *)
Definition run (E : Engine) (B : Buffer.Impl) (this : translator)
    (fuel : nat) (objects : list cell) (node : value) : outcome text :=
  parse E (this_corrections this) B fuel node (State objects (this_buffer this)).

(** The names that [this[name]] resolves. *)
Definition memberNames : list string :=
  ["buffer"; "corrections";
   "constructor"; "parse"; "recursiveParse"; "correct"; "ExpressionStatement";
   "FunctionDeclaration"; "BlockStatement"; "IfStatement"; "VariableDeclaration";
   "ReturnStatement"; "ForStatement"; "UpdateExpression";
   "clear"; "File"; "Program"; "ImportDeclaration"; "AssignmentExpression";
   "VariableDeclarator"; "CallExpression"; "MemberExpression"; "UnaryExpression";
   "BinaryExpression"; "ConditionalExpression"; "LogicalExpression";
   "WhileStatement"; "DoWhileStatement"; "Identifier"; "Literal";
   "NumericLiteral"; "StringLiteral"; "BooleanLiteral"; "RegExpLiteral";
   "ArrayExpression";
   "toString"; "toLocaleString"; "valueOf"; "isPrototypeOf"; "hasOwnProperty";
   "propertyIsEnumerable"; "__lookupGetter__"; "__lookupSetter__";
   "__defineGetter__"; "__defineSetter__"; "__proto__"].

End RubyTranspiler.

(** ** A buffer and a pattern parser to run the translator on examples *)

Module LineBuffer.

(** Modelled from the spec: the Buffer class of [src/buffer/buffer.js],
    which is not among the sources.  The buffer holds the text emitted so
    far and an indentation counter.  [add] appends to the current line,
    [newline] ends it and starts a line at the current indentation,
    [trim] removes the white space at the end of the text, [deleteLines n]
    removes the last [n] lines that were ended and keeps the line being
    written, and [get] returns the whole text.  The spec does not give the
    width of one level of indentation; it is a parameter. *)
Record t := Make { code : text; level : nat }.

(** What [add] appends for a value: the string that concatenation
    gives.  The numbers of the examples are small; one of 10^21 or more
    would be printed in exponent form, which this buffer does not do. *)
Definition coerce (v : value) : text :=
  match v with
  | VUndef => chars "undefined"
  | VNull => chars "null"
  | VBool true => chars "true"
  | VBool false => chars "false"
  | VNum n => chars (pretty n)
  | VDec shown => chars shown
  | VStr s => chars s
  | VRef _ => chars "[object Object]"
  end.

Fixpoint dropWhile (p : ascii -> bool) (c : text) : text :=
  match c with
  | [] => []
  | a :: c' => if p a then dropWhile p c' else c
  end.

Definition rstrip (c : text) : text :=
  rev (dropWhile RegExp.isSpace (rev c)).

Definition dropLines (n : nat) (c : text) : text :=
  let lines := RegExp.split [RubyTranspiler.nl] c in
  let ended := take (length lines - 1) lines in
  RegExp.join [RubyTranspiler.nl]
    (take (length ended - n) ended ++ drop (length lines - 1) lines).

Definition impl (tab : text) : Buffer.Impl := {|
  Buffer.buf := t;
  Buffer.new := Make [] 0;
  Buffer.add v b := Make (code b ++ coerce v) (level b);
  Buffer.newline b :=
    Make (code b ++ [RubyTranspiler.nl] ++ concat (replicate (level b) tab)) (level b);
  Buffer.indent b := Make (code b) (S (level b));
  Buffer.dedent b := Make (code b) (pred (level b));
  Buffer.trim b := Make (rstrip (code b)) (level b);
  Buffer.deleteLines n b := Make (dropLines n (code b)) (level b);
  Buffer.get := code
|}.

End LineBuffer.

Module PatternParser.

Import RegExp.

(** The pattern grammar of ECMAScript restricted to literal characters,
    [.], [^], [$], escaped punctuation, the class escapes [\d \w \s] and
    their complements, the control escapes, groups [( )] and [(?: )],
    alternation, and the quantifiers [*], [+] and [?] with their lazy
    forms.  What ECMAScript rejects in this fragment is rejected: a group
    that is not closed, a [)] without a group, a quantifier with nothing
    to repeat, a backslash at the end.  Patterns that use anything else
    (classes in brackets, braces, look-around, back-references) are not
    in the fragment, and this parser refuses them as well. *)

Definition isAlnum (c : ascii) : bool := isDigit c || isUpper c || isLower c.

Definition escape (c : ascii) : option regex :=
  if ascii_eqb c "d" then Some (Class false [IDigit])
  else if ascii_eqb c "D" then Some (Class true [IDigit])
  else if ascii_eqb c "w" then Some (Class false [IWord])
  else if ascii_eqb c "W" then Some (Class true [IWord])
  else if ascii_eqb c "s" then Some (Class false [ISpace])
  else if ascii_eqb c "S" then Some (Class true [ISpace])
  else if ascii_eqb c "t" then Some (Char "009")
  else if ascii_eqb c "n" then Some (Char "010")
  else if ascii_eqb c "v" then Some (Char "011")
  else if ascii_eqb c "f" then Some (Char "012")
  else if ascii_eqb c "r" then Some (Char "013")
  else if isAlnum c then None
  else Some (Char c).

Definition quantifier (r : regex) (s : text) : regex * text :=
  let lazy min max s' :=
    match s' with
    | "?"%char :: s'' => (Quant r min max false, s'')
    | _ => (Quant r min max true, s')
    end in
  match s with
  | "*"%char :: s' => lazy 0 None s'
  | "+"%char :: s' => lazy 1 None s'
  | "?"%char :: s' => lazy 0 (Some 1) s'
  | _ => (r, s)
  end.

Definition mkSeq (a b : regex) : regex :=
  match b with
  | Empty => a
  | _ => Seq a b
  end.

(** [g] is the number of the next capturing group. *)
Fixpoint disjunction (fuel : nat) (s : text) (g : nat) : option (regex * text * nat) :=
  match fuel with
  | 0 => None
  | S n =>
      match alternative n s g with
      | Some (a, "|"%char :: s1, g1) =>
          match disjunction n s1 g1 with
          | Some (b, s2, g2) => Some (Alt a b, s2, g2)
          | None => None
          end
      | other => other
      end
  end
with alternative (fuel : nat) (s : text) (g : nat) : option (regex * text * nat) :=
  match fuel with
  | 0 => None
  | S n =>
      match s with
      | [] => Some (Empty, s, g)
      | c :: s0 =>
          if ascii_eqb c "|" || ascii_eqb c ")" then Some (Empty, s, g)
          else if ascii_eqb c "^" then
            match alternative n s0 g with
            | Some (r, s1, g1) => Some (mkSeq LineStart r, s1, g1)
            | None => None
            end
          else if ascii_eqb c "$" then
            match alternative n s0 g with
            | Some (r, s1, g1) => Some (mkSeq LineEnd r, s1, g1)
            | None => None
            end
          else
            match atom n s g with
            | Some (a, s1, g1) =>
                let '(t, s2) := quantifier a s1 in
                match alternative n s2 g1 with
                | Some (r, s3, g2) => Some (mkSeq t r, s3, g2)
                | None => None
                end
            | None => None
            end
      end
  end
with atom (fuel : nat) (s : text) (g : nat) : option (regex * text * nat) :=
  match fuel with
  | 0 => None
  | S n =>
      match s with
      | "("%char :: "?"%char :: ":"%char :: s1 =>
          match disjunction n s1 g with
          | Some (r, ")"%char :: s2, g1) => Some (r, s2, g1)
          | _ => None
          end
      | "("%char :: "?"%char :: _ => None
      | "("%char :: s1 =>
          match disjunction n s1 (S g) with
          | Some (r, ")"%char :: s2, g1) => Some (Group g r, s2, g1)
          | _ => None
          end
      | "\"%char :: c :: s1 =>
          match escape c with
          | Some r => Some (r, s1, g)
          | None => None
          end
      | "."%char :: s1 => Some (Dot, s1, g)
      | c :: s1 =>
          if existsb (ascii_eqb c) (chars "\*+?[{") then None
          else Some (Char c, s1, g)
      | [] => None
      end
  end.

Definition pattern (p : string) : option regex :=
  match disjunction (3 * String.length p + 3) (chars p) 1 with
  | Some (r, [], _) => Some r
  | _ => None
  end.

(** Flag strings made of [g], [i] and [m], each at most once, with [g]. *)
Definition flagsOf (fl : string) : option flags :=
  let has c := existsb (ascii_eqb c) (chars fl) in
  if forallb (fun c => existsb (ascii_eqb c) (chars "gim")) (chars fl)
     && bool_decide (NoDup (chars fl)) && has "g"%char
  then Some (Flags (has "i"%char) (has "m"%char))
  else None.

Definition engine : Engine := {|
  rx := flags * regex;
  construct p fl :=
    match flagsOf fl, pattern p with
    | Some f, Some r => Some (f, r)
    | _, _ => None
    end;
  replaceRx r template str := replace r.1 r.2 (chars template) str
|}.

End PatternParser.

(** ** Sample programs *)

Module Samples.

Import RubyTranspiler.

Definition obj (props : list (string * value)) : cell := CObj (list_to_map props).

Definition ident (name : string) : cell :=
  obj [("type", VStr "Identifier"); ("name", VStr name)].

(** A translator with an empty correction table, two spaces per level of
    indentation. *)
Definition B : Buffer.Impl := LineBuffer.impl (chars "  ").
Definition E : RegExp.Engine := PatternParser.engine.

Definition fresh : translator := Translator [] [].

Definition output (o : outcome text) : option text :=
  match o with
  | Ok t _ => Some t
  | _ => None
  end.

Definition final {A} (o : outcome A) : option state :=
  match o with
  | Ok _ s | Throw _ s => Some s
  | Beyond _ => None
  end.

Definition thrown {A} (o : outcome A) : option exn :=
  match o with
  | Throw e _ => Some e
  | _ => None
  end.

(** [if (c) x;] *)
Definition ifBare : list cell :=
  [obj [("type", VStr "IfStatement"); ("test", VRef 1); ("consequent", VRef 2)];
   ident "c";
   obj [("type", VStr "ExpressionStatement"); ("expression", VRef 3)];
   ident "x"].

(** [if (c) { return x; }] *)
Definition ifReturn : list cell :=
  [obj [("type", VStr "IfStatement"); ("test", VRef 1); ("consequent", VRef 2)];
   ident "c";
   obj [("type", VStr "BlockStatement"); ("body", VRef 4)];
   ident "x";
   CArr [VRef 5];
   obj [("type", VStr "ReturnStatement"); ("argument", VRef 3)]].

(** [if (c) { x; }] *)
Definition ifBlock : list cell :=
  [obj [("type", VStr "IfStatement"); ("test", VRef 1); ("consequent", VRef 2)];
   ident "c";
   obj [("type", VStr "BlockStatement"); ("body", VRef 4)];
   ident "x";
   CArr [VRef 5];
   obj [("type", VStr "ExpressionStatement"); ("expression", VRef 3)]].

(** The pieces shared by the loops below: [let i = 0], [i < n], [i++] and
    [f(i);] at 1, 2, 3 and 4. *)
Definition loopParts : list cell :=
  [obj [("type", VStr "VariableDeclaration"); ("declarations", VRef 5)];
   obj [("type", VStr "BinaryExpression"); ("left", VRef 7);
        ("operator", VStr "<"); ("right", VRef 8)];
   obj [("type", VStr "UpdateExpression"); ("operator", VStr "++");
        ("prefix", VBool false); ("argument", VRef 7)];
   obj [("type", VStr "ExpressionStatement"); ("expression", VRef 11)];
   CArr [VRef 6];
   obj [("type", VStr "VariableDeclarator"); ("id", VRef 7); ("init", VRef 9)];
   ident "i";
   ident "n";
   obj [("type", VStr "NumericLiteral"); ("extra", VRef 10)];
   obj [("rawValue", VNum 0); ("raw", VStr "0")];
   obj [("type", VStr "CallExpression"); ("callee", VRef 12); ("arguments", VRef 13)];
   ident "f";
   CArr [VRef 7]].

(** [for (let i = 0; i < n; i++) f(i);] *)
Definition forBare : list cell :=
  obj [("type", VStr "ForStatement"); ("init", VRef 1); ("test", VRef 2);
       ("update", VRef 3); ("body", VRef 4)]
  :: loopParts.

(** [for (let i = 0; i < n; i++) { f(i); }], the block at 14. *)
Definition forBlock : list cell :=
  obj [("type", VStr "ForStatement"); ("init", VRef 1); ("test", VRef 2);
       ("update", VRef 3); ("body", VRef 14)]
  :: loopParts
  ++ [obj [("type", VStr "BlockStatement"); ("body", VRef 15)];
      CArr [VRef 4]].

(** [(a + b) * c] *)
Definition product : list cell :=
  [obj [("type", VStr "BinaryExpression"); ("left", VRef 1);
        ("operator", VStr "*"); ("right", VRef 4)];
   obj [("type", VStr "BinaryExpression"); ("left", VRef 2);
        ("operator", VStr "+"); ("right", VRef 3)];
   ident "a"; ident "b"; ident "c"].

(** [Math.floor(x)], an expression *)
Definition floorOfX : list cell :=
  [obj [("type", VStr "CallExpression"); ("callee", VRef 1); ("arguments", VRef 2)];
   obj [("type", VStr "MemberExpression"); ("object", VRef 3); ("property", VRef 4);
        ("computed", VBool false)];
   CArr [VRef 5];
   ident "Math"; ident "floor"; ident "x"].

(** [puts(a);] as a program *)
Definition putsProgram : list cell :=
  [obj [("type", VStr "File"); ("program", VRef 1)];
   obj [("type", VStr "Program"); ("body", VRef 2)];
   CArr [VRef 3];
   obj [("type", VStr "ExpressionStatement"); ("expression", VRef 4)];
   obj [("type", VStr "CallExpression"); ("callee", VRef 5); ("arguments", VRef 6)];
   ident "puts";
   CArr [VRef 7];
   ident "a"].

(** The empty program *)
Definition emptyProgram : list cell :=
  [obj [("type", VStr "File"); ("program", VRef 1)];
   obj [("type", VStr "Program"); ("body", VRef 2)];
   CArr []].

(** A table whose second pattern is an unclosed group *)
Definition badTable : list (string * string) :=
  [("console\.log", "puts"); ("(", "x")].

(** [x => x], a construct without a visitor method *)
Definition arrow : list cell :=
  [obj [("type", VStr "ArrowFunctionExpression"); ("params", VRef 1); ("body", VRef 2)];
   CArr [VRef 2];
   ident "x"].

(** A node that has nothing but its tag *)
Definition tagged (tag : string) : list cell := [obj [("type", VStr tag)]].

(** [a$++] *)
Definition dollarIncrement : list cell :=
  [obj [("type", VStr "UpdateExpression"); ("operator", VStr "++");
        ("prefix", VBool false); ("argument", VRef 1)];
   ident "a$"].

(** [puts("x + y" + z);] *)
Definition putsJoined : list cell :=
  [obj [("type", VStr "ExpressionStatement"); ("expression", VRef 1)];
   obj [("type", VStr "CallExpression"); ("callee", VRef 2); ("arguments", VRef 3)];
   ident "puts";
   CArr [VRef 4];
   obj [("type", VStr "BinaryExpression"); ("left", VRef 5);
        ("operator", VStr "+"); ("right", VRef 6)];
   obj [("type", VStr "StringLiteral"); ("extra", VRef 7)];
   ident "z";
   obj [("raw", VStr (String dquote ("x + y" +:+ String dquote EmptyString)))]].

(** [p; puts(a + "b");] *)
Definition putsSum : list cell :=
  [obj [("type", VStr "Program"); ("body", VRef 1)];
   CArr [VRef 2; VRef 4];
   obj [("type", VStr "ExpressionStatement"); ("expression", VRef 3)];
   ident "p";
   obj [("type", VStr "ExpressionStatement"); ("expression", VRef 5)];
   obj [("type", VStr "CallExpression"); ("callee", VRef 6); ("arguments", VRef 7)];
   ident "puts";
   CArr [VRef 8];
   obj [("type", VStr "BinaryExpression"); ("left", VRef 9);
        ("operator", VStr "+"); ("right", VRef 10)];
   ident "a";
   obj [("type", VStr "StringLiteral"); ("extra", VRef 11)];
   obj [("raw", VStr (String dquote ("b" +:+ String dquote EmptyString)))]].

(** A program of two statements, the identifier [a] and an arrow
    function, for which there is no visitor *)
Definition failing : list cell :=
  [obj [("type", VStr "Program"); ("body", VRef 1)];
   CArr [VRef 2; VRef 3]; ident "a";
   obj [("type", VStr "ArrowFunctionExpression")]].

End Samples.

Import RegExp RubyTranspiler Samples.

(** * Notions used in the statements *)

(** ** Members and buffer calls *)

(** [name] is a key of the translator or of one of its prototypes. *)
Definition isMember (name : string) : bool :=
  bool_decide (name ∈ memberNames).

(** The members that cannot be called with a node: values that are not
    functions, and functions that raise a TypeError at once. *)
Definition refusedNames : list string :=
  ["buffer"; "corrections"; "__proto__"; "constructor";
   "__defineGetter__"; "__defineSetter__"].

(** The functions of [Object.prototype] that return and do nothing
    else. *)
Definition inertNames : list string :=
  ["toString"; "toLocaleString"; "valueOf"; "isPrototypeOf"].

(** Those that turn the node into a property key first. *)
Definition keyedNames : list string :=
  ["hasOwnProperty"; "propertyIsEnumerable"; "__lookupGetter__"; "__lookupSetter__"].

(** [produces m h calls h']: run on the objects [h], whatever the buffer
    holds, [m] returns, leaves the objects [h'] and has made the calls
    [calls] on the buffer. *)
Definition produces {A} (m : M A) (h : list cell) (calls : list call)
    (h' : list cell) : Prop :=
  forall b, exists a, m (State h b) = Ok a (State h' (b ++ calls)).

(** The calls made for an operand, [nested] telling whether its tag is
    [BinaryExpression]. *)
Definition operandCalls (nested : bool) (calls : list call) : list call :=
  if nested then [Add (VStr "(")] ++ calls ++ [Add (VStr ")")] else calls.

(** ** What a visitor method does to the store and to the buffer *)

(** The writes that the visitor methods make to an object that is not of
    their own making: [IfStatement] sets the [type] of a consequent to
    [BlockStatement] and gives it a [body]; [ForStatement] sets the
    [type] of its node to [WhileStatement] and appends to the statement
    list of its body. *)
Inductive rewrite : cell -> cell -> Prop :=
| rewrite_block (o : gmap string value) :
    rewrite (CObj o) (CObj (<["type" := VStr "BlockStatement"]> o))
| rewrite_body (o : gmap string value) (body : value) :
    rewrite (CObj o) (CObj (<["body" := body]> o))
| rewrite_while (o : gmap string value) :
    rewrite (CObj o) (CObj (<["type" := VStr "WhileStatement"]> o))
| rewrite_push (a : list value) (x : value) :
    rewrite (CArr a) (CArr (a ++ [x])).

(** From [s] to [s']: calls were added to the buffer, none was taken
    back, and every object of [s] is still there, changed by the writes
    above at most. *)
Definition evolves (s s' : state) : Prop :=
  (exists calls, buffer s' = buffer s ++ calls)
  /\ (forall l c, heap s !! l = Some c ->
        exists c', heap s' !! l = Some c' /\ rtc rewrite c c').

(** A computation whose final state, when it has one, evolves from the
    state it was started in. *)
Definition respects {A} (m : M A) : Prop :=
  forall s, match m s with
            | Ok _ s' | Throw _ s' => evolves s s'
            | Beyond _ => True
            end.

(** A computation that reads only. *)
Definition reads {A} (m : M A) : Prop :=
  forall s, match m s with
            | Ok _ s' | Throw _ s' => s' = s
            | Beyond _ => True
            end.

(** The claim that only consequents are written to: an object is as it
    was, or it has become a block with a body. *)
Definition wrapped (c c' : cell) : Prop :=
  exists o body,
    c = CObj o
    /\ c' = CObj (<["body" := body]> (<["type" := VStr "BlockStatement"]> o)).

Definition onlyWrapped (h h' : list cell) : Prop :=
  forall l c, h !! l = Some c ->
    h' !! l = Some c \/ exists c', h' !! l = Some c' /\ wrapped c c'.

(** *** The writes of a translation, one at a time

    The tag of an object reads [name]; the object was retagged by a
    write of the translation. *)
Definition tagIs (name : string) (o : gmap string value) : Prop :=
  exists ty, o !! "type" = Some ty /\ forall s, toString ty s = Ok name s.

Definition retagged (o : gmap string value) : Prop :=
  o !! "type" = Some (VStr "BlockStatement")
  \/ o !! "type" = Some (VStr "WhileStatement").

(** One change of the store during a translation that was started with
    [n] objects.  An object or an array is created.  The consequent [c]
    of an if statement [l] that is not a block is tagged
    [BlockStatement]; it is then given for [body] a new array [b] that
    holds one new object [t].  A for statement [l] is tagged
    [WhileStatement]; the [update] of such a node is then appended to
    the statement list [a] of its body.  The statement may have been
    retagged by an earlier write of the same translation. *)
Inductive write (n : nat) (h : list cell) : list cell -> Prop :=
| write_new (c : cell) :
    write n h (h ++ [c])
| write_block (l c : nat) (o co : gmap string value) :
    h !! l = Some (CObj o) -> tagIs "IfStatement" o \/ retagged o ->
    o !! "consequent" = Some (VRef c) ->
    h !! c = Some (CObj co) -> co !! "type" <> Some (VStr "BlockStatement") ->
    write n h (<[c := CObj (<["type" := VStr "BlockStatement"]> co)]> h)
| write_body (l c b t : nat) (o co : gmap string value) :
    h !! l = Some (CObj o) -> tagIs "IfStatement" o \/ retagged o ->
    o !! "consequent" = Some (VRef c) ->
    h !! c = Some (CObj co) -> co !! "type" = Some (VStr "BlockStatement") ->
    n <= t -> n <= b -> h !! b = Some (CArr [VRef t]) ->
    write n h (<[c := CObj (<["body" := VRef b]> co)]> h)
| write_while (l : nat) (o : gmap string value) :
    h !! l = Some (CObj o) -> tagIs "ForStatement" o \/ retagged o ->
    write n h (<[l := CObj (<["type" := VStr "WhileStatement"]> o)]> h)
| write_update (l block a : nat) (o bo : gmap string value) (stmts : list value) :
    h !! l = Some (CObj o) -> o !! "type" = Some (VStr "WhileStatement") ->
    o !! "body" = Some (VRef block) -> h !! block = Some (CObj bo) ->
    bo !! "body" = Some (VRef a) -> h !! a = Some (CArr stmts) ->
    write n h (<[a := CArr (stmts ++ [default VUndef (o !! "update")])]> h).

(** A computation whose final store, when it has one, is reached from
    the store it was started in by such writes. *)
Definition tracks {A} (n : nat) (m : M A) : Prop :=
  forall s, n <= length (heap s) ->
    match m s with
    | Ok _ s' | Throw _ s' => rtc (write n) (heap s) (heap s')
    | Beyond _ => True
    end.

(** [node] is an object whose tag reads [name]. *)
Definition called (name : string) (node : value) (s : state) : Prop :=
  exists l, node = VRef l
    /\ exists o, heap s !! l = Some (CObj o) /\ tagIs name o.

(** The node [l] is a statement of the kind [name], or was one before
    the translation retagged it. *)
Definition stmt (name : string) (h : list cell) (l : nat) : Prop :=
  exists o, h !! l = Some (CObj o) /\ (tagIs name o \/ retagged o).

(** The object at [l] has [x] for property [k]. *)
Definition has (h : list cell) (l : nat) (k : string) (x : value) : Prop :=
  exists o, h !! l = Some (CObj o) /\ o !! k = Some x.

(** Property [k] of the object at [l], and the elements of the array at
    [l]. *)
Definition field (h : list cell) (l : nat) (k : string) : option value :=
  match h !! l with
  | Some (CObj o) => o !! k
  | _ => None
  end.

Definition elements (h : list cell) (l : nat) : option (list value) :=
  match h !! l with
  | Some (CArr a) => Some a
  | _ => None
  end.

(** The objects that a run leaves. *)
Definition heapAfter {A} (o : outcome A) : list cell :=
  match final o with
  | Some s => heap s
  | None => []
  end.

(** Two calls of [parse] on the same translator with the same node: the
    second starts from the objects and the buffer that the first left. *)
Definition parseTwice (E : Engine) (table : list (string * string))
    (B : Buffer.Impl) (fuel : nat) (objects : list cell) (node : value)
    : option (text * text) :=
  match parse E table B fuel node (State objects []) with
  | Ok t1 s1 =>
      match parse E table B fuel node s1 with
      | Ok t2 _ => Some (t1, t2)
      | _ => None
      end
  | _ => None
  end.

(** ** A global replace as a scan from left to right *)

(** [loc s] tells whether a match starts where the text is [s], and gives
    its length and its replacement; [scan] copies the characters at which
    none starts and resumes after each match. *)
Fixpoint scan (loc : text -> option (nat * text)) (n : nat) (s : text) : text :=
  match n with
  | 0 => []
  | S n' =>
      match loc s with
      | Some (len, out) => out ++ scan loc n' (drop len s)
      | None =>
          match s with
          | [] => []
          | c :: s' => c :: scan loc n' s'
          end
      end
  end.

(** [cs] at the start of [s], letters compared as the flags say. *)
Fixpoint startsWith (f : flags) (cs s : text) : bool :=
  match cs, s with
  | [], _ => true
  | a :: cs', ch :: s' => ascii_eqb (canon f ch) (canon f a) && startsWith f cs' s'
  | _ :: _, [] => false
  end.

(** The length of the longest prefix of [s] made of characters in [p]. *)
Fixpoint runLength (p : ascii -> bool) (s : text) : nat :=
  match s with
  | ch :: s' => if p ch then S (runLength p s') else 0
  | [] => 0
  end.

(** A greedy [p*] followed by [c], from position [i] where the text is
    [s]: the longest run is tried first. *)
Fixpoint tryRun (p : ascii -> bool) (c : cont) (caps : list (option (nat * nat)))
    (i : nat) (s : text) : option mstate :=
  match s with
  | ch :: s' =>
      if p ch then
        match tryRun p c caps (S i) s' with
        | Some z => Some z
        | None => c (MState i caps)
        end
      else c (MState i caps)
  | [] => c (MState i caps)
  end.

(** A word followed by [++] at the start of [s]. *)
Definition locIncrement (s : text) : option (nat * text) :=
  let n := runLength isWord s in
  if (0 <? n) && startsWith gmi (chars "++") (drop n s)
  then Some (n + 2, take n s ++ chars " += 1")
  else None.

(** The characters that [.] matches. *)
Definition inLine (ch : ascii) : bool := negb (lineTerminator ch).

(** [puts(], any case, then a line that ends with [)] and a newline. *)
Definition locPuts (s : text) : option (nat * text) :=
  if startsWith gmi (chars "puts(") s then
    let t := drop 5 s in
    let n := runLength inLine t in
    if (2 <=? n) && startsWith gmi [")"%char; nl] (drop (n - 1) t)
    then Some (5 + n + 1,
               chars "puts("
               ++ join (chars " + ")
                    (map stringify (split (chars " + ") (take (n - 1) t)))
               ++ chars ")" ++ [nl])
    else None
  else None.

(** What the callback of the print rewrite returns for a match. *)
Definition putsReplacement (input : text) (res : result) : text :=
  fst (putsArguments tt (matched input res)
         (map (capture input res) (seq 1 (length (groups res) - 1)))).

(** [w] occurs in [t]. *)
Definition within (w t : text) : Prop := exists a b, t = a ++ w ++ b.

(** The characters of [x += 1]. *)
Definition assignChar (c : ascii) : bool :=
  isWord c || existsb (ascii_eqb c) (chars " +=").

(** Characters other than [p] and [P], at which no print call starts. *)
Definition notP (c : ascii) : bool :=
  negb (ascii_eqb (canon gmi c) (canon gmi "p")).

(** Characters of an argument that holds no separator. *)
Definition plain (c : ascii) : bool := inLine c && negb (ascii_eqb " " c).

(** The text is empty or ends with a newline. *)
Definition wholeLines (s : text) : Prop := s = [] \/ exists t, s = t ++ [nl].

(** A string literal in double quotes. *)
Definition quoted (s : string) : text := [dquote] ++ chars s ++ [dquote].

(** ** Notions for the further properties *)

(** [cs] occurs somewhere in [s], letters compared as the flags say. *)
Fixpoint occurs (f : flags) (cs s : text) : bool :=
  startsWith f cs s
  || match s with
     | [] => false
     | _ :: s' => occurs f cs s'
     end.

(** [v.type] is undefined in the store [h]: [v] is null, undefined, a
    primitive, an array, or an object that has no [type]. *)
Definition untagged (h : list cell) (v : value) : Prop :=
  match v with
  | VUndef | VNull | VBool _ | VNum _ | VDec _ | VStr _ => True
  | VRef l =>
      match h !! l with
      | Some (CObj o) => o !! "type" = None
      | Some (CArr _) => True
      | None => False
      end
  end.

(** The level of indentation after one call, from level [n]: [None]
    when the call dedents below the margin. *)
Definition level (n : nat) (c : call) : option nat :=
  match c with
  | Indent => Some (S n)
  | Dedent => match n with 0 => None | S n' => Some n' end
  | _ => Some n
  end.

(** The level after the calls [calls], from level [n]. *)
Fixpoint depth (n : nat) (calls : list call) : option nat :=
  match calls with
  | [] => Some n
  | c :: calls' =>
      match level n c with
      | Some n' => depth n' calls'
      | None => None
      end
  end.

(** A computation that, when it returns, has added calls to the buffer
    that bring every level of indentation back to itself without going
    below it. *)
Definition balanced {A} (m : M A) : Prop :=
  forall s, match m s with
            | Ok _ s' =>
                exists calls, buffer s' = buffer s ++ calls
                              /\ forall n, depth n calls = Some n
            | _ => True
            end.

(** A computation that, when it returns, has left the buffer alone. *)
Definition quiet {A} (m : M A) : Prop :=
  forall s, match m s with
            | Ok _ s' => buffer s' = buffer s
            | _ => True
            end.

(** The last position, within the run of characters in [p] at the start
    of [s] or just after it, at which the character is in [q]: where a
    greedy [p*] followed by a character in [q] ends. *)
Fixpoint lastWhere (p q : ascii -> bool) (s : text) : option nat :=
  match s with
  | ch :: s' =>
      if p ch then
        match lastWhere p q s' with
        | Some k => Some (S k)
        | None => if q ch then Some 0 else None
        end
      else if q ch then Some 0 else None
  | [] => None
  end.

(** The character [)]. *)
Definition isClose (c : ascii) : bool := ascii_eqb c ")".

(** [Math], one character, [floor(], and then the line up to its last
    [)]. *)
Definition locFloor (s : text) : option (nat * text) :=
  if startsWith gm (chars "Math") s
     && match drop 4 s with ch :: _ => inLine ch | [] => false end
     && startsWith gm (chars "floor(") (drop 5 s)
  then
    match drop 11 s with
    | ch :: s' =>
        if inLine ch then
          match lastWhere inLine isClose s' with
          | Some k =>
              Some (11 + S k + 1,
                    chars "(" ++ take (S k) (drop 11 s) ++ chars ").floor")
          | None => None
          end
        else None
    | [] => None
    end
  else None.

(** Characters other than [M], at which no floor call starts. *)
Definition notM (c : ascii) : bool := negb (ascii_eqb c "M").

(** Characters of a line other than [)]. *)
Definition openChar (c : ascii) : bool := inLine c && negb (isClose c).

(** The node at [l] and the array at [a] are in the store [h]. *)
Definition holds (l : nat) (o : gmap string value) (a : nat) (elems : list value)
    (h : list cell) : Prop :=
  h !! l = Some (CObj o) /\ h !! a = Some (CArr elems).

(** The values [vs] are translated one after the other by [rp], each
    after the calls [sep], from the store [h] to the store [h'], with
    [inv] true of every store on the way. *)
Inductive eachProduces (rp : value -> M text) (inv : list cell -> Prop)
    (sep : list call) : list value -> list cell -> list call -> list cell -> Prop :=
| each_nil (h : list cell) :
    inv h -> eachProduces rp inv sep [] h [] h
| each_cons (v : value) (vs : list value) (h h1 h2 : list cell)
    (calls rest : list call) :
    inv h ->
    produces (rp v) h calls h1 ->
    eachProduces rp inv sep vs h1 rest h2 ->
    eachProduces rp inv sep (v :: vs) h (sep ++ calls ++ rest) h2.

(** The same with [sep] between the values and not before the first. *)
Inductive listProduces (rp : value -> M text) (inv : list cell -> Prop)
    (sep : list call) : list value -> list cell -> list call -> list cell -> Prop :=
| list_nil (h : list cell) :
    inv h -> listProduces rp inv sep [] h [] h
| list_cons (v : value) (vs : list value) (h h1 h2 : list cell)
    (calls rest : list call) :
    inv h ->
    produces (rp v) h calls h1 ->
    eachProduces rp inv sep vs h1 rest h2 ->
    listProduces rp inv sep (v :: vs) h (calls ++ rest) h2.

(** *** Sample nodes *)

(** The properties of an object, from a list. *)
Definition props (fields : list (string * value)) : gmap string value :=
  list_to_map fields.

(** [f(a, b)] *)
Definition callOfTwo : list cell :=
  [obj [("type", VStr "CallExpression"); ("callee", VRef 1); ("arguments", VRef 2)];
   ident "f"; CArr [VRef 3; VRef 4]; ident "a"; ident "b"].

(** [[a, b]] *)
Definition arrayOfTwo : list cell :=
  [obj [("type", VStr "ArrayExpression"); ("elements", VRef 1)];
   CArr [VRef 2; VRef 3]; ident "a"; ident "b"].

(** A block, a declaration and a program whose two elements are the
    identifiers [a] and [b]. *)
Definition pairOf (tag key : string) : list cell :=
  [obj [("type", VStr tag); (key, VRef 1)];
   CArr [VRef 2; VRef 3]; ident "a"; ident "b"].

(** [function f(a, b)] with the identifier [c] for body. *)
Definition functionOfTwo : list cell :=
  [obj [("type", VStr "FunctionDeclaration"); ("id", VRef 1); ("params", VRef 2);
        ("body", VRef 5)];
   ident "f"; CArr [VRef 3; VRef 4]; ident "a"; ident "b"; ident "c"].

(** [if (c) {} else x], the block being empty. *)
Definition ifElse : list cell :=
  [obj [("type", VStr "IfStatement"); ("test", VRef 1); ("consequent", VRef 2);
        ("alternate", VRef 4)];
   ident "c";
   obj [("type", VStr "BlockStatement"); ("body", VRef 3)];
   CArr [];
   ident "x"].

(** [++i] *)
Definition preIncrement : list cell :=
  [obj [("type", VStr "UpdateExpression"); ("operator", VStr "++");
        ("prefix", VBool true); ("argument", VRef 1)];
   ident "i"].

(** [(a || b) && c] *)
Definition conjunction : list cell :=
  [obj [("type", VStr "LogicalExpression"); ("left", VRef 1);
        ("operator", VStr "&&"); ("right", VRef 4)];
   obj [("type", VStr "LogicalExpression"); ("left", VRef 2);
        ("operator", VStr "||"); ("right", VRef 3)];
   ident "a"; ident "b"; ident "c"].

(** [a[0]] *)
Definition firstOfA : list cell :=
  [obj [("type", VStr "MemberExpression"); ("object", VRef 1); ("property", VRef 2);
        ("computed", VBool true)];
   ident "a";
   obj [("type", VStr "NumericLiteral"); ("extra", VRef 3)];
   obj [("rawValue", VNum 0); ("raw", VStr "0")]].

(** [x] declared without an initializer. *)
Definition declaratorBare : list cell :=
  [obj [("type", VStr "VariableDeclarator"); ("id", VRef 1); ("init", VNull)];
   ident "x"].

(** [for (i; c; u) {}] *)
Definition forEmpty : list cell :=
  [obj [("type", VStr "ForStatement"); ("init", VRef 1); ("test", VRef 2);
        ("update", VRef 3); ("body", VRef 4)];
   ident "i"; ident "c"; ident "u";
   obj [("type", VStr "BlockStatement"); ("body", VRef 5)];
   CArr []].

(** The same after its translation: a [while] loop that ends with [u]. *)
Definition whileOfFor : list cell :=
  [obj [("type", VStr "WhileStatement"); ("init", VRef 1); ("test", VRef 2);
        ("update", VRef 3); ("body", VRef 4)];
   ident "i"; ident "c"; ident "u";
   obj [("type", VStr "BlockStatement"); ("body", VRef 5)];
   CArr [VRef 3]].

(** * Properties *)

(** ** The consequent of an [if] *)

(** [Object.assign] copies the [type] of its source as well: an object
    that has a [type] of its own keeps it when it is copied over
    [{type: 'ReturnStatement'}]. *)
Lemma assign_overwrites_type (o : gmap string value) (v : value) :
  is_Some (o !! "type") ->
  o ∪ ({[ "type" := v ]} : gmap string value) = o.
Proof.
  intros [t Ht]. apply map_eq. intros k.
  rewrite lookup_union.
  destruct (decide (k = "type")) as [->|Hne].
  - rewrite Ht. rewrite lookup_singleton_eq. reflexivity.
  - rewrite lookup_singleton_ne by congruence.
    destruct (o !! k); reflexivity.
Qed.

(** The node made for a consequent that is not a block is a copy of the
    consequent, with the tag of the consequent. *)
Lemma temp_node_is_a_copy (h : list cell) (b : list call) (l : nat)
    (o : gmap string value) :
  h !! l = Some (CObj o) ->
  is_Some (o !! "type") ->
  (tempNode ← alloc (CObj {[ "type" := VStr "ReturnStatement" ]});
   objectAssign tempNode (VRef l);; ret tempNode) (State h b)
  = Ok (VRef (length h)) (State (h ++ [CObj o]) b).
Proof.
  intros Hl Ht.
  unfold mbind, M_bind, bind, alloc, objectAssign, ownProps, copyInto, ret; simpl.
  unfold mbind, M_bind, bind; simpl.
  rewrite lookup_app_l by (eapply lookup_lt_Some; eauto).
  rewrite Hl. cbn [heap buffer].
  rewrite list_lookup_middle by reflexivity.
  rewrite assign_overwrites_type by assumption.
  f_equal. f_equal.
  replace (length h) with (length h + 0) at 1 by lia.
  rewrite insert_app_r. reflexivity.
Qed.

(** C1. [if (c) x;] is translated as [if (c) { x; }]: the block made for
    the consequent holds the statement itself, and no [return] is
    emitted; the explicitly blocked [if (c) { return x; }] gives another
    text. *)
Theorem if_consequent_is_not_returned :
  output (run E B fresh 20 ifBare (VRef 0))
  = Some (chars "if c
  x
end
")
  /\ output (run E B fresh 20 ifBlock (VRef 0))
     = output (run E B fresh 20 ifBare (VRef 0))
  /\ output (run E B fresh 20 ifReturn (VRef 0))
     = Some (chars "if c
  return x
end
")
  /\ (buffer <$> final (run E B fresh 20 ifBare (VRef 0)))
     = Some [Add (VStr "if "); Add (VStr "c"); Indent; Newline; Add (VStr "x");
             Newline; Trim; Dedent; Newline; Add (VStr "end"); Newline].
Proof. repeat split; vm_compute; reflexivity. Qed.

(** ** Loops *)

(** A [for] statement with a block for body is translated as its
    initializer followed by a [while] loop. *)
Lemma for_block_is_desugared :
  output (run E B fresh 20 forBlock (VRef 0))
  = Some (chars "i = 0
while (i < n)
  f(i)
  i += 1
end
").
Proof. vm_compute. reflexivity. Qed.

(** C4. [for (let i = 0; i < n; i++) f(i);]: the body is not a block and
    has no statement list to which the update could be appended.  The
    translation stops with a TypeError once the initializer has been
    emitted, and no loop is produced. *)
Theorem for_without_block_throws :
  thrown (run E B fresh 20 forBare (VRef 0)) = Some TypeError
  /\ (buffer <$> final (run E B fresh 20 forBare (VRef 0)))
     = Some [Add (VStr "i"); Add (VStr " = "); Add (VNum 0); Newline].
Proof. split; vm_compute; reflexivity. Qed.

(** ** Errors *)

Lemma invalid_entry_fails (E : Engine) (table : list (string * string))
    (key value : string) (code : text) :
  In (key, value) table ->
  construct E key "gmi" = None ->
  applyCorrections E table code = inl SyntaxError.
Proof.
  intros Hin Hbad. revert code.
  induction table as [|[k v] table IH]; intros code; [destruct Hin|].
  simpl. destruct Hin as [Heq|Hin].
  - inversion Heq; subst. rewrite Hbad. reflexivity.
  - destruct (construct E k "gmi"); [|reflexivity]. apply IH, Hin.
Qed.

(** C5. A table with a pattern that is not a regular expression does not
    make the construction of the translator fail.  The pattern is
    compiled when [correct] reaches it: every call of [correct] raises
    the SyntaxError of the regular expression engine, and so does every
    call of [parse], after the nodes have been visited. *)
Theorem invalid_pattern_fails_during_translation (E : Engine) (B : Buffer.Impl)
    (table : list (string * string)) (key value : string) :
  In (key, value) table ->
  construct E key "gmi" = None ->
  constructor table = inr (Translator [] table)
  /\ (forall code, correct E table code = inl SyntaxError)
  /\ (forall fuel node s s',
        dispatch B fuel node s = Ok tt s' ->
        parse E table B fuel node s = Throw SyntaxError s').
Proof.
  intros Hin Hbad. split; [reflexivity|].
  assert (Hc : forall code, correct E table code = inl SyntaxError).
  { intros code. unfold correct.
    rewrite (invalid_entry_fails E table key value code Hin Hbad). reflexivity. }
  split; [exact Hc|].
  intros fuel node s s' Hd.
  unfold parse, recursiveParse, mbind, M_bind, bind. rewrite Hd. simpl.
  rewrite Hc. reflexivity.
Qed.

Lemma invalid_pattern_fails_during_translation_witness :
  In ("(", "x") badTable
  /\ construct E "(" "gmi" = None
  /\ constructor badTable = inr (Translator [] badTable)
  /\ (forall code, correct E badTable code = inl SyntaxError)
  /\ (forall fuel node s s',
        dispatch B fuel node s = Ok tt s' ->
        parse E badTable B fuel node s = Throw SyntaxError s').
Proof.
  split; [right; left; reflexivity|].
  split; [reflexivity|].
  apply (invalid_pattern_fails_during_translation E B badTable "(" "x").
  - right; left; reflexivity.
  - reflexivity.
Defined.

(** The translator is constructed from a table whose only pattern is an
    unclosed group. *)
Lemma constructor_accepts_invalid_pattern :
  In ("(", "x") badTable
  /\ construct E "(" "gmi" = None
  /\ constructor badTable = inr (Translator [] badTable).
Proof. split; [right; left; reflexivity|]. split; reflexivity. Qed.

Lemma find_no_name {A} (name : string) (l : list (string * A)) :
  name ∉ map fst l ->
  find (fun e => String.eqb e.1 name) l = None.
Proof.
  induction l as [|[k a] l IH]; intros H; [reflexivity|].
  simpl in *. destruct (String.eqb_spec k name) as [->|Hne].
  - exfalso. apply H. left.
  - apply IH. intros Hin. apply H. right. exact Hin.
Qed.

Lemma lookup_not_member (rp : value -> M text) (d : value -> M unit) (fuel : nat)
    (name : string) :
  isMember name = false -> lookup rp d fuel name = None.
Proof.
  intros H. apply bool_decide_eq_false in H.
  unfold lookup. rewrite find_no_name; [reflexivity|exact H].
Qed.

Lemma lookup_refused (rp : value -> M text) (d : value -> M unit) (fuel : nat)
    (name : string) :
  name ∈ refusedNames ->
  lookup rp d fuel name = Some NotCallable
  \/ lookup rp d fuel name = Some (Method refuse).
Proof.
  intros H. unfold refusedNames in H.
  repeat (apply elem_of_cons in H; destruct H as [-> | H];
          [first [left; reflexivity | right; reflexivity]|]).
  apply elem_of_nil in H. destruct H.
Qed.

Lemma lookup_inert (rp : value -> M text) (d : value -> M unit) (fuel : nat)
    (name : string) :
  name ∈ inertNames -> lookup rp d fuel name = Some (Method inert).
Proof.
  intros H. unfold inertNames in H.
  repeat (apply elem_of_cons in H; destruct H as [-> | H]; [reflexivity|]).
  apply elem_of_nil in H. destruct H.
Qed.

Lemma lookup_keyed (rp : value -> M text) (d : value -> M unit) (fuel : nat)
    (name : string) :
  name ∈ keyedNames -> lookup rp d fuel name = Some (Method keyed).
Proof.
  intros H. unfold keyedNames in H.
  repeat (apply elem_of_cons in H; destruct H as [-> | H]; [reflexivity|]).
  apply elem_of_nil in H. destruct H.
Qed.

(** C6. A node whose tag names no member of the translator, a member
    that is not a function ([buffer], [corrections], [__proto__]) or a
    function that refuses the call ([constructor], [__defineGetter__],
    [__defineSetter__]) is not translated: [this[node.type](node)]
    raises a TypeError, nothing is emitted, no text is returned, and
    [parse] fails in the same way before [correct] is reached.  A tag
    that names [toString], [toLocaleString], [valueOf] or
    [isPrototypeOf] is not refused: the function is called, nothing is
    emitted, and the translation goes on with the text of the buffer.
    So it is with [hasOwnProperty], [propertyIsEnumerable],
    [__lookupGetter__] and [__lookupSetter__], unless the node has a
    [toString] of its own: then the call raises a TypeError as well. *)
Theorem unsupported_tag_throws (E : Engine) (table : list (string * string))
    (B : Buffer.Impl) (fuel : nat) (s : state) (l : nat)
    (o : gmap string value) (tag : string) :
  heap s !! l = Some (CObj o) ->
  o !! "type" = Some (VStr tag) ->
  (isMember tag = false \/ tag ∈ refusedNames
   \/ (tag ∈ keyedNames /\ o !! "toString" <> None) ->
     dispatch B (S fuel) (VRef l) s = Throw TypeError s
     /\ recursiveParse B (S fuel) (VRef l) s = Throw TypeError s
     /\ parse E table B (S fuel) (VRef l) s = Throw TypeError s)
  /\ (tag ∈ inertNames \/ (tag ∈ keyedNames /\ o !! "toString" = None) ->
        dispatch B (S fuel) (VRef l) s = Ok tt s
        /\ recursiveParse B (S fuel) (VRef l) s = Ok (Buffer.render B (buffer s)) s
        /\ parse E table B (S fuel) (VRef l) s
           = match correct E table (Buffer.render B (buffer s)) with
             | inl e => Throw e s
             | inr code => Ok code s
             end).
Proof.
  intros Hl Ht.
  assert (Hk : tag ∈ keyedNames ->
               dispatch B (S fuel) (VRef l) s
               = if decide (o !! "toString" = None) then Ok tt s
                 else Throw TypeError s).
  { intros Hm. simpl. unfold invoke, mbind, M_bind, bind, getProp.
    rewrite Hl, Ht. simpl.
    rewrite (lookup_keyed _ _ _ _ Hm). unfold keyed. rewrite Hl. reflexivity. }
  split.
  - intros Hm.
    assert (Hd : dispatch B (S fuel) (VRef l) s = Throw TypeError s).
    { destruct Hm as [Hm | [Hm | [Hm Hown]]].
      - simpl. unfold invoke, mbind, M_bind, bind, getProp. rewrite Hl, Ht. simpl.
        rewrite lookup_not_member by assumption. reflexivity.
      - simpl. unfold invoke, mbind, M_bind, bind, getProp. rewrite Hl, Ht. simpl.
        match goal with
        | |- context [lookup ?rp ?d ?f tag] =>
            destruct (lookup_refused rp d f tag Hm) as [-> | ->]; reflexivity
        end.
      - rewrite (Hk Hm). destruct (decide _); [contradiction|reflexivity]. }
    split; [exact Hd|].
    assert (Hr : recursiveParse B (S fuel) (VRef l) s = Throw TypeError s).
    { unfold recursiveParse, mbind, M_bind, bind. rewrite Hd. reflexivity. }
    split; [exact Hr|].
    unfold parse, mbind, M_bind, bind. rewrite Hr. reflexivity.
  - intros Hm.
    assert (Hd : dispatch B (S fuel) (VRef l) s = Ok tt s).
    { destruct Hm as [Hm | [Hm Hown]].
      - simpl. unfold invoke, mbind, M_bind, bind, getProp. rewrite Hl, Ht. simpl.
        rewrite (lookup_inert _ _ _ _ Hm). reflexivity.
      - rewrite (Hk Hm). destruct (decide _); [reflexivity|contradiction]. }
    split; [exact Hd|].
    assert (Hr : recursiveParse B (S fuel) (VRef l) s
                 = Ok (Buffer.render B (buffer s)) s).
    { unfold recursiveParse, mbind, M_bind, bind. rewrite Hd. reflexivity. }
    split; [exact Hr|].
    unfold parse, mbind, M_bind, bind. rewrite Hr.
    destruct (correct E table _); reflexivity.
Qed.

Lemma unsupported_tag_throws_witness :
  run E B fresh 20 arrow (VRef 0) = Throw TypeError (State arrow [])
  /\ run E B fresh 20 (tagged "valueOf") (VRef 0) = Ok [] (State (tagged "valueOf") []).
Proof.
  unfold run. split.
  - apply (unsupported_tag_throws E [] B 19 (State arrow []) 0
       (list_to_map [("type", VStr "ArrowFunctionExpression");
                     ("params", VRef 1); ("body", VRef 2)])
       "ArrowFunctionExpression" eq_refl eq_refl).
    left. reflexivity.
  - apply (unsupported_tag_throws E [] B 19 (State (tagged "valueOf") []) 0
       (list_to_map [("type", VStr "valueOf")]) "valueOf" eq_refl eq_refl).
    left. right. right. left.
Defined.

(** A node tagged [toString], for which there is no visitor, is
    dispatched without an error: the translation returns the text of
    the buffer, here the empty text. *)
Lemma inherited_function_is_called :
  isMember "toString" = true
  /\ run E B fresh 20 (tagged "toString") (VRef 0)
     = Ok [] (State (tagged "toString") []).
Proof. split; vm_compute; reflexivity. Qed.

(** ** Binary expressions *)

Lemma bind_Ok {A C} (m : M A) (k : A -> M C) (s s' : state) (a : A) :
  m s = Ok a s' -> (m ≫= k) s = k a s'.
Proof. intros H. unfold mbind, M_bind, bind. rewrite H. reflexivity. Qed.

Lemma produces_recursiveParse (B : Buffer.Impl) (fuel : nat) (v : value)
    (h h' : list cell) (calls : list call) :
  produces (dispatch B fuel v) h calls h' ->
  produces (recursiveParse B fuel v) h calls h'.
Proof.
  intros H b. destruct (H b) as [[] Hb].
  eexists. unfold recursiveParse. erewrite bind_Ok by exact Hb. reflexivity.
Qed.

Lemma produces_Identifier (B : Buffer.Impl) (fuel : nat) (h : list cell) (l : nat)
    (o : gmap string value) :
  h !! l = Some (CObj o) ->
  o !! "type" = Some (VStr "Identifier") ->
  produces (dispatch B (S fuel) (VRef l)) h [Add (default VUndef (o !! "name"))] h.
Proof.
  intros Hl Ht b. exists tt.
  cbn [dispatch]. unfold invoke.
  erewrite bind_Ok by (unfold getProp; cbn [heap]; rewrite Hl, Ht; reflexivity).
  erewrite bind_Ok by reflexivity.
  change (lookup _ _ _ "Identifier") with (Some (Method TranspilerSuper.Identifier)).
  unfold TranspilerSuper.Identifier.
  erewrite bind_Ok by (unfold getProp; cbn [heap]; rewrite Hl; reflexivity).
  reflexivity.
Qed.

Lemma operand_produces (rp : value -> M text) (h h' : list cell) (l c : nat)
    (o co : gmap string value) (side tag : string) (calls : list call) :
  h !! l = Some (CObj o) ->
  o !! side = Some (VRef c) ->
  h !! c = Some (CObj co) ->
  co !! "type" = Some (VStr tag) ->
  produces (rp (VRef c)) h calls h' ->
  produces (TranspilerSuper.operand rp (VRef l) side) h
    (operandCalls (String.eqb tag "BinaryExpression") calls) h'.
Proof.
  intros Hl Hs Hc Ht Hp b.
  assert (Hget : forall b', getProp (VRef l) side (State h b') = Ok (VRef c) (State h b')).
  { intros b'. unfold getProp. cbn [heap]. rewrite Hl, Hs. reflexivity. }
  unfold TranspilerSuper.operand.
  erewrite bind_Ok by apply Hget.
  erewrite bind_Ok by (unfold getProp; cbn [heap]; rewrite Hc, Ht; reflexivity).
  erewrite bind_Ok by reflexivity.
  unfold operandCalls. destruct (String.eqb tag "BinaryExpression").
  - erewrite bind_Ok by reflexivity.
    cbn [heap buffer].
    erewrite bind_Ok by apply Hget.
    destruct (Hp (b ++ [Add (VStr "(")])) as [t Hrp].
    erewrite bind_Ok by exact Hrp.
    exists tt. unfold JS.add, emit. cbn [heap buffer].
    rewrite <- !app_assoc. reflexivity.
  - erewrite bind_Ok by apply Hget.
    destruct (Hp b) as [t Hrp].
    erewrite bind_Ok by exact Hrp.
    exists tt. reflexivity.
Qed.

(** C7. The calls made for a binary expression are those made for its
    left operand, [" "], the operator, [" "], and those made for its
    right operand; an operand is put between ["("] and [")"] exactly when
    its own tag is [BinaryExpression], and no other parenthesis is
    added. *)
Theorem binary_operands_parenthesized (B : Buffer.Impl) (fuel : nat)
    (h h1 h2 : list cell) (l ll lr : nat) (o lo ro : gmap string value)
    (ltag rtag : string) (lcalls rcalls : list call) :
  h !! l = Some (CObj o) ->
  o !! "type" = Some (VStr "BinaryExpression") ->
  o !! "left" = Some (VRef ll) ->
  o !! "right" = Some (VRef lr) ->
  h !! ll = Some (CObj lo) ->
  lo !! "type" = Some (VStr ltag) ->
  produces (recursiveParse B fuel (VRef ll)) h lcalls h1 ->
  h1 !! l = Some (CObj o) ->
  h1 !! lr = Some (CObj ro) ->
  ro !! "type" = Some (VStr rtag) ->
  produces (recursiveParse B fuel (VRef lr)) h1 rcalls h2 ->
  produces (dispatch B (S fuel) (VRef l)) h
    (operandCalls (String.eqb ltag "BinaryExpression") lcalls
     ++ [Add (VStr " "); Add (default VUndef (o !! "operator")); Add (VStr " ")]
     ++ operandCalls (String.eqb rtag "BinaryExpression") rcalls)
    h2.
Proof.
  intros Hl Ht Hleft Hright Hll Hlt Hpl Hl1 Hlr Hrt Hpr b.
  cbn [dispatch]. unfold invoke.
  erewrite bind_Ok by (unfold getProp; cbn [heap]; rewrite Hl, Ht; reflexivity).
  erewrite bind_Ok by reflexivity.
  change (lookup _ _ _ "BinaryExpression")
    with (Some (Method (TranspilerSuper.BinaryExpression
                          (fun node => dispatch B fuel node;; get B)))).
  cbv beta iota. unfold TranspilerSuper.BinaryExpression.
  destruct (operand_produces _ h h1 l ll o lo "left" ltag lcalls
              Hl Hleft Hll Hlt Hpl b) as [[] H1].
  erewrite bind_Ok by exact H1.
  erewrite bind_Ok by reflexivity.
  cbn [heap buffer].
  erewrite bind_Ok by (unfold getProp; cbn [heap]; rewrite Hl1; reflexivity).
  erewrite bind_Ok by reflexivity.
  cbn [heap buffer].
  erewrite bind_Ok by reflexivity.
  cbn [heap buffer].
  destruct (operand_produces _ h1 h2 l lr o ro "right" rtag rcalls
              Hl1 Hright Hlr Hrt Hpr
              ((((b ++ operandCalls (String.eqb ltag "BinaryExpression") lcalls)
                 ++ [Add (VStr " ")]) ++ [Add (default VUndef (o !! "operator"))])
               ++ [Add (VStr " ")])) as [[] H2].
  exists tt. etransitivity; [exact H2|].
  rewrite <- !app_assoc. reflexivity.
Qed.

(** [(a + b) * c]: the sum is put in parentheses, [c] is not. *)
Lemma binary_operands_parenthesized_witness :
  produces (dispatch B 3 (VRef 0)) product
    [Add (VStr "("); Add (VStr "a"); Add (VStr " "); Add (VStr "+"); Add (VStr " ");
     Add (VStr "b"); Add (VStr ")"); Add (VStr " "); Add (VStr "*"); Add (VStr " ");
     Add (VStr "c")]
    product.
Proof.
  pose (node name := list_to_map [("type", VStr "Identifier"); ("name", VStr name)]
                     : gmap string value).
  pose (sum := list_to_map [("type", VStr "BinaryExpression"); ("left", VRef 2);
                            ("operator", VStr "+"); ("right", VRef 3)]
               : gmap string value).
  assert (Hsum : produces (recursiveParse B 2 (VRef 1)) product
                   [Add (VStr "a"); Add (VStr " "); Add (VStr "+"); Add (VStr " ");
                    Add (VStr "b")] product).
  { apply produces_recursiveParse.
    refine (binary_operands_parenthesized B 1 product product product 1 2 3
              sum (node "a") (node "b") "Identifier" "Identifier"
              [Add (VStr "a")] [Add (VStr "b")]
              eq_refl eq_refl eq_refl eq_refl eq_refl eq_refl _
              eq_refl eq_refl eq_refl _).
    - apply produces_recursiveParse.
      apply (produces_Identifier B 0 product 2 (node "a")); reflexivity.
    - apply produces_recursiveParse.
      apply (produces_Identifier B 0 product 3 (node "b")); reflexivity. }
  refine (binary_operands_parenthesized B 2 product product product 0 1 4
            (list_to_map [("type", VStr "BinaryExpression"); ("left", VRef 1);
                          ("operator", VStr "*"); ("right", VRef 4)])
            sum (node "c") "BinaryExpression" "Identifier" _ [Add (VStr "c")]
            eq_refl eq_refl eq_refl eq_refl eq_refl eq_refl Hsum
            eq_refl eq_refl eq_refl _).
  apply produces_recursiveParse.
  apply (produces_Identifier B 1 product 4 (node "c")); reflexivity.
Defined.

(** ** What a translation does to the caller's nodes and to the buffer *)

Lemma evolves_refl (s : state) : evolves s s.
Proof.
  split.
  - exists []. rewrite app_nil_r. reflexivity.
  - intros l c H. exists c. split; [exact H|constructor].
Qed.

Lemma evolves_trans (s1 s2 s3 : state) :
  evolves s1 s2 -> evolves s2 s3 -> evolves s1 s3.
Proof.
  intros [[c1 Hb1] Hh1] [[c2 Hb2] Hh2]. split.
  - exists (c1 ++ c2). rewrite Hb2, Hb1, app_assoc. reflexivity.
  - intros l c H. destruct (Hh1 l c H) as (c' & H' & R1).
    destruct (Hh2 l c' H') as (c'' & H'' & R2).
    exists c''. split; [exact H''|]. etrans; eassumption.
Qed.

Lemma reads_respects {A} (m : M A) : reads m -> respects m.
Proof.
  intros H s. specialize (H s). destruct (m s); try exact I; subst; apply evolves_refl.
Qed.

Lemma respects_ret {A} (a : A) : respects (mret a).
Proof. intros s. apply evolves_refl. Qed.

Lemma respects_throw {A} (e : exn) : respects (@throw A e).
Proof. intros s. apply evolves_refl. Qed.

Lemma respects_beyond {A} (w : limit) : respects (@beyond A w).
Proof. intros s. exact I. Qed.

Lemma respects_bind {A C} (m : M A) (k : A -> M C) :
  respects m -> (forall a, respects (k a)) -> respects (m ≫= k).
Proof.
  intros Hm Hk s. unfold mbind, M_bind, bind.
  specialize (Hm s). destruct (m s) as [a s'| |]; try exact Hm.
  specialize (Hk a s'). destruct (k a s'); try exact I;
    eapply evolves_trans; eassumption.
Qed.

Lemma reads_getProp (v : value) (k : string) : reads (getProp v k).
Proof.
  intros s. unfold getProp. destruct v; try reflexivity.
  - destruct (decide (k = "length")); reflexivity.
  - destruct (heap s !! l) as [[o|a]|]; try reflexivity.
    destruct (decide (k = "length")); reflexivity.
Qed.

Lemma reads_getIndex (v : value) (i : nat) : reads (getIndex v i).
Proof.
  intros s. unfold getIndex. destruct v; try reflexivity.
  - destruct (String.get i s0); reflexivity.
  - destruct (heap s !! l) as [[o|a]|]; reflexivity.
Qed.

Lemma reads_toString (v : value) : reads (toString v).
Proof.
  intros s. destruct v as [| |[]|n| | |]; try reflexivity.
  cbn. unfold digits. destruct (_ <? _)%Z; reflexivity.
Qed.

Lemma reads_looseEqStr (v : value) (str : string) : reads (looseEqStr v str).
Proof. intros s. destruct v; reflexivity. Qed.

Lemma reads_ltNat (i : nat) (v : value) : reads (ltNat i v).
Proof. intros s. destruct v; reflexivity. Qed.

Lemma reads_looseEqNat (v : value) (i : nat) : reads (looseEqNat v i).
Proof. intros s. destruct v; reflexivity. Qed.

Lemma reads_gtZero (v : value) : reads (gtZero v).
Proof. intros s. destruct v; reflexivity. Qed.

Lemma reads_jsonStringify (v : value) : reads (jsonStringify v).
Proof.
  intros s. destruct v as [| |[]|n| | |]; try reflexivity.
  cbn. unfold mbind, M_bind, bind, digits. destruct (_ <? _)%Z; reflexivity.
Qed.

Lemma reads_keyed (node : value) : reads (keyed node).
Proof.
  intros s. unfold keyed. destruct node as [| | | | | |l]; try reflexivity.
  destruct (heap s !! l) as [[o|a]|]; try reflexivity.
  destruct (decide _); reflexivity.
Qed.

Lemma reads_get (B : Buffer.Impl) : reads (get B).
Proof. intros s. reflexivity. Qed.

Lemma respects_emit (c : call) : respects (emit c).
Proof.
  intros s. split.
  - exists [c]. reflexivity.
  - intros l c0 H. exists c0. split; [exact H|constructor].
Qed.

Lemma evolves_insert (h : list cell) (b : list call) (l : nat) (c c' : cell) :
  h !! l = Some c -> rewrite c c' ->
  evolves (State h b) (State (<[l := c']> h) b).
Proof.
  intros Hl Hr. split.
  - exists []. rewrite app_nil_r. reflexivity.
  - intros l0 c0 H. cbn [heap] in *.
    destruct (decide (l0 = l)) as [->|Hne].
    + exists c'. rewrite list_lookup_insert_eq by (eapply lookup_lt_Some; eauto).
      split; [reflexivity|]. rewrite Hl in H. inversion H; subst.
      apply rtc_once. exact Hr.
    + exists c0. rewrite list_lookup_insert_ne by congruence.
      split; [exact H|constructor].
Qed.

Lemma respects_push (v x : value) : respects (push v x).
Proof.
  intros [h b]. unfold push. cbn [heap buffer].
  destruct v; try apply evolves_refl.
  destruct (h !! l) as [[o|a]|] eqn:Hl; try exact I; try apply evolves_refl.
  eapply evolves_insert; [exact Hl|constructor].
Qed.

Lemma respects_setProp (v x : value) (k : string) :
  (k = "type" /\ (x = VStr "BlockStatement" \/ x = VStr "WhileStatement"))
  \/ k = "body" ->
  respects (setProp v k x).
Proof.
  intros Hk [h b]. unfold setProp. cbn [heap buffer].
  destruct v; try apply evolves_refl.
  destruct (h !! l) as [[o|a]|] eqn:Hl; try exact I.
  eapply evolves_insert; [exact Hl|].
  destruct Hk as [[-> [->| ->]]| ->]; constructor.
Qed.

Lemma evolves_grow (h : list cell) (b : list call) (cs : list cell) :
  evolves (State h b) (State (h ++ cs) b).
Proof.
  split.
  - exists []. rewrite app_nil_r. reflexivity.
  - intros l c H. cbn [heap] in *. exists c.
    rewrite lookup_app_l by (eapply lookup_lt_Some; eauto).
    split; [exact H|constructor].
Qed.

Lemma respects_alloc (c : cell) : respects (alloc c).
Proof. intros [h b]. apply evolves_grow. Qed.

(** [Object.assign] writes to the object that was just made. *)
Lemma respects_alloc_assign {A} (c : cell) (node : value) (rest : value -> M A) :
  (forall t, respects (rest t)) ->
  respects (t ← alloc c; src ← getProp node "consequent";
            objectAssign t src;; rest t).
Proof.
  intros Hrest [h b]. unfold mbind, M_bind, bind, alloc. cbn [heap buffer].
  pose proof (reads_getProp node "consequent" (State (h ++ [c]) b)) as Hg.
  destruct (getProp node "consequent" _) as [src s1|e s1|w];
    try exact I; subst; [|apply evolves_grow].
  unfold objectAssign, mbind, M_bind, bind, ownProps, copyInto.
  assert (Hn : forall (m : gmap string value),
             match
               match (h ++ [c]) !! length h with
               | Some (CObj o) =>
                   Ok tt (State (<[length h := CObj (m ∪ o)]> (h ++ [c])) b)
               | _ => Beyond OutsideModel
               end
             with
             | Ok _ s' => rest (VRef (length h)) s'
             | Throw e s' => Throw e s'
             | Beyond w => Beyond w
             end = match c with
                   | CObj o => rest (VRef (length h)) (State (h ++ [CObj (m ∪ o)]) b)
                   | CArr _ => Beyond OutsideModel
                   end).
  { intros m. rewrite list_lookup_middle by reflexivity.
    destruct c as [o|a]; [|reflexivity].
    replace (length h) with (length h + 0) at 2 by lia.
    rewrite insert_app_r. reflexivity. }
  assert (Hr : forall m,
             match match c with
                   | CObj o => rest (VRef (length h)) (State (h ++ [CObj (m ∪ o)]) b)
                   | CArr _ => Beyond OutsideModel
                   end with
             | Ok _ s' | Throw _ s' => evolves (State h b) s'
             | Beyond _ => True
             end).
  { intros m. destruct c as [o|a]; [|exact I].
    specialize (Hrest (VRef (length h)) (State (h ++ [CObj (m ∪ o)]) b)).
    destruct (rest _ _); try exact I;
      (eapply evolves_trans; [apply evolves_grow|exact Hrest]). }
  cbn [heap buffer].
  destruct src; cbn [heap buffer]; try (rewrite Hn; apply Hr).
  destruct ((h ++ [c]) !! l) as [[o|a]|]; try exact I; rewrite Hn; apply Hr.
Qed.

Lemma respects_forLoop (fuel : nat) (cond : nat -> M bool) (body : nat -> M unit)
    (i : nat) :
  (forall j, respects (cond j)) -> (forall j, respects (body j)) ->
  respects (forLoop fuel cond body i).
Proof.
  intros Hc Hb. revert i. induction fuel as [|fuel IH]; intros i.
  - apply respects_beyond.
  - cbn [forLoop]. apply respects_bind; [apply Hc|].
    intros [|]; [|apply respects_ret].
    apply respects_bind; [apply Hb|]. intros _. apply IH.
Qed.

Create HintDb respects.

#[local] Hint Resolve respects_ret respects_throw respects_beyond respects_emit
  respects_alloc respects_push : respects.
#[local] Hint Extern 1 (respects (getProp _ _)) =>
  apply reads_respects, reads_getProp : respects.
#[local] Hint Extern 1 (respects (getIndex _ _)) =>
  apply reads_respects, reads_getIndex : respects.
#[local] Hint Extern 1 (respects (toString _)) =>
  apply reads_respects, reads_toString : respects.
#[local] Hint Extern 1 (respects (keyed _)) =>
  apply reads_respects, reads_keyed : respects.
#[local] Hint Extern 1 (respects (looseEqStr _ _)) =>
  apply reads_respects, reads_looseEqStr : respects.
#[local] Hint Extern 1 (respects (ltNat _ _)) =>
  apply reads_respects, reads_ltNat : respects.
#[local] Hint Extern 1 (respects (looseEqNat _ _)) =>
  apply reads_respects, reads_looseEqNat : respects.
#[local] Hint Extern 1 (respects (gtZero _)) =>
  apply reads_respects, reads_gtZero : respects.
#[local] Hint Extern 1 (respects (jsonStringify _)) =>
  apply reads_respects, reads_jsonStringify : respects.
#[local] Hint Extern 1 (respects (JS.add _)) => apply respects_emit : respects.
#[local] Hint Extern 1 (respects (setProp _ _ _)) =>
  apply respects_setProp; auto : respects.

(** Goes through a method one statement at a time. *)
Ltac step_respects :=
  match goal with
  | |- respects (alloc _ ≫= _) => apply respects_alloc_assign; intros ?
  | |- respects (_ ≫= _) => apply respects_bind; [|intros ?]
  | |- respects (forLoop _ _ _ _) => apply respects_forLoop; intros ?
  | |- respects (if ?b then _ else _) => destruct b
  | |- respects _ => solve [auto with respects]
  end.

Section Respects.

Variable recursiveParse : value -> M text.
Variable dispatch : value -> M unit.
Variable fuel : nat.
Hypothesis respects_recursiveParse : forall v, respects (recursiveParse v).
Hypothesis respects_dispatch : forall v, respects (dispatch v).

Lemma members_respect :
  Forall (fun e => match e.2 with
                   | Method f => forall node, respects (f node)
                   | _ => True
                   end)
    (members recursiveParse dispatch fuel).
Proof using respects_recursiveParse respects_dispatch.
  unfold members, instanceFields, rubyPrototype, superPrototype, objectPrototype.
  cbn [app].
  repeat (apply Forall_cons_2; [cbn [snd]; first [exact I | intros node]|]).
  all: try apply Forall_nil_2.
  all: unfold inert, refuse, ExpressionStatement, FunctionDeclaration, BlockStatement,
    IfStatement, VariableDeclaration, ReturnStatement, ForStatement, UpdateExpression,
    TranspilerSuper.File, TranspilerSuper.Program,
    TranspilerSuper.ExpressionStatement, TranspilerSuper.ImportDeclaration,
    TranspilerSuper.FunctionDeclaration, TranspilerSuper.AssignmentExpression,
    TranspilerSuper.BlockStatement, TranspilerSuper.VariableDeclaration,
    TranspilerSuper.VariableDeclarator, TranspilerSuper.ReturnStatement,
    TranspilerSuper.CallExpression, TranspilerSuper.MemberExpression,
    TranspilerSuper.UnaryExpression, TranspilerSuper.BinaryExpression,
    TranspilerSuper.operand, TranspilerSuper.ConditionalExpression,
    TranspilerSuper.LogicalExpression, TranspilerSuper.WhileStatement,
    TranspilerSuper.DoWhileStatement, TranspilerSuper.Identifier,
    TranspilerSuper.Literal, TranspilerSuper.NumericLiteral,
    TranspilerSuper.StringLiteral, TranspilerSuper.BooleanLiteral,
    TranspilerSuper.RegExpLiteral, TranspilerSuper.ArrayExpression.
  all: repeat step_respects.
Qed.

Lemma invoke_respects (node : value) :
  respects (invoke recursiveParse dispatch fuel node).
Proof using respects_recursiveParse respects_dispatch.
  unfold invoke. repeat step_respects. unfold lookup.
  destruct (find _ _) as [[name m]|] eqn:Hfind; cbn [fmap option_fmap option_map snd].
  - apply find_some in Hfind. destruct Hfind as [Hin _].
    pose proof members_respect as H. rewrite Forall_forall in H.
    apply list_elem_of_In in Hin.
    specialize (H _ Hin). cbn [snd] in H.
    destruct m; auto with respects.
  - auto with respects.
Qed.

End Respects.

Lemma dispatch_respects (B : Buffer.Impl) (fuel : nat) (node : value) :
  respects (dispatch B fuel node).
Proof.
  revert node. induction fuel as [|fuel IH]; intros node.
  - apply respects_beyond.
  - cbn [dispatch]. apply invoke_respects; [|exact IH].
    intros v. apply respects_bind; [apply IH|].
    intros _. apply reads_respects, reads_get.
Qed.

(** ** Global replacement as a scan of the text

    When the matches of a pattern at a position depend on the text from
    that position on only and are never empty, replacing them all is a
    scan from left to right: where the pattern matches, the replacement
    is emitted and the match skipped; elsewhere one character is
    copied. *)

Section Scan.

Variable f : flags.
Variable r : regex.
Variable rep : text -> result -> text.
Variable loc : text -> option (nat * text).

(** [loc] tells from the rest of the text whether the pattern matches
    there, how long the match is and what replaces it. *)
Hypothesis loc_spec : forall input i, i <= length input ->
  match loc (drop i input) with
  | Some (len, out) =>
      0 < len /\ i + len <= length input
      /\ exists res, matchAt f input r i = Some res
                     /\ index res = i /\ stop res = i + len
                     /\ rep input res = out
  | None => matchAt f input r i = None
  end.

Lemma scan_match (n : nat) (s : text) (len : nat) (out : text) :
  loc s = Some (len, out) ->
  scan loc (S n) s = out ++ scan loc n (drop len s).
Proof. intros H. cbn [scan]. rewrite H. reflexivity. Qed.

Lemma scan_miss (n : nat) (s : text) :
  loc s = None ->
  scan loc (S n) s = match s with
                     | [] => []
                     | c :: s' => c :: scan loc n s'
                     end.
Proof. intros H. cbn [scan]. rewrite H. reflexivity. Qed.

Lemma loc_length (s : text) (len : nat) (out : text) :
  loc s = Some (len, out) -> 0 < len <= length s.
Proof using loc_spec.
  intros H. pose proof (loc_spec s 0 ltac:(lia)) as Hs.
  rewrite drop_0, H in Hs. lia.
Qed.

Lemma scan_fuel (n m : nat) (s : text) :
  length s < n -> length s < m -> scan loc n s = scan loc m s.
Proof using loc_spec.
  revert m s. induction n as [|n IH]; intros m s Hn Hm; [lia|].
  destruct m as [|m]; [lia|].
  cbn [scan]. destruct (loc s) as [[len out]|] eqn:Hloc.
  - apply loc_length in Hloc. f_equal.
    apply IH; rewrite length_drop; lia.
  - destruct s as [|c s]; [reflexivity|]. cbn [length] in *.
    f_equal. apply IH; lia.
Qed.

Lemma scan_unfold (s : text) :
  scan loc (S (length s)) s
  = match loc s with
    | Some (len, out) => out ++ scan loc (S (length (drop len s))) (drop len s)
    | None =>
        match s with
        | [] => []
        | c :: s' => c :: scan loc (S (length s')) s'
        end
    end.
Proof using loc_spec.
  destruct (loc s) as [[len out]|] eqn:Hloc.
  - rewrite (scan_match _ _ _ _ Hloc). apply loc_length in Hloc.
    f_equal. apply scan_fuel; rewrite length_drop; lia.
  - rewrite (scan_miss _ _ Hloc). destruct s as [|c s']; reflexivity.
Qed.

Lemma search_None (input : text) (n i : nat) :
  search f input n r i = None ->
  forall j, i <= j < i + n -> matchAt f input r j = None.
Proof.
  revert i. induction n as [|n IH]; intros i H j Hj; [lia|].
  cbn [search] in H. destruct (matchAt f input r i) eqn:Hm; [discriminate|].
  destruct (decide (j = i)) as [->|Hne]; [exact Hm|].
  apply (IH (S i) H). lia.
Qed.

Lemma search_Some (input : text) (n i : nat) (res : result) :
  search f input n r i = Some res ->
  exists j, i <= j < i + n /\ matchAt f input r j = Some res
            /\ forall j', i <= j' < j -> matchAt f input r j' = None.
Proof.
  revert i. induction n as [|n IH]; intros i H; [discriminate|].
  cbn [search] in H. destruct (matchAt f input r i) eqn:Hm.
  - inversion H; subst. exists i. split; [lia|]. split; [exact Hm|]. intros; lia.
  - destruct (IH (S i) H) as (j & Hj & Hmj & Hbefore).
    exists j. split; [lia|]. split; [exact Hmj|].
    intros j' Hj'. destruct (decide (j' = i)) as [->|Hne]; [exact Hm|].
    apply Hbefore. lia.
Qed.

(** Where the pattern does not match, the scan copies. *)
Lemma scan_copy (input : text) (k j n : nat) :
  k <= j <= length input ->
  (forall j', k <= j' < j -> matchAt f input r j' = None) ->
  j - k <= n ->
  scan loc n (drop k input)
  = take (j - k) (drop k input) ++ scan loc (n - (j - k)) (drop j input).
Proof using loc_spec.
  revert k. induction n as [|n IH]; intros k Hk Hnone Hn.
  - assert (j = k) by lia. subst. rewrite Nat.sub_diag. reflexivity.
  - destruct (decide (j = k)) as [->|Hne].
    { rewrite Nat.sub_diag. reflexivity. }
    cbn [scan].
    pose proof (loc_spec input k ltac:(lia)) as Hs.
    destruct (loc (drop k input)) as [[len out]|].
    + destruct Hs as (_ & _ & res & Hm & _). rewrite Hnone in Hm by lia. discriminate.
    + destruct (drop k input) as [|c s'] eqn:Hd.
      { apply (f_equal length) in Hd. rewrite length_drop in Hd. cbn in Hd. lia. }
      assert (Hs' : s' = drop (S k) input).
      { change s' with (drop 1 (c :: s')). rewrite <- Hd, drop_drop.
        f_equal. lia. }
      replace (j - k) with (S (j - S k)) by lia. cbn [take app].
      f_equal. rewrite Hs'. rewrite IH; [|lia|intros; apply Hnone; lia|lia].
      reflexivity.
Qed.

Lemma substitute_cons (input : text) (next : nat) (res : result)
    (ms : list result) :
  next <= index res ->
  fst (substitute input (fun (st : unit) res => (rep input res, st)) tt next (res :: ms))
  = slice input next (index res) ++ rep input res
    ++ fst (substitute input (fun (st : unit) res => (rep input res, st)) tt
              (stop res) ms).
Proof.
  intros H. cbn [substitute].
  destruct (Nat.leb_spec next (index res)); [|lia].
  destruct (substitute input _ tt (stop res) ms) as [rest []]. reflexivity.
Qed.

Lemma replace_scan_from (input : text) (n k : nat) :
  k <= length input -> length input - k < n ->
  fst (substitute input (fun (st : unit) res => (rep input res, st)) tt k
         (matchesFrom f input n r k))
  = scan loc (S (length input - k)) (drop k input).
Proof using loc_spec.
  revert k. induction n as [|n IH]; intros k Hk Hn; [lia|].
  cbn [matchesFrom]. unfold exec.
  destruct (search f input (S (length input) - k) r k) as [res|] eqn:Hsearch.
  - apply search_Some in Hsearch. destruct Hsearch as (j & Hj & Hm & Hbefore).
    pose proof (loc_spec input j ltac:(lia)) as Hs.
    destruct (loc (drop j input)) as [[len out]|] eqn:Hloc;
      [|rewrite Hs in Hm; discriminate].
    destruct Hs as (Hlen & Hend & res' & Hm' & Hi & Hstop & Hrep).
    rewrite Hm in Hm'. inversion Hm'; subst res'. clear Hm'.
    rewrite Hstop, Hi.
    destruct (Nat.eqb_spec (j + len) j); [lia|].
    rewrite substitute_cons by lia. rewrite Hi, Hstop, Hrep.
    rewrite IH by lia.
    rewrite (scan_copy input k j) by (try apply Hbefore; lia).
    unfold slice. f_equal.
    replace (S (length input - k) - (j - k)) with (S (length input - j)) by lia.
    rewrite (scan_match _ _ _ _ Hloc). f_equal.
    rewrite drop_drop. symmetry.
    apply scan_fuel; rewrite length_drop; lia.
  - cbn [substitute fst].
    rewrite (scan_copy input k (length input)); [| lia | | lia].
    + rewrite drop_all. rewrite take_ge by (rewrite length_drop; lia).
      replace (S (length input - k) - (length input - k)) with 1 by lia.
      cbn [scan]. pose proof (loc_spec input (length input) ltac:(lia)) as Hs.
      rewrite drop_all in Hs. destruct (loc []) as [[len out]|]; [lia|].
      rewrite app_nil_r. reflexivity.
    + intros j' Hj'. eapply search_None; [exact Hsearch|]. lia.
Qed.

(** The global replacement is the scan. *)
Lemma replace_scan (input : text) :
  fst (substitute input (fun (st : unit) res => (rep input res, st)) tt 0
         (matches f input r))
  = scan loc (S (length input)) input.
Proof using loc_spec.
  unfold matches. rewrite replace_scan_from by lia.
  rewrite Nat.sub_0_r, drop_0. reflexivity.
Qed.

End Scan.

(** ** The matcher on the patterns of the last two steps *)

Lemma runLength_le (p : ascii -> bool) (s : text) : runLength p s <= length s.
Proof. induction s as [|ch s IH]; cbn; [lia|]. destruct (p ch); cbn; lia. Qed.

Lemma runLength_inside (p : ascii -> bool) (s : text) (k : nat) :
  k < runLength p s -> exists ch rest, drop k s = ch :: rest /\ p ch = true.
Proof.
  revert k. induction s as [|ch s IH]; intros k Hk; cbn in Hk; [lia|].
  destruct (p ch) eqn:Hp; [|lia].
  destruct k as [|k]; [exists ch, s; split; [reflexivity|exact Hp]|].
  cbn [drop]. apply IH. lia.
Qed.

Lemma runLength_end (p : ascii -> bool) (s : text) :
  match drop (runLength p s) s with
  | ch :: _ => p ch = false
  | [] => True
  end.
Proof.
  induction s as [|ch s IH]; cbn; [exact I|].
  destruct (p ch) eqn:Hp; [exact IH|exact Hp].
Qed.

Lemma runLength_all (p : ascii -> bool) (s rest : text) :
  forallb p s = true ->
  match rest with ch :: _ => p ch = false | [] => True end ->
  runLength p (s ++ rest) = length s.
Proof.
  intros Hs Hrest. induction s as [|ch s IH]; cbn in *.
  - destruct rest as [|ch rest]; [reflexivity|]. cbn. rewrite Hrest. reflexivity.
  - apply andb_prop in Hs. destruct Hs as [-> Hs]. rewrite IH by exact Hs. reflexivity.
Qed.

Lemma tryRun_unique (p : ascii -> bool) (c : cont)
    (caps : list (option (nat * nat))) (s : text) (i e : nat) :
  (forall j, i <= j <= i + runLength p s -> j <> e -> c (MState j caps) = None) ->
  tryRun p c caps i s
  = if (i <=? e) && (e <=? i + runLength p s) then c (MState e caps) else None.
Proof.
  revert i. induction s as [|ch s IH]; intros i H; cbn [tryRun runLength] in *.
  - destruct (Nat.leb_spec i e), (Nat.leb_spec e (i + 0)); cbn [andb];
      try (apply H; lia). replace e with i by lia. reflexivity.
  - destruct (p ch).
    + rewrite (IH (S i)) by (intros; apply H; lia).
      destruct (Nat.leb_spec (S i) e), (Nat.leb_spec e (S i + runLength p s));
        cbn [andb].
      * destruct (Nat.leb_spec i e), (Nat.leb_spec e (i + S (runLength p s)));
          try lia. cbn [andb].
        destruct (c (MState e caps)) eqn:He; [reflexivity|]. apply H; lia.
      * destruct (Nat.leb_spec e (i + S (runLength p s))); [lia|].
        rewrite andb_false_r. apply H; lia.
      * destruct (Nat.leb_spec i e), (Nat.leb_spec e (i + S (runLength p s)));
          cbn [andb]; try (apply H; lia). replace e with i by lia. reflexivity.
      * destruct (Nat.leb_spec i e), (Nat.leb_spec e (i + S (runLength p s)));
          cbn [andb]; try (apply H; lia). lia.
    + destruct (Nat.leb_spec i e), (Nat.leb_spec e (i + 0)); cbn [andb];
        try (apply H; lia). replace e with i by lia. reflexivity.
Qed.

Section Matcher.

Variable f : flags.
Variable input : text.

Lemma drop_lookup (i : nat) :
  drop i input = match input !! i with
                 | Some ch => ch :: drop (S i) input
                 | None => []
                 end.
Proof.
  destruct (input !! i) as [ch|] eqn:H.
  - apply drop_S. exact H.
  - apply drop_ge. apply lookup_ge_None. exact H.
Qed.

Lemma charMatcher_forward (p : ascii -> bool) (i : nat)
    (caps : list (option (nat * nat))) (c : cont) :
  charMatcher input p false (MState i caps) c
  = match drop i input with
    | ch :: _ => if p ch then c (MState (S i) caps) else None
    | [] => None
    end.
Proof.
  unfold charMatcher. cbn [endIndex captures]. rewrite drop_lookup.
  destruct (input !! i); reflexivity.
Qed.

Lemma compile_lit (cs : text) (i : nat) (caps : list (option (nat * nat)))
    (c : cont) :
  compile f input (lit cs) false (MState i caps) c
  = if startsWith f cs (drop i input) then c (MState (i + length cs) caps)
    else None.
Proof.
  revert i. induction cs as [|a cs IH]; intros i.
  - cbn. rewrite Nat.add_0_r. reflexivity.
  - destruct cs as [|a' cs].
    + cbn [lit compile]. rewrite charMatcher_forward.
      cbn [startsWith length]. destruct (drop i input) as [|ch rest]; [reflexivity|].
      rewrite andb_true_r. replace (i + 1) with (S i) by lia. reflexivity.
    + change (lit (a :: a' :: cs)) with (Seq (Char a) (lit (a' :: cs))).
      cbn [compile]. rewrite charMatcher_forward.
      cbn [startsWith]. rewrite (drop_lookup i).
      destruct (input !! i) as [ch|]; [|reflexivity].
      destruct (ascii_eqb (canon f ch) (canon f a)); [|reflexivity].
      rewrite IH. cbn [andb length].
      replace (i + S (S (length cs))) with (S i + S (length cs)) by lia.
      reflexivity.
Qed.

Lemma repeat_star (p : ascii -> bool) (fuel i : nat)
    (caps : list (option (nat * nat))) (c : cont) :
  length input - i < fuel ->
  repeatMatcher fuel (charMatcher input p false) [] 0 None true (MState i caps) c
  = tryRun p c caps i (drop i input).
Proof.
  revert i. induction fuel as [|fuel IH]; intros i Hf; [lia|].
  cbn [repeatMatcher]. cbn [endIndex captures clearCaptures fold_left].
  destruct (decide (None = Some 0)) as [Heq|_]; [discriminate|].
  cbn [Nat.eqb negb]. rewrite charMatcher_forward.
  rewrite (drop_lookup i). destruct (input !! i) as [ch|] eqn:Hi; [|reflexivity].
  cbn [tryRun]. destruct (p ch); [|reflexivity].
  cbn [endIndex andb]. rewrite Nat.eqb_sym.
  destruct (Nat.eqb_spec i (S i)); [lia|].
  cbn [pred fmap option_fmap option_map].
  rewrite IH; [reflexivity|].
  apply lookup_lt_Some in Hi. lia.
Qed.

Lemma repeat_plus (p : ascii -> bool) (fuel i : nat)
    (caps : list (option (nat * nat))) (c : cont) :
  length input - i < fuel ->
  repeatMatcher (S fuel) (charMatcher input p false) [] 1 None true (MState i caps) c
  = match drop i input with
    | ch :: s' => if p ch then tryRun p c caps (S i) s' else None
    | [] => None
    end.
Proof.
  intros Hf. cbn [repeatMatcher]. cbn [endIndex captures clearCaptures fold_left].
  destruct (decide (None = Some 0)) as [Heq|_]; [discriminate|].
  cbn [Nat.eqb negb]. rewrite charMatcher_forward.
  rewrite (drop_lookup i). destruct (input !! i) as [ch|] eqn:Hi; [|reflexivity].
  destruct (p ch); [|reflexivity].
  cbn [andb pred fmap option_fmap option_map].
  apply lookup_lt_Some in Hi.
  destruct fuel as [|fuel]; [lia|].
  rewrite repeat_star by lia. reflexivity.
Qed.

End Matcher.

Lemma runLength_ext (p q : ascii -> bool) (s : text) :
  (forall ch, p ch = q ch) -> runLength p s = runLength q s.
Proof.
  intros H. induction s as [|ch s IH]; cbn; [reflexivity|].
  rewrite H, IH. reflexivity.
Qed.

Lemma tryRun_ext (p q : ascii -> bool) (c : cont)
    (caps : list (option (nat * nat))) (i : nat) (s : text) :
  (forall ch, p ch = q ch) -> tryRun p c caps i s = tryRun q c caps i s.
Proof.
  intros H. revert i. induction s as [|ch s IH]; intros i; cbn; [reflexivity|].
  rewrite H, IH. reflexivity.
Qed.

Lemma startsWith_length (f : flags) (cs s : text) :
  startsWith f cs s = true -> length cs <= length s.
Proof.
  revert s. induction cs as [|a cs IH]; intros s H; cbn; [lia|].
  destruct s as [|ch s]; [discriminate|]. cbn in *.
  apply andb_prop in H. destruct H as [_ H]. apply IH in H. lia.
Qed.

Lemma compile_Seq (f : flags) (input : text) (r1 r2 : regex) (x : mstate) (c : cont) :
  compile f input (Seq r1 r2) false x c
  = compile f input r1 false x (fun y => compile f input r2 false y c).
Proof. reflexivity. Qed.

Lemma compile_Group (f : flags) (input : text) (n : nat) (r : regex) (x : mstate)
    (c : cont) :
  compile f input (Group n r) false x c
  = compile f input r false x (fun y =>
      c (MState (endIndex y) (<[n := Some (endIndex x, endIndex y)]> (captures y)))).
Proof. reflexivity. Qed.

Lemma compile_Plus_Class (f : flags) (input : text) (neg : bool) (its : list item) :
  compile f input (Plus (Class neg its)) false
  = repeatMatcher (S (length input + 1))
      (charMatcher input (fun ch => xorb neg (inSet f its ch)) false) [] 1 None true.
Proof. reflexivity. Qed.

Lemma compile_Plus_Dot (f : flags) (input : text) :
  compile f input (Plus Dot) false
  = repeatMatcher (S (length input + 1))
      (charMatcher input (fun ch => negb (lineTerminator ch)) false) [] 1 None true.
Proof. reflexivity. Qed.

Lemma word_class (ch : ascii) : xorb false (inSet gmi [IWord] ch) = isWord ch.
Proof. destruct ch as [[] [] [] [] [] [] [] []]; reflexivity. Qed.

Lemma word_is_not_plus (ch : ascii) :
  isWord ch = true -> ascii_eqb (canon gmi ch) (canon gmi "+") = false.
Proof. destruct ch as [[] [] [] [] [] [] [] []]; vm_compute; congruence. Qed.

(** *** The increment *)

Lemma expand_increment (input : text) (res : result) :
  length (groups res) = 2 ->
  expand (chars "$1 += 1") input res
  = default [] (capture input res 1) ++ chars " += 1".
Proof.
  intros H. destruct res as [i e gs]. cbn [groups] in H.
  destruct gs as [|g0 [|g1 [|g2 gs]]]; try discriminate.
  reflexivity.
Qed.

Lemma increment_loc (input : text) (i : nat) :
  i <= length input ->
  match locIncrement (drop i input) with
  | Some (len, out) =>
      0 < len /\ i + len <= length input
      /\ exists res, matchAt gmi input increment i = Some res
                     /\ index res = i /\ stop res = i + len
                     /\ expand (chars "$1 += 1") input res = out
  | None => matchAt gmi input increment i = None
  end.
Proof.
  intros Hi. unfold matchAt, increment, word.
  rewrite compile_Seq, compile_Group, compile_Plus_Class.
  rewrite repeat_plus by (cbn [endIndex]; lia).
  cbn [endIndex captures]. unfold locIncrement.
  destruct (drop i input) as [|ch s'] eqn:Hs; [reflexivity|].
  rewrite word_class. cbn [runLength].
  destruct (isWord ch) eqn:Hch; [|reflexivity].
  assert (Hs' : s' = drop (S i) input).
  { change s' with (drop 1 (ch :: s')). rewrite <- Hs, drop_drop. f_equal. lia. }
  rewrite (tryRun_ext _ isWord) by apply word_class.
  rewrite (tryRun_unique _ _ _ _ _ (S i + runLength isWord s')).
  2:{ intros j Hj Hne. rewrite compile_lit. cbn [endIndex].
      destruct (runLength_inside isWord s' (j - S i) ltac:(lia))
        as (wc & rest & Hd & Hwc).
      rewrite Hs', drop_drop in Hd. replace (S i + (j - S i)) with j in Hd by lia.
      rewrite Hd. cbn [startsWith chars list_ascii_of_string].
      rewrite word_is_not_plus by exact Hwc. reflexivity. }
  destruct (Nat.leb_spec (S i) (S i + runLength isWord s')); [|lia].
  rewrite Nat.leb_refl. cbn [andb Nat.ltb Nat.leb].
  rewrite compile_lit. cbn [endIndex captures drop].
  replace (drop (S i + runLength isWord s') input) with (drop (runLength isWord s') s')
    by (rewrite Hs', drop_drop; reflexivity).
  destruct (startsWith gmi (chars "++") (drop (runLength isWord s') s')) eqn:Hpp;
    [|reflexivity].
  apply startsWith_length in Hpp. rewrite length_drop in Hpp. cbn in Hpp.
  assert (Hlen : length input = i + S (length s')).
  { apply (f_equal length) in Hs. rewrite length_drop in Hs. cbn in Hs. lia. }
  split; [lia|]. split; [lia|].
  eexists. split; [reflexivity|]. cbn [index stop].
  split; [reflexivity|]. split; [cbn; lia|].
  rewrite expand_increment by reflexivity.
  unfold capture, slice. cbn [groups captures]. f_equal.
  change (<[1:=Some (i, S i + runLength isWord s')]> (replicate _ None) !! 1)
    with (Some (Some (i, S i + runLength isWord s'))).
  cbn [default]. rewrite Hs.
  replace (S i + runLength isWord s' - i) with (S (runLength isWord s')) by lia.
  reflexivity.
Qed.

Lemma incrementStep_scan (code : text) :
  incrementStep code = scan locIncrement (S (length code)) code.
Proof.
  unfold incrementStep, replace.
  apply (replace_scan gmi increment (expand (chars "$1 += 1"))).
  apply increment_loc.
Qed.

Lemma incrementStep_unfold (s : text) :
  incrementStep s
  = match locIncrement s with
    | Some (len, out) => out ++ incrementStep (drop len s)
    | None =>
        match s with
        | [] => []
        | c :: s' => c :: incrementStep s'
        end
    end.
Proof.
  rewrite incrementStep_scan.
  rewrite (scan_unfold gmi increment (expand (chars "$1 += 1")) _ increment_loc).
  destruct (locIncrement s) as [[len out]|].
  - rewrite incrementStep_scan. reflexivity.
  - destruct s as [|c s']; [reflexivity|]. rewrite incrementStep_scan. reflexivity.
Qed.

Lemma runLength_app_lt (p : ascii -> bool) (s rest : text) :
  runLength p s < length s -> runLength p (s ++ rest) = runLength p s.
Proof.
  induction s as [|ch s IH]; cbn; [lia|].
  destruct (p ch); [|reflexivity]. intros H. rewrite IH by lia. reflexivity.
Qed.

Lemma locIncrement_word (s : text) :
  forallb isWord s = true -> locIncrement s = None.
Proof.
  intros H. unfold locIncrement.
  replace (runLength isWord s) with (length s).
  - rewrite drop_all. cbn. rewrite andb_false_r. reflexivity.
  - rewrite <- (app_nil_r s) at 2. symmetry. apply runLength_all; [exact H|exact I].
Qed.

Lemma incrementStep_word (s : text) :
  forallb isWord s = true -> incrementStep s = s.
Proof.
  induction s as [|c s IH]; intros H; rewrite incrementStep_unfold.
  - reflexivity.
  - rewrite locIncrement_word by exact H. cbn in H.
    apply andb_prop in H. rewrite IH by apply H. reflexivity.
Qed.

Lemma plus_is_not_word (post : text) :
  match chars "++" ++ post with
  | ch :: _ => isWord ch = false
  | [] => True
  end.
Proof. reflexivity. Qed.

Lemma locIncrement_here (x post : text) :
  x <> [] -> forallb isWord x = true ->
  locIncrement (x ++ chars "++" ++ post)
  = Some (length x + 2, x ++ chars " += 1").
Proof.
  intros Hne Hx. unfold locIncrement.
  rewrite (runLength_all isWord x (chars "++" ++ post) Hx (plus_is_not_word post)).
  rewrite drop_app_length, take_app_length.
  destruct x; [congruence|]. reflexivity.
Qed.

(** In front of a word, what happens at the start of [pre] does not
    depend on what follows [pre], unless [pre] is itself a word. *)
Lemma locIncrement_context (pre rest : text) (wc : ascii) :
  isWord wc = true ->
  runLength isWord pre < length pre ->
  locIncrement (pre ++ wc :: rest) = locIncrement pre.
Proof.
  intros Hwc Hrun. unfold locIncrement.
  rewrite runLength_app_lt by exact Hrun.
  set (n := runLength isWord pre) in *.
  rewrite take_app_le by lia. rewrite drop_app_le by lia.
  destruct (drop n pre) as [|c [|c' d]] eqn:Hd.
  - apply (f_equal length) in Hd. rewrite length_drop in Hd. cbn in Hd. lia.
  - cbn [app startsWith chars list_ascii_of_string].
    rewrite (word_is_not_plus wc Hwc). rewrite !andb_false_r. reflexivity.
  - reflexivity.
Qed.

Lemma increment_in_context (n : nat) (pre x post : text) :
  length pre <= n ->
  x <> [] -> forallb isWord x = true ->
  incrementStep (pre ++ x ++ chars "++" ++ post)
  = incrementStep pre ++ x ++ chars " += 1" ++ incrementStep post.
Proof.
  intros Hn Hne Hx. revert pre Hn.
  induction n as [|n IH]; intros pre Hn.
  { destruct pre; [|cbn in Hn; lia]. cbn [app].
    rewrite incrementStep_unfold, locIncrement_here by assumption.
    replace (length x + 2) with (length (x ++ chars "++")) by (rewrite length_app; reflexivity).
    rewrite (app_assoc x), drop_app_length.
    rewrite (incrementStep_unfold []). cbn [locIncrement]. rewrite <- app_assoc.
    reflexivity. }
  destruct x as [|wc x']; [congruence|].
  assert (Hwc : isWord wc = true) by (cbn in Hx; apply andb_prop in Hx; apply Hx).
  destruct (Nat.lt_ge_cases (runLength isWord pre) (length pre)) as [Hrun|Hrun].
  - rewrite (incrementStep_unfold (pre ++ _)), (incrementStep_unfold pre).
    change ((wc :: x') ++ chars "++" ++ post) with (wc :: (x' ++ chars "++" ++ post)).
    rewrite locIncrement_context by assumption.
    change (wc :: (x' ++ chars "++" ++ post)) with ((wc :: x') ++ chars "++" ++ post).
    destruct (locIncrement pre) as [[len out]|] eqn:Hloc.
    + assert (Hlen : 0 < len <= length pre).
      { pose proof (increment_loc pre 0 ltac:(lia)) as Hs.
        rewrite drop_0, Hloc in Hs. lia. }
      rewrite drop_app_le by lia.
      rewrite IH by (rewrite length_drop; lia).
      rewrite <- !app_assoc. reflexivity.
    + destruct pre as [|a pre']; [cbn in Hrun; lia|].
      cbn [app]. rewrite IH by (cbn in Hn; lia). reflexivity.
  - assert (Hall : forallb isWord pre = true).
    { pose proof (runLength_le isWord pre) as Hle.
      assert (Heq : runLength isWord pre = length pre) by lia.
      clear -Heq. induction pre as [|a pre IH]; [reflexivity|].
      cbn in *. destruct (isWord a); [|discriminate].
      apply IH. lia. }
    rewrite (incrementStep_word pre Hall).
    rewrite incrementStep_unfold.
    rewrite (app_assoc pre), locIncrement_here.
    + replace (length (pre ++ wc :: x') + 2)
        with (length ((pre ++ wc :: x') ++ chars "++"))
        by (rewrite (length_app _ (chars "++")); reflexivity).
      rewrite (app_assoc (pre ++ wc :: x')), drop_app_length.
      rewrite <- !app_assoc. reflexivity.
    + destruct pre; discriminate.
    + rewrite forallb_app, Hall. exact Hx.
Qed.

(** *** The print call *)

Lemma startsWith_app (f : flags) (a b s : text) :
  startsWith f (a ++ b) s = startsWith f a s && startsWith f b (drop (length a) s).
Proof.
  revert s. induction a as [|x a IH]; intros s; cbn [app startsWith length drop].
  - reflexivity.
  - destruct s as [|ch s]; [destruct b; reflexivity|].
    cbn [drop]. rewrite IH, andb_assoc. reflexivity.
Qed.

Lemma terminator_is_not_paren (ch : ascii) :
  inLine ch = false -> ascii_eqb (canon gmi ch) (canon gmi ")") = false.
Proof. destruct ch as [[] [] [] [] [] [] [] []]; vm_compute; congruence. Qed.

Lemma inLine_is_not_newline (ch : ascii) :
  inLine ch = true -> ascii_eqb (canon gmi ch) (canon gmi nl) = false.
Proof. destruct ch as [[] [] [] [] [] [] [] []]; vm_compute; congruence. Qed.

Lemma puts_loc (input : text) (i : nat) :
  i <= length input ->
  match locPuts (drop i input) with
  | Some (len, out) =>
      0 < len /\ i + len <= length input
      /\ exists res, matchAt gmi input putsCall i = Some res
                     /\ index res = i /\ stop res = i + len
                     /\ putsReplacement input res = out
  | None => matchAt gmi input putsCall i = None
  end.
Proof.
  intros Hi. unfold matchAt, putsCall. cbn [sequence].
  change (Seq (Char ")") (Char nl)) with (lit [")"%char; nl]).
  change (Char "(") with (lit ["("%char]).
  rewrite compile_Seq, compile_lit. cbn [endIndex captures].
  unfold locPuts.
  change (chars "puts(") with (chars "puts" ++ ["("%char]).
  rewrite startsWith_app.
  destruct (startsWith gmi (chars "puts") (drop i input)); [|reflexivity].
  rewrite compile_Seq, compile_lit. cbn [endIndex captures andb].
  rewrite !drop_drop.
  change (length (chars "puts")) with 4. change (length ["("%char]) with 1.
  destruct (startsWith gmi ["("%char] (drop (i + 4) input)); [|reflexivity].
  replace (i + 4 + 1) with (i + 5) by lia.
  rewrite compile_Seq, compile_Group, compile_Plus_Dot.
  rewrite repeat_plus by (cbn [endIndex]; lia).
  cbn [endIndex captures].
  change (fun ch => negb (lineTerminator ch)) with inLine.
  destruct (drop (i + 5) input) as [|ch s'] eqn:Hs; [reflexivity|].
  change (negb (lineTerminator ch)) with (inLine ch).
  cbn [runLength]. destruct (inLine ch) eqn:Hch; [|reflexivity].
  assert (Hs' : s' = drop (S (i + 5)) input).
  { change s' with (drop 1 (ch :: s')). rewrite <- Hs, drop_drop. f_equal. lia. }
  remember (runLength inLine s') as n' eqn:Hn'.
  rewrite (tryRun_unique _ _ _ _ _ (i + 5 + n')).
  2:{ intros j Hj Hne. rewrite compile_lit. cbn [endIndex].
      rewrite <- Hn' in Hj.
      destruct (decide (j = S (i + 5) + n')) as [->|Hdeep].
      - pose proof (runLength_end inLine s') as Hend. rewrite <- Hn' in Hend.
        rewrite Hs', drop_drop in Hend.
        destruct (drop (S (i + 5) + n') input) as [|a rest]; [reflexivity|].
        cbn [startsWith]. rewrite terminator_is_not_paren by exact Hend. reflexivity.
      - destruct (runLength_inside inLine s' (j - S (i + 5)) ltac:(lia))
          as (a & rest & Hd & _).
        destruct (runLength_inside inLine s' (S (j - S (i + 5))) ltac:(lia))
          as (b & rest' & Hd' & Hb).
        assert (Hrest : rest = b :: rest').
        { change rest with (drop 1 (a :: rest)). rewrite <- Hd, drop_drop.
          rewrite <- Hd'. f_equal. lia. }
        rewrite Hs', drop_drop in Hd.
        replace (S (i + 5) + (j - S (i + 5))) with j in Hd by lia.
        rewrite Hd, Hrest. cbn [startsWith].
        rewrite (inLine_is_not_newline b Hb). rewrite andb_false_r. reflexivity. }
  rewrite <- Hn'.
  replace (S (i + 5) <=? i + 5 + n') with (2 <=? S n')
    by (destruct (Nat.leb_spec 2 (S n')), (Nat.leb_spec (S (i + 5)) (i + 5 + n')); lia).
  destruct (Nat.leb_spec 2 (S n')) as [Hn|Hn]; [|reflexivity].
  destruct (Nat.leb_spec (i + 5 + n') (S (i + 5) + n')); [|lia].
  cbn [andb]. rewrite compile_lit. cbn [endIndex captures].
  replace (i + 5 + (S n' - 1)) with (i + 5 + n') by lia.
  destruct (startsWith gmi [")"%char; nl] (drop (i + 5 + n') input)) eqn:Hclose;
    [|reflexivity].
  apply startsWith_length in Hclose. rewrite length_drop in Hclose. cbn in Hclose.
  split; [lia|]. split; [lia|].
  eexists. split; [reflexivity|]. cbn [index stop].
  split; [reflexivity|]. split; [cbn; lia|].
  unfold putsReplacement, putsArguments. cbn [fst groups captures].
  change (length (<[1:=Some (i + 5, i + 5 + n')]> (replicate _ None)) - 1) with 1.
  cbn [seq map]. unfold capture. cbn [groups captures].
  change (<[1:=Some (i + 5, i + 5 + n')]> (replicate _ None) !! 1)
    with (Some (Some (i + 5, i + 5 + n'))).
  cbn [lookup list_lookup str]. unfold slice. rewrite Hs.
  replace (i + 5 + n' - (i + 5)) with (S n' - 1) by lia.
  reflexivity.
Qed.

Lemma substitute_ext {St} (input : text) (rep1 rep2 : St -> result -> text * St)
    (st : St) (next : nat) (ms : list result) :
  (forall st res, rep1 st res = rep2 st res) ->
  substitute input rep1 st next ms = substitute input rep2 st next ms.
Proof.
  intros H. revert st next. induction ms as [|res ms IH]; intros st next; cbn.
  - reflexivity.
  - destruct (next <=? index res); [|apply IH].
    rewrite H. destruct (rep2 st res) as [out st']. rewrite IH. reflexivity.
Qed.

Lemma putsStep_scan (code : text) :
  putsStep code = scan locPuts (S (length code)) code.
Proof.
  unfold putsStep, replaceWith.
  rewrite <- (replace_scan gmi putsCall putsReplacement locPuts puts_loc).
  f_equal. apply substitute_ext. intros [] res. reflexivity.
Qed.

Lemma putsStep_unfold (s : text) :
  putsStep s
  = match locPuts s with
    | Some (len, out) => out ++ putsStep (drop len s)
    | None =>
        match s with
        | [] => []
        | c :: s' => c :: putsStep s'
        end
    end.
Proof.
  rewrite putsStep_scan.
  rewrite (scan_unfold gmi putsCall putsReplacement _ puts_loc).
  destruct (locPuts s) as [[len out]|].
  - rewrite putsStep_scan. reflexivity.
  - destruct s as [|c s']; [reflexivity|]. rewrite putsStep_scan. reflexivity.
Qed.

(** ** What the print rewrite keeps *)

Lemma assignChar_facts (c : ascii) :
  assignChar c = true ->
  ascii_eqb (canon gmi c) (canon gmi "(") = false
  /\ ascii_eqb (canon gmi c) (canon gmi ")") = false
  /\ ascii_eqb (canon gmi c) (canon gmi nl) = false.
Proof. destruct c as [[] [] [] [] [] [] [] []]; vm_compute; intuition congruence. Qed.

Lemma assignChar_assignment (x : text) :
  forallb isWord x = true -> forallb assignChar (x ++ chars " += 1") = true.
Proof.
  intros H. rewrite forallb_app. apply andb_true_intro. split; [|reflexivity].
  induction x as [|c x IH]; [reflexivity|]. cbn in *.
  apply andb_prop in H. destruct H as [Hc Hx].
  unfold assignChar at 1. rewrite Hc, (IH Hx). reflexivity.
Qed.

Lemma forallb_lookup (p : ascii -> bool) (s : list ascii) (k : nat) (c : ascii) :
  forallb p s = true -> s !! k = Some c -> p c = true.
Proof.
  intros H Hk. rewrite forallb_forall in H. apply H.
  apply list_elem_of_In. eapply list_elem_of_lookup_2. exact Hk.
Qed.

Lemma startsWith_lookup (f : flags) (cs s : list ascii) (k : nat) (a : ascii) :
  startsWith f cs s = true -> cs !! k = Some a ->
  exists c, s !! k = Some c /\ ascii_eqb (canon f c) (canon f a) = true.
Proof.
  revert s k. induction cs as [|a' cs IH]; intros s k H Hk; [discriminate|].
  destruct s as [|c s]; [discriminate|]. cbn in H.
  apply andb_prop in H. destruct H as [Hc Hs].
  destruct k as [|k].
  - inversion Hk; subst. exists c. split; [reflexivity|exact Hc].
  - apply (IH s k Hs Hk).
Qed.

(** No print call starts inside [x += 1]. *)
Lemma locPuts_assignment (x b : text) :
  forallb isWord x = true -> locPuts (x ++ chars " += 1" ++ b) = None.
Proof.
  intros Hx. unfold locPuts.
  destruct (startsWith gmi (chars "puts(") (x ++ chars " += 1" ++ b)) eqn:Hs;
    [|reflexivity].
  exfalso.
  destruct (startsWith_lookup _ _ _ 4 "("%char Hs eq_refl) as (c & Hc & Heq).
  assert (Hin : (x ++ chars " += 1") !! 4 = Some c).
  { rewrite (app_assoc x (chars " += 1") b) in Hc.
    rewrite (lookup_app_l (x ++ chars " += 1") b 4) in Hc; [exact Hc|].
    rewrite length_app. cbn. lia. }
  pose proof (forallb_lookup _ _ _ _ (assignChar_assignment x Hx) Hin) as Hok.
  apply assignChar_facts in Hok. destruct Hok as [Hok _]. congruence.
Qed.

Lemma putsStep_assignment (x b : text) :
  forallb isWord x = true ->
  putsStep (x ++ chars " += 1" ++ b) = x ++ chars " += 1" ++ putsStep b.
Proof.
  intros Hx. induction x as [|c x IH].
  - cbn [app].
    do 5 (rewrite putsStep_unfold;
          match goal with
          | |- context [locPuts ?s] => change (locPuts s) with (@None (nat * text))
          end; cbn [chars list_ascii_of_string app]).
    reflexivity.
  - rewrite putsStep_unfold, locPuts_assignment by exact Hx.
    cbn in Hx. apply andb_prop in Hx. cbn [app]. rewrite IH by apply Hx.
    reflexivity.
Qed.

Lemma within_stringify (w arg : text) : within w arg -> within w (stringify arg).
Proof.
  intros (a & b & ->). unfold stringify.
  destruct (a ++ w ++ b) as [|c rest] eqn:Heq.
  - destruct a; [destruct w; [|discriminate]|discriminate].
    exists (chars "("), (chars ").to_s"). reflexivity.
  - rewrite <- Heq.
    destruct (ascii_eqb c squote || ascii_eqb c dquote).
    + exists a, b. reflexivity.
    + exists (chars "(" ++ a), (b ++ chars ").to_s").
      rewrite <- !app_assoc. reflexivity.
Qed.

Lemma within_join (w sep p : text) (ps : list text) :
  In p ps -> within w p -> within w (join sep ps).
Proof.
  intros Hin (a & b & ->). induction ps as [|q ps IH]; [destruct Hin|].
  destruct Hin as [->|Hin].
  - destruct ps as [|q' ps].
    + exists a, b. reflexivity.
    + exists a, (b ++ sep ++ join sep (q' :: ps)).
      cbn [join]. rewrite <- !app_assoc. reflexivity.
  - destruct (IH Hin) as (a' & b' & Heq).
    destruct ps as [|q' ps]; [destruct Hin|].
    exists (q ++ sep ++ a'), b'.
    change (join sep (q :: q' :: ps)) with (q ++ sep ++ join sep (q' :: ps)).
    rewrite Heq, <- !app_assoc. reflexivity.
Qed.

Lemma splitAux_first (str piece : text) :
  exists q rest, splitAux (chars " + ") 0 piece str = (piece ++ q) :: rest.
Proof.
  revert piece. induction str as [|c str IH]; intros piece.
  - exists [], []. cbn. rewrite app_nil_r. reflexivity.
  - cbn [splitAux]. destruct (isPrefix (chars " + ") (c :: str)).
    + exists [], (splitAux (chars " + ") (length (chars " + ") - 1) [] str).
      rewrite app_nil_r. reflexivity.
    + destruct (IH (piece ++ [c])) as (q & rest & ->).
      exists (c :: q), rest. rewrite <- app_assoc. reflexivity.
Qed.

Lemma word_is_not_separator (c : ascii) :
  isWord c = true -> ascii_eqb " " c = false /\ ascii_eqb "+" c = false.
Proof. destruct c as [[] [] [] [] [] [] [] []]; vm_compute; intuition congruence. Qed.

(** From the start of [x += 1], the piece being read goes on to the end
    of it at least. *)
Lemma splitAux_assignment (x piece b : text) :
  forallb isWord x = true ->
  exists q rest,
    splitAux (chars " + ") 0 piece (x ++ chars " += 1" ++ b)
    = (piece ++ x ++ chars " += 1" ++ q) :: rest.
Proof.
  intros Hx. revert piece. induction x as [|c x IH]; intros piece.
  - destruct (splitAux_first b (piece ++ chars " += 1")) as (q & rest & Heq).
    exists q, rest.
    transitivity (splitAux (chars " + ") 0 (piece ++ chars " += 1") b).
    + cbn. rewrite <- !app_assoc. reflexivity.
    + rewrite Heq, <- app_assoc. reflexivity.
  - cbn in Hx. apply andb_prop in Hx. destruct Hx as [Hc Hx].
    destruct (word_is_not_separator c Hc) as [Hsp _].
    assert (Hp : isPrefix (chars " + ") (c :: x ++ chars " += 1" ++ b) = false).
    { cbn. rewrite Hsp. reflexivity. }
    destruct (IH Hx (piece ++ [c])) as (q & rest & Heq).
    exists q, rest. cbn [app splitAux]. rewrite Hp, Heq, <- !app_assoc.
    reflexivity.
Qed.

Lemma splitAux_keeps (x a b : text) (skip : nat) (piece : text) (c0 : ascii) (x0 : text) :
  x = c0 :: x0 ->
  forallb isWord x = true ->
  skip <= length a ->
  exists p,
    In p (splitAux (chars " + ") skip piece (a ++ x ++ chars " += 1" ++ b))
    /\ within (x ++ chars " += 1") p.
Proof.
  intros Hx0 Hx. revert skip piece. induction a as [|c a IH]; intros skip piece Hskip.
  - cbn in Hskip. replace skip with 0 by lia. cbn [app].
    destruct (splitAux_assignment x piece b Hx) as (q & rest & ->).
    exists (piece ++ x ++ chars " += 1" ++ q). split; [left; reflexivity|].
    exists piece, q. rewrite <- !app_assoc. reflexivity.
  - cbn [app splitAux]. destruct skip as [|k].
    + destruct (isPrefix (chars " + ") (c :: a ++ x ++ chars " += 1" ++ b)) eqn:Hp.
      * assert (Hlen : 2 <= length a).
        { subst x. cbn in Hx. apply andb_prop in Hx. destruct Hx as [Hc0 _].
          destruct (word_is_not_separator c0 Hc0) as [Hsp Hpl].
          destruct a as [|a1 [|a2 a]]; cbn in Hp |- *; try lia.
          - rewrite Hpl in Hp. rewrite andb_false_r in Hp. discriminate.
          - rewrite Hsp in Hp. rewrite !andb_false_r in Hp. discriminate. }
        destruct (IH (length (chars " + ") - 1) [] Hlen) as (p & Hin & Hw).
        exists p. split; [right; exact Hin|exact Hw].
      * destruct (IH 0 (piece ++ [c]) ltac:(lia)) as (p & Hin & Hw).
        exists p. split; assumption.
    + cbn in Hskip. destruct (IH k piece ltac:(lia)) as (p & Hin & Hw).
      exists p. split; assumption.
Qed.

Lemma within_arguments (x body : text) :
  x <> [] -> forallb isWord x = true ->
  within (x ++ chars " += 1") body ->
  within (x ++ chars " += 1")
    (join (chars " + ") (map stringify (split (chars " + ") body))).
Proof.
  intros Hne Hx (a & b & ->). destruct x as [|c0 x0]; [congruence|].
  rewrite <- app_assoc.
  destruct (splitAux_keeps (c0 :: x0) a b 0 [] c0 x0 eq_refl Hx ltac:(lia))
    as (p & Hin & Hw).
  apply (within_join _ _ (stringify p)).
  - apply in_map. exact Hin.
  - apply within_stringify. exact Hw.
Qed.

Lemma locPuts_Some (s : text) (len : nat) (out : text) :
  locPuts s = Some (len, out) ->
  exists n,
    startsWith gmi (chars "puts(") s = true
    /\ 2 <= n
    /\ startsWith gmi [")"%char; nl] (drop (n - 1) (drop 5 s)) = true
    /\ len = 5 + n + 1
    /\ out = chars "puts("
             ++ join (chars " + ")
                  (map stringify (split (chars " + ") (take (n - 1) (drop 5 s))))
             ++ chars ")" ++ [nl].
Proof.
  unfold locPuts. intros H.
  destruct (startsWith gmi (chars "puts(") s); [|discriminate].
  destruct (2 <=? runLength inLine (drop 5 s)) eqn:Hn; [|discriminate].
  destruct (startsWith gmi [")"%char; nl] _) eqn:Hclose; [|discriminate].
  cbn [andb] in H. inversion H; subst.
  exists (runLength inLine (drop 5 s)). apply Nat.leb_le in Hn.
  repeat split; solve [reflexivity | assumption].
Qed.

(** A print call that starts before [x += 1] and ends after its first
    character has the whole of it among its arguments. *)
Lemma call_covers (x a b : list ascii) (n : nat) :
  forallb isWord x = true ->
  startsWith gmi (chars "puts(") (a ++ (x ++ chars " += 1") ++ b) = true ->
  1 <= n ->
  startsWith gmi [")"%char; nl]
    (drop (n - 1) (drop 5 (a ++ (x ++ chars " += 1") ++ b))) = true ->
  length a < 5 + n + 1 ->
  within (x ++ chars " += 1")
    (take (n - 1) (drop 5 (a ++ (x ++ chars " += 1") ++ b))).
Proof.
  intros Hx Hopen Hn Hclose Hlen.
  pose proof (assignChar_assignment x Hx) as Hw.
  assert (Hlw : 5 <= length (x ++ chars " += 1")) by (rewrite length_app; cbn; lia).
  remember (x ++ chars " += 1") as w eqn:Ew.
  assert (Ha : 5 <= length a).
  { destruct (le_lt_dec 5 (length a)) as [|Hlt]; [assumption|exfalso].
    destruct (startsWith_lookup _ _ _ 4 "("%char Hopen eq_refl) as (c & Hc & Heq).
    rewrite lookup_app_r in Hc by lia. rewrite lookup_app_l in Hc by lia.
    apply (forallb_lookup _ _ _ _ Hw) in Hc.
    apply assignChar_facts in Hc. destruct Hc as [Hc _]. congruence. }
  rewrite drop_app_le in Hclose |- * by exact Ha.
  assert (Hd : length (drop 5 a) = length a - 5) by apply length_drop.
  remember (drop 5 a) as A eqn:EA.
  destruct (startsWith_lookup _ _ _ 0 ")"%char Hclose eq_refl) as (c1 & Hc1 & Heq1).
  destruct (startsWith_lookup _ _ _ 1 nl Hclose eq_refl) as (c2 & Hc2 & Heq2).
  rewrite lookup_drop in Hc1, Hc2.
  assert (Hfit : length A + length w <= n - 1).
  { destruct (le_lt_dec (length A + length w) (n - 1)) as [|Hlt]; [assumption|exfalso].
    destruct (le_lt_dec (length A) (n - 1)) as [Hle|Hgt].
    - rewrite lookup_app_r in Hc1 by lia. rewrite lookup_app_l in Hc1 by lia.
      apply (forallb_lookup _ _ _ _ Hw) in Hc1.
      apply assignChar_facts in Hc1. destruct Hc1 as (_ & Hc1 & _). congruence.
    - rewrite lookup_app_r in Hc2 by lia. rewrite lookup_app_l in Hc2 by lia.
      apply (forallb_lookup _ _ _ _ Hw) in Hc2.
      apply assignChar_facts in Hc2. destruct Hc2 as (_ & _ & Hc2). congruence. }
  exists A, (take (n - 1 - length A - length w) b).
  rewrite take_app, (take_ge A) by lia.
  rewrite take_app, (take_ge w) by lia.
  reflexivity.
Qed.

Lemma within_app_l (w p t : text) : within w t -> within w (p ++ t).
Proof.
  intros (a & b & ->). exists (p ++ a), b. rewrite <- app_assoc. reflexivity.
Qed.

Lemma within_app_r (w t q : text) : within w t -> within w (t ++ q).
Proof.
  intros (a & b & ->). exists a, (b ++ q). rewrite <- !app_assoc. reflexivity.
Qed.

(** The print rewrite keeps every [x += 1]: outside a call it is copied,
    inside one it is part of an argument, which is kept or wrapped. *)
Lemma putsStep_keeps (x : text) :
  x <> [] -> forallb isWord x = true ->
  forall t, within (x ++ chars " += 1") t ->
            within (x ++ chars " += 1") (putsStep t).
Proof.
  intros Hne Hx t (a & b & ->).
  remember (length a) as m eqn:Hm. revert a b Hm.
  induction m as [m IH] using lt_wf_ind. intros a b Hm.
  destruct a as [|c a].
  - cbn [app]. rewrite <- app_assoc, (putsStep_assignment x b Hx).
    exists [], (putsStep b). rewrite <- app_assoc. reflexivity.
  - rewrite putsStep_unfold.
    destruct (locPuts ((c :: a) ++ (x ++ chars " += 1") ++ b))
      as [[len out]|] eqn:Hloc.
    + destruct (locPuts_Some _ _ _ Hloc) as (n & Hopen & Hn & Hclose & Hlen & Hout).
      clear Hloc.
      destruct (le_lt_dec len (length (c :: a))) as [Hle|Hgt].
      * apply within_app_l.
        rewrite (drop_app_le (c :: a) _ len) by exact Hle.
        apply (IH (length (drop len (c :: a)))); [|reflexivity].
        rewrite length_drop, Hm. lia.
      * apply within_app_r. rewrite Hout.
        apply within_app_l, within_app_r, within_arguments; [exact Hne|exact Hx|].
        apply call_covers; [exact Hx|exact Hopen|lia|exact Hclose|lia].
    + change ((c :: a) ++ (x ++ chars " += 1") ++ b)
        with (c :: (a ++ (x ++ chars " += 1") ++ b)).
      apply (within_app_l _ [c]).
      apply (IH (length a)); [|reflexivity].
      rewrite Hm. cbn [length]. lia.
Qed.

(** ** The rewriting of increments *)

Lemma indexOf_cons (needle : text) (c : ascii) (s : text) :
  indexOf needle (c :: s)
  = if isPrefix needle (c :: s) then Some 0 else S <$> indexOf needle s.
Proof. reflexivity. Qed.

Lemma no_increment_left (x : text) :
  forallb isWord x = true ->
  indexOf (chars "++") (x ++ chars " += 1") = None.
Proof.
  induction x as [|c x IH]; intros H; [reflexivity|].
  cbn in H. apply andb_prop in H. destruct H as [Hc Hx].
  cbn [app]. rewrite indexOf_cons, (IH Hx).
  cbn [isPrefix chars list_ascii_of_string].
  replace (ascii_eqb "+" c) with false; [reflexivity|].
  clear -Hc. destruct c as [[] [] [] [] [] [] [] []]; vm_compute in *; congruence.
Qed.

(** *** Text without the trigger of a rewrite *)

Lemma plus_only (c : ascii) :
  ascii_eqb (canon gmi c) (canon gmi "+") = true -> ascii_eqb "+" c = true.
Proof. destruct c as [[] [] [] [] [] [] [] []]; vm_compute; congruence. Qed.

Lemma startsWith_plus_isPrefix (t : text) :
  startsWith gmi (chars "++") t = true -> isPrefix (chars "++") t = true.
Proof.
  destruct t as [|a [|b t]]; cbn; try discriminate.
  - rewrite andb_false_r. discriminate.
  - rewrite andb_true_r. intros H. apply andb_prop in H. destruct H as [Ha Hb].
    rewrite (plus_only a Ha), (plus_only b Hb). reflexivity.
Qed.

Lemma indexOf_None_drop (needle s : text) (n : nat) :
  needle <> [] ->
  indexOf needle s = None -> isPrefix needle (drop n s) = false.
Proof.
  intros Hne. revert n. induction s as [|c s IH]; intros n H.
  - rewrite drop_nil. destruct needle; [congruence|reflexivity].
  - rewrite indexOf_cons in H.
    destruct (isPrefix needle (c :: s)) eqn:Hp; [discriminate|].
    destruct n as [|n]; [exact Hp|]. cbn [drop]. apply IH.
    destruct (indexOf needle s); [discriminate|reflexivity].
Qed.

Lemma locIncrement_without_plus (s : text) :
  indexOf (chars "++") s = None -> locIncrement s = None.
Proof.
  intros H. unfold locIncrement.
  destruct (startsWith gmi (chars "++") (drop (runLength isWord s) s)) eqn:Hs.
  - apply startsWith_plus_isPrefix in Hs.
    rewrite (indexOf_None_drop (chars "++") s _ ltac:(discriminate) H) in Hs. discriminate.
  - rewrite andb_false_r. reflexivity.
Qed.

Lemma incrementStep_without_plus (code : text) :
  indexOf (chars "++") code = None -> incrementStep code = code.
Proof.
  induction code as [|c code IH]; intros H; rewrite incrementStep_unfold.
  - reflexivity.
  - rewrite (locIncrement_without_plus _ H).
    rewrite indexOf_cons in H.
    destruct (isPrefix (chars "++") (c :: code)); [discriminate|].
    rewrite IH; [reflexivity|].
    destruct (indexOf (chars "++") code); [discriminate|reflexivity].
Qed.

Lemma search_nowhere (f : flags) (input : text) (r : regex) (n i : nat) :
  (forall j, matchAt f input r j = None) -> search f input n r i = None.
Proof.
  intros H. revert i. induction n as [|n IH]; intros i; [reflexivity|].
  cbn [search]. rewrite H. apply IH.
Qed.

Lemma matches_nowhere (f : flags) (input : text) (r : regex) :
  (forall j, matchAt f input r j = None) -> matches f input r = [].
Proof.
  intros H. unfold matches. cbn [matchesFrom]. unfold exec.
  rewrite search_nowhere by exact H. reflexivity.
Qed.

Lemma occurs_drop (f : flags) (cs s : text) (i : nat) :
  occurs f cs s = false -> startsWith f cs (drop i s) = false.
Proof.
  revert i. induction s as [|c s IH]; intros i H; cbn [occurs] in H.
  - rewrite drop_nil. rewrite orb_false_r in H. exact H.
  - apply orb_false_elim in H. destruct H as [H0 Hs].
    destruct i as [|i]; [exact H0|]. cbn [drop]. apply IH, Hs.
Qed.

(** A pattern that starts with a literal matches nowhere in a text in
    which the literal does not occur. *)
Lemma literal_absent (f : flags) (input cs : text) (r : regex) :
  occurs f cs input = false ->
  forall j, matchAt f input (Seq (lit cs) r) j = None.
Proof.
  intros H j. unfold matchAt. rewrite compile_Seq, compile_lit.
  cbn [endIndex]. rewrite (occurs_drop _ _ _ j H). reflexivity.
Qed.

Lemma floorStep_without_Math (code : text) :
  occurs gm (chars "Math") code = false -> floorStep code = code.
Proof.
  intros H. unfold floorStep, replace.
  change floorCall with
    (Seq (lit (chars "Math"))
       (sequence [Dot; lit (chars "floor"); Char "("; Group 1 (Plus Dot); Char ")"])).
  rewrite matches_nowhere by (apply literal_absent, H). reflexivity.
Qed.

Lemma definitionStep_without_def (code : text) :
  occurs gmi (chars "def ") code = false -> definitionStep code = (code, []).
Proof.
  intros H. unfold definitionStep, replaceWith.
  change definition with
    (Seq (lit (chars "def "))
       (sequence [Group 1 (Plus word); Char "("; Plus Dot; Char ")"; Char nl;
                  Plus (Group 2 (Seq (Plus Dot) (Char nl)))])).
  rewrite matches_nowhere by (apply literal_absent, H). reflexivity.
Qed.

(** [parse] returns what [correct] makes of the text that the dispatch
    leaves in the buffer. *)
Lemma parse_corrects (E : Engine) (table : list (string * string)) (B : Buffer.Impl)
    (fuel : nat) (node : value) (s s' : state) (out : text) :
  dispatch B fuel node s = Ok tt s' ->
  correct E table (Buffer.render B (buffer s')) = inr out ->
  parse E table B fuel node s = Ok out s'.
Proof.
  intros Hd Hc. unfold parse, recursiveParse, mbind, M_bind, bind.
  rewrite Hd. unfold get. rewrite Hc. reflexivity.
Qed.

(** C8. Let a translation return, and let the text that reaches the
    increment rewrite of [correct] hold a non-empty run of word
    characters followed by [++].  Then the text that [parse] returns
    has the run followed by [ += 1] in its place: what comes before and
    what comes after are rewritten on their own, the print rewrite that
    follows keeps the replacement, and the replacement holds no [++].
    The text that reaches the increment rewrite is the one that the
    table, the floor, the definition and the call site rewrites leave
    of the generated text; it is the text that the table rewrite
    returns when that holds neither [Math] nor [def ]. *)
Theorem postfix_increment_rewritten (E : Engine) (table : list (string * string))
    (B : Buffer.Impl) (fuel : nat) (node : value) (s s' : state)
    (tabled pre x post : text) :
  dispatch B fuel node s = Ok tt s' ->
  applyCorrections E table (Buffer.render B (buffer s')) = inr tabled ->
  x <> [] ->
  forallb isWord x = true ->
  (forall defined higherOrderFuncs,
     definitionStep (floorStep tabled) = (defined, higherOrderFuncs) ->
     callSiteStep higherOrderFuncs defined = pre ++ x ++ chars "++" ++ post ->
     parse E table B fuel node s
     = Ok (putsStep (incrementStep pre ++ x ++ chars " += 1" ++ incrementStep post)) s')
  /\ (tabled = pre ++ x ++ chars "++" ++ post ->
      occurs gm (chars "Math") tabled = false ->
      occurs gmi (chars "def ") tabled = false ->
      parse E table B fuel node s
      = Ok (putsStep (incrementStep pre ++ x ++ chars " += 1" ++ incrementStep post)) s')
  /\ within (x ++ chars " += 1")
       (putsStep (incrementStep pre ++ x ++ chars " += 1" ++ incrementStep post))
  /\ indexOf (chars "++") (x ++ chars " += 1") = None.
Proof.
  intros Hrun Ht Hne Hx.
  assert (Hstep : incrementStep (pre ++ x ++ chars "++" ++ post)
                  = incrementStep pre ++ x ++ chars " += 1" ++ incrementStep post).
  { apply (increment_in_context (length pre)); [lia|exact Hne|exact Hx]. }
  assert (Hgen : forall defined higherOrderFuncs,
             definitionStep (floorStep tabled) = (defined, higherOrderFuncs) ->
             callSiteStep higherOrderFuncs defined = pre ++ x ++ chars "++" ++ post ->
             parse E table B fuel node s
             = Ok (putsStep (incrementStep pre ++ x ++ chars " += 1"
                             ++ incrementStep post)) s').
  { intros defined hof Hd Hc. apply parse_corrects; [exact Hrun|].
    unfold correct. rewrite Ht, Hd, Hc, Hstep. reflexivity. }
  split; [exact Hgen|]. split; [|split].
  - intros Heq Hm Hd. apply (Hgen tabled []).
    + rewrite (floorStep_without_Math _ Hm). apply definitionStep_without_def, Hd.
    + exact Heq.
  - apply putsStep_keeps; [exact Hne|exact Hx|].
    exists (incrementStep pre), (incrementStep post).
    rewrite <- app_assoc. reflexivity.
  - apply no_increment_left. exact Hx.
Qed.

(** [for (let i = 0; i < n; i++) { f(i); }] *)
Lemma postfix_increment_rewritten_witness :
  output (run E B fresh 20 forBlock (VRef 0))
  = Some (chars "i = 0
while (i < n)
  f(i)
  i += 1
end
").
Proof.
  unfold run. cbn [this_corrections this_buffer fresh].
  erewrite (proj1 (proj2 (postfix_increment_rewritten E [] B 20 (VRef 0)
              (State forBlock []) _ _ (chars "i = 0
while (i < n)
  f(i)
  ") (chars "i") (chars "
end
") ltac:(vm_compute; reflexivity) ltac:(vm_compute; reflexivity)
     ltac:(discriminate) eq_refl)) ltac:(vm_compute; reflexivity) eq_refl eq_refl).
  vm_compute. reflexivity.
Defined.

(** [a$++] is translated to [a$++]: the identifier does not end with a
    word character, and the increment rewrite finds no word before
    [++]. *)
Lemma dollar_increment_is_kept :
  output (run E B fresh 20 dollarIncrement (VRef 0)) = Some (chars "a$++")
  /\ correct E [] (chars "a$++") = inr (chars "a$++").
Proof. split; vm_compute; reflexivity. Qed.

(** ** The rewriting of print calls *)

Lemma startsWith_self (f : flags) (cs rest : text) :
  startsWith f cs (cs ++ rest) = true.
Proof.
  induction cs as [|a cs IH]; [reflexivity|]. cbn.
  unfold ascii_eqb at 1. rewrite Nat.eqb_refl. exact IH.
Qed.

Lemma putsStep_copies (pre rest : text) :
  forallb notP pre = true ->
  putsStep (pre ++ rest) = pre ++ putsStep rest.
Proof.
  induction pre as [|c pre IH]; intros H; [reflexivity|].
  cbn in H. apply andb_prop in H. destruct H as [Hc Hpre].
  rewrite putsStep_unfold. cbn [app].
  replace (locPuts (c :: pre ++ rest)) with (@None (nat * text)).
  - rewrite (IH Hpre). reflexivity.
  - unfold locPuts. cbn [startsWith chars list_ascii_of_string].
    unfold notP in Hc. apply negb_true_iff in Hc. rewrite Hc. reflexivity.
Qed.

Lemma locPuts_call (body post : text) :
  body <> [] ->
  forallb inLine body = true ->
  locPuts (chars "puts(" ++ body ++ chars ")" ++ [nl] ++ post)
  = Some (5 + (length body + 1) + 1,
          chars "puts("
          ++ join (chars " + ") (map stringify (split (chars " + ") body))
          ++ chars ")" ++ [nl]).
Proof.
  intros Hne Hbody. unfold locPuts.
  rewrite startsWith_self.
  change (drop 5 (chars "puts(" ++ body ++ chars ")" ++ [nl] ++ post))
    with (body ++ chars ")" ++ [nl] ++ post).
  assert (Hrun : runLength inLine (body ++ chars ")" ++ [nl] ++ post)
                 = length body + 1).
  { change (body ++ chars ")" ++ [nl] ++ post)
      with (body ++ [")"%char] ++ nl :: post).
    rewrite app_assoc.
    rewrite (runLength_all inLine (body ++ [")"%char]) (nl :: post)).
    - rewrite length_app. reflexivity.
    - rewrite forallb_app, Hbody. reflexivity.
    - reflexivity. }
  rewrite Hrun.
  replace (length body + 1 - 1) with (length body) by lia.
  rewrite drop_app_length, take_app_length.
  destruct (Nat.leb_spec 2 (length body + 1)) as [_|Hlt].
  - reflexivity.
  - destruct body; [congruence|]. cbn in Hlt. lia.
Qed.

(** A print call on a line of its own is rewritten in place. *)
Lemma putsStep_call (pre body post : text) :
  forallb notP pre = true ->
  body <> [] ->
  forallb inLine body = true ->
  putsStep (pre ++ chars "puts(" ++ body ++ chars ")" ++ [nl] ++ post)
  = pre ++ chars "puts("
    ++ join (chars " + ") (map stringify (split (chars " + ") body))
    ++ chars ")" ++ [nl] ++ putsStep post.
Proof.
  intros Hpre Hne Hbody.
  rewrite putsStep_copies by exact Hpre. f_equal.
  rewrite putsStep_unfold, locPuts_call by assumption.
  replace (5 + (length body + 1) + 1)
    with (length (chars "puts(" ++ body ++ chars ")" ++ [nl]))
    by (rewrite !length_app; cbn; lia).
  replace (chars "puts(" ++ body ++ chars ")" ++ [nl] ++ post)
    with ((chars "puts(" ++ body ++ chars ")" ++ [nl]) ++ post)
    by (rewrite <- !app_assoc; reflexivity).
  rewrite drop_app_length. rewrite <- !app_assoc. reflexivity.
Qed.

Lemma wholeLines_drop (k : nat) (s : text) : wholeLines s -> wholeLines (drop k s).
Proof.
  intros [->|[t ->]]; [left; apply drop_nil|].
  destruct (Nat.le_gt_cases k (length t)) as [Hle|Hgt].
  - right. exists (drop k t). rewrite drop_app_le by exact Hle. reflexivity.
  - left. apply drop_ge. rewrite length_app. cbn. lia.
Qed.

Lemma terminator_is_not_puts (tm : ascii) :
  inLine tm = false ->
  forallb (fun c => negb (ascii_eqb (canon gmi tm) (canon gmi c))) (chars "puts(") = true.
Proof. destruct tm as [[] [] [] [] [] [] [] []]; vm_compute; congruence. Qed.

(** What follows a character that the pattern cannot match does not
    count. *)
Lemma startsWith_cut (cs a y y' : list ascii) (tm : ascii) :
  forallb (fun c => negb (ascii_eqb (canon gmi tm) (canon gmi c))) cs = true ->
  startsWith gmi cs (a ++ tm :: y) = startsWith gmi cs (a ++ tm :: y').
Proof.
  revert a. induction cs as [|c cs IH]; intros a H; [reflexivity|].
  cbn [forallb] in H. apply andb_prop in H. destruct H as [Hc Hcs].
  destruct a as [|x a]; cbn [app startsWith].
  - apply negb_true_iff in Hc. rewrite Hc. reflexivity.
  - rewrite (IH a Hcs). reflexivity.
Qed.

Lemma startsWith_before (cs a y : list ascii) (tm : ascii) :
  forallb (fun c => negb (ascii_eqb (canon gmi tm) (canon gmi c))) cs = true ->
  startsWith gmi cs (a ++ tm :: y) = true -> length cs <= length a.
Proof.
  revert a. induction cs as [|c cs IH]; intros a H Hs; [cbn; lia|].
  cbn [forallb] in H. apply andb_prop in H. destruct H as [Hc Hcs].
  destruct a as [|x a]; cbn [app startsWith] in Hs.
  - apply negb_true_iff in Hc. rewrite Hc in Hs. discriminate Hs.
  - apply andb_prop in Hs. destruct Hs as [_ Hs]. cbn. specialize (IH a Hcs Hs). lia.
Qed.

Lemma forallb_drop {A} (p : A -> bool) (k : nat) (s : list A) :
  forallb p s = true -> forallb p (drop k s) = true.
Proof.
  revert k. induction s as [|x s IH]; intros k H; [rewrite drop_nil; reflexivity|].
  destruct k as [|k]; [exact H|]. cbn in *. apply andb_prop in H. apply IH, H.
Qed.

(** A print call is looked for on one line: the text after the end of
    the line does not count. *)
Lemma locPuts_line (a y y' : list ascii) (tm : ascii) :
  forallb inLine a = true -> inLine tm = false ->
  locPuts (a ++ tm :: y) = locPuts (a ++ tm :: y').
Proof.
  intros Ha Htm. unfold locPuts. cbv zeta.
  rewrite (startsWith_cut _ a y y' tm (terminator_is_not_puts tm Htm)).
  destruct (startsWith gmi (chars "puts(") (a ++ tm :: y')) eqn:Hs; [|reflexivity].
  apply (startsWith_before _ _ _ _ (terminator_is_not_puts tm Htm)) in Hs.
  change (length (chars "puts(")) with 5 in Hs.
  rewrite (drop_app_le a (tm :: y) 5 Hs), (drop_app_le a (tm :: y') 5 Hs).
  pose proof (forallb_drop inLine 5 a Ha) as Ha'.
  rewrite (runLength_all inLine (drop 5 a) (tm :: y) Ha' Htm),
    (runLength_all inLine (drop 5 a) (tm :: y') Ha' Htm).
  set (a' := drop 5 a) in *.
  destruct (Nat.leb_spec 2 (length a')) as [Hn|Hn]; [|reflexivity].
  cbn [andb].
  rewrite (drop_app_le a' (tm :: y)), (drop_app_le a' (tm :: y')) by lia.
  rewrite (take_app_le a' (tm :: y)), (take_app_le a' (tm :: y')) by lia.
  assert (Hlast : exists x, drop (length a' - 1) a' = [x]).
  { destruct (drop (length a' - 1) a') as [|x [|x' r]] eqn:Hd.
    - apply (f_equal length) in Hd. rewrite length_drop in Hd. cbn in Hd. lia.
    - exists x. reflexivity.
    - apply (f_equal length) in Hd. rewrite length_drop in Hd. cbn in Hd. lia. }
  destruct Hlast as [x ->]. reflexivity.
Qed.

Lemma first_terminator (s : list ascii) :
  s <> [] -> wholeLines s ->
  exists a tm y, s = a ++ tm :: y /\ forallb inLine a = true /\ inLine tm = false.
Proof.
  intros Hne [->|[t ->]]; [congruence|]. clear Hne.
  induction t as [|c t IH].
  - exists [], nl, []. repeat split; reflexivity.
  - destruct (inLine c) eqn:Hc.
    + destruct IH as (a & tm & y & Heq & Ha & Htm).
      exists (c :: a), tm, y. cbn [app]. rewrite Heq.
      split; [reflexivity|]. split; [|exact Htm].
      cbn. rewrite Hc. exact Ha.
    + exists [], c, (t ++ [nl]).
      split; [reflexivity|]. split; [reflexivity|exact Hc].
Qed.

(** The print rewrite works line by line. *)
Lemma putsStep_lines (lines rest : list ascii) :
  wholeLines lines ->
  putsStep (lines ++ rest) = putsStep lines ++ putsStep rest.
Proof.
  remember (length lines) as m eqn:Hm. revert lines Hm.
  induction m as [m IH] using lt_wf_ind. intros lines Hm Hw.
  destruct lines as [|c l]; [reflexivity|].
  destruct (first_terminator (c :: l) ltac:(discriminate) Hw)
    as (a & tm & y & Heq & Ha & Htm).
  assert (Hloc : locPuts ((c :: l) ++ rest) = locPuts (c :: l)).
  { rewrite Heq, <- app_assoc. cbn [app]. apply locPuts_line; assumption. }
  rewrite (putsStep_unfold ((c :: l) ++ rest)), (putsStep_unfold (c :: l)), Hloc.
  pose proof (puts_loc (c :: l) 0 ltac:(lia)) as Hp. cbn [drop] in Hp.
  destruct (locPuts (c :: l)) as [[len out]|].
  - destruct Hp as (Hpos & Hlen & _). cbn [Nat.add] in Hlen.
    rewrite drop_app_le by exact Hlen.
    rewrite (IH (length (drop len (c :: l)))); [rewrite <- app_assoc; reflexivity| |reflexivity|].
    + rewrite length_drop. subst m. cbn [length] in *. lia.
    + apply wholeLines_drop, Hw.
  - cbn [app]. rewrite (IH (length l)); [reflexivity|subst m; cbn; lia|reflexivity|].
    change l with (drop 1 (c :: l)). apply wholeLines_drop, Hw.
Qed.

(** C9. Let a translation return, and let the text that reaches the
    print rewrite of [correct] hold a print call [puts(...)] that ends
    its line, with no [p] before it on its line.  Then the text that
    [parse] returns has in its place one [puts] call made of the pieces
    into which [split(' + ')] cuts what stands between the parentheses:
    a piece that starts with a quote is left as it is, any other piece
    [a] becomes [(a).to_s].  The lines before the call and the text
    after it are rewritten on their own.  The text that reaches the
    print rewrite is the one that the five rewrites before it leave of
    the generated text; it is the text that the table rewrite returns
    when that holds neither [Math], nor [def ], nor [++]. *)
Theorem print_arguments_stringified (E : Engine) (table : list (string * string))
    (B : Buffer.Impl) (fuel : nat) (node : value) (s s' : state)
    (tabled lines indent body post : text) :
  dispatch B fuel node s = Ok tt s' ->
  applyCorrections E table (Buffer.render B (buffer s')) = inr tabled ->
  wholeLines lines ->
  forallb notP indent = true ->
  body <> [] ->
  forallb inLine body = true ->
  (forall defined higherOrderFuncs,
     definitionStep (floorStep tabled) = (defined, higherOrderFuncs) ->
     incrementStep (callSiteStep higherOrderFuncs defined)
     = lines ++ indent ++ chars "puts(" ++ body ++ chars ")" ++ [nl] ++ post ->
     parse E table B fuel node s
     = Ok (putsStep lines ++ indent ++ chars "puts("
           ++ join (chars " + ") (map stringify (split (chars " + ") body))
           ++ chars ")" ++ [nl] ++ putsStep post) s')
  /\ (tabled = lines ++ indent ++ chars "puts(" ++ body ++ chars ")" ++ [nl] ++ post ->
      occurs gm (chars "Math") tabled = false ->
      occurs gmi (chars "def ") tabled = false ->
      indexOf (chars "++") tabled = None ->
      parse E table B fuel node s
      = Ok (putsStep lines ++ indent ++ chars "puts("
            ++ join (chars " + ") (map stringify (split (chars " + ") body))
            ++ chars ")" ++ [nl] ++ putsStep post) s')
  /\ (forall c arg, c = squote \/ c = dquote -> stringify (c :: arg) = c :: arg)
  /\ (forall arg, (forall c rest, arg = c :: rest -> c <> squote /\ c <> dquote) ->
        stringify arg = chars "(" ++ arg ++ chars ").to_s").
Proof.
  intros Hrun Ht Hlines Hpre Hne Hbody.
  assert (Hgen : forall defined higherOrderFuncs,
             definitionStep (floorStep tabled) = (defined, higherOrderFuncs) ->
             incrementStep (callSiteStep higherOrderFuncs defined)
             = lines ++ indent ++ chars "puts(" ++ body ++ chars ")" ++ [nl] ++ post ->
             parse E table B fuel node s
             = Ok (putsStep lines ++ indent ++ chars "puts("
                   ++ join (chars " + ") (map stringify (split (chars " + ") body))
                   ++ chars ")" ++ [nl] ++ putsStep post) s').
  { intros defined hof Hd Hc. apply parse_corrects; [exact Hrun|].
    unfold correct. rewrite Ht, Hd, Hc. f_equal.
    rewrite putsStep_lines by exact Hlines. f_equal.
    apply putsStep_call; assumption. }
  split; [exact Hgen|]. split; [|split].
  - intros Heq Hm Hd Hi. apply (Hgen tabled []).
    + rewrite (floorStep_without_Math _ Hm). apply definitionStep_without_def, Hd.
    + change (callSiteStep [] tabled) with tabled.
      rewrite (incrementStep_without_plus _ Hi). exact Heq.
  - intros c arg [-> | ->]; reflexivity.
  - intros [|c rest] H; [reflexivity|].
    destruct (H c rest eq_refl) as [Hs Hq]. unfold stringify.
    replace (ascii_eqb c squote) with false.
    + replace (ascii_eqb c dquote) with false; [reflexivity|].
      symmetry. apply Nat.eqb_neq. intros Heq. apply Hq.
      rewrite <- (ascii_nat_embedding c), Heq. reflexivity.
    + symmetry. apply Nat.eqb_neq. intros Heq. apply Hs.
      rewrite <- (ascii_nat_embedding c), Heq. reflexivity.
Qed.

(** [p; puts(a + "b");] *)
Lemma print_arguments_stringified_witness :
  output (run E B fresh 20 putsSum (VRef 0))
  = Some (chars "p" ++ [nl] ++ chars "puts((a).to_s + " ++ quoted "b"
          ++ chars ")" ++ [nl]).
Proof.
  unfold run. cbn [this_corrections this_buffer fresh].
  erewrite (proj1 (proj2 (print_arguments_stringified E [] B 20 (VRef 0)
              (State putsSum []) _ _ (chars "p" ++ [nl]) []
              (chars "a + " ++ quoted "b") []
              ltac:(vm_compute; reflexivity) ltac:(vm_compute; reflexivity)
              (or_intror (ex_intro _ (chars "p") eq_refl)) eq_refl
              ltac:(discriminate) eq_refl))
            ltac:(vm_compute; reflexivity) eq_refl eq_refl eq_refl).
  vm_compute. reflexivity.
Defined.

(** [puts("x + y" + z);]: the string literal holds the separator and is
    cut in two, and its second half is wrapped. *)
Lemma string_literal_is_split :
  output (run E B fresh 20 putsJoined (VRef 0))
  = Some (chars "puts(" ++ quoted "x + (y" ++ chars ").to_s + (z).to_s)" ++ [nl])
  /\ correct E [] (chars "puts(" ++ quoted "x + y" ++ chars " + z)" ++ [nl])
     = inr (chars "puts(" ++ quoted "x + (y" ++ chars ").to_s + (z).to_s)" ++ [nl]).
Proof. split; vm_compute; reflexivity. Qed.

(** ** Applying the corrections twice *)

Lemma splitAux_whole (piece s : text) :
  forallb plain s = true ->
  splitAux (chars " + ") 0 piece s = [piece ++ s].
Proof.
  revert piece. induction s as [|c s IH]; intros piece H.
  - cbn. rewrite app_nil_r. reflexivity.
  - cbn in H. apply andb_prop in H. destruct H as [Hc Hs].
    unfold plain in Hc. apply andb_prop in Hc. destruct Hc as [_ Hc].
    apply negb_true_iff in Hc.
    cbn [splitAux isPrefix chars list_ascii_of_string]. rewrite Hc. cbn [andb].
    rewrite (IH _ Hs), <- app_assoc. reflexivity.
Qed.

Lemma plain_inLine (s : text) : forallb plain s = true -> forallb inLine s = true.
Proof.
  induction s as [|c s IH]; intros H; [reflexivity|].
  cbn in *. apply andb_prop in H. destruct H as [Hc Hs].
  unfold plain in Hc. apply andb_prop in Hc. destruct Hc as [-> _].
  apply IH, Hs.
Qed.

(** [puts(a)] for one argument without spaces. *)
Lemma putsStep_single (pre a post : text) :
  forallb notP pre = true ->
  a <> [] ->
  forallb plain a = true ->
  putsStep (pre ++ chars "puts(" ++ a ++ chars ")" ++ [nl] ++ post)
  = pre ++ chars "puts(" ++ stringify a ++ chars ")" ++ [nl] ++ putsStep post.
Proof.
  intros Hpre Hne Ha.
  rewrite putsStep_call; [|exact Hpre|exact Hne|apply plain_inLine, Ha].
  unfold split. rewrite (splitAux_whole [] a Ha). reflexivity.
Qed.

Lemma incrementStep_stable (x : text) :
  forallb isWord x = true ->
  incrementStep (x ++ chars " += 1") = x ++ chars " += 1".
Proof.
  induction x as [|c x IH]; intros H; [vm_compute; reflexivity|].
  rewrite incrementStep_unfold.
  replace (locIncrement ((c :: x) ++ chars " += 1")) with (@None (nat * text)).
  - cbn in H. apply andb_prop in H. cbn [app]. rewrite IH by apply H. reflexivity.
  - unfold locIncrement.
    rewrite (runLength_all isWord (c :: x) (chars " += 1") H eq_refl).
    rewrite drop_app_length. cbn. reflexivity.
Qed.




(** ** Two calls of [parse] on one translator *)

Lemma parse_returns_correction (E : Engine) (table : list (string * string))
    (B : Buffer.Impl) (fuel : nat) (node : value) (s s' : state) (t : text) :
  parse E table B fuel node s = Ok t s' ->
  exists calls,
    buffer s' = buffer s ++ calls
    /\ correct E table (Buffer.render B (buffer s ++ calls)) = inr t.
Proof.
  unfold parse, recursiveParse, mbind, M_bind, bind.
  pose proof (dispatch_respects B fuel node s) as H.
  destruct (dispatch B fuel node s) as [[] s1|e s1|w]; try discriminate.
  unfold get. destruct H as [[calls Hb] _].
  destruct (correct E table _) as [e|t'] eqn:Hc; [discriminate|].
  intros Heq. inversion Heq; subst. exists calls. split; [exact Hb|].
  rewrite <- Hb. exact Hc.
Qed.

(** C10. [parse] adds to the buffer of the translator and never empties
    it: what a second call returns is the correction of the text of both
    runs, the calls of the first run followed by those of the second.
    After [clear()] a call starts from an empty buffer again. *)
Theorem second_parse_corrects_both_runs (E : Engine)
    (table : list (string * string)) (B : Buffer.Impl) (fuel1 fuel2 : nat)
    (node : value) (s s1 s2 : state) (t1 t2 : text) :
  parse E table B fuel1 node s = Ok t1 s1 ->
  parse E table B fuel2 node s1 = Ok t2 s2 ->
  (exists calls1 calls2,
     buffer s1 = buffer s ++ calls1
     /\ buffer s2 = buffer s ++ calls1 ++ calls2
     /\ correct E table (Buffer.render B (buffer s ++ calls1)) = inr t1
     /\ correct E table (Buffer.render B (buffer s ++ calls1 ++ calls2)) = inr t2)
  /\ (clear ≫= fun _ => parse E table B fuel2 node) s1
     = parse E table B fuel2 node (State (heap s1) []).
Proof.
  intros H1 H2. split; [|reflexivity].
  destruct (parse_returns_correction _ _ _ _ _ _ _ _ H1) as (calls1 & Hb1 & Hc1).
  destruct (parse_returns_correction _ _ _ _ _ _ _ _ H2) as (calls2 & Hb2 & Hc2).
  exists calls1, calls2. rewrite Hb1 in Hb2, Hc2. rewrite <- app_assoc in Hb2, Hc2.
  repeat split; assumption.
Qed.

(** [x] twice: the second call returns [xx]. *)
Lemma second_parse_corrects_both_runs_witness :
  parseTwice E [] B 5 [ident "x"] (VRef 0) = Some (chars "x", chars "xx")
  /\ exists calls1 calls2,
       [Add (VStr "x")] = [] ++ calls1
       /\ [Add (VStr "x"); Add (VStr "x")] = [] ++ calls1 ++ calls2
       /\ correct E [] (Buffer.render B ([] ++ calls1)) = inr (chars "x")
       /\ correct E [] (Buffer.render B ([] ++ calls1 ++ calls2)) = inr (chars "xx").
Proof.
  split; [vm_compute; reflexivity|].
  apply (second_parse_corrects_both_runs E [] B 5 5 (VRef 0)
           (State [ident "x"] [])
           (State [ident "x"] [Add (VStr "x")])
           (State [ident "x"] [Add (VStr "x"); Add (VStr "x")])
           (chars "x") (chars "xx")); vm_compute; reflexivity.
Defined.

(** Translating the expression [Math.floor(x)] twice: the second text
    does not start with the first.  Translating the empty program twice:
    the two texts are equal. *)
Lemma second_output_does_not_extend_first :
  parseTwice E [] B 20 floorOfX (VRef 0)
  = Some (chars "(x).floor", chars "(x)Math.floor(x).floor")
  /\ (forall rest, chars "(x)Math.floor(x).floor" <> chars "(x).floor" ++ rest)
  /\ parseTwice E [] B 20 emptyProgram (VRef 0) = Some ([], []).
Proof.
  split; [vm_compute; reflexivity|]. split; [|vm_compute; reflexivity].
  intros rest H. cbn in H. discriminate.
Qed.

(** * Further properties *)

(** ** Nodes that are not nodes *)

(** X1. Dispatching a value without a [type] (null, undefined, a
    primitive, an array, an object that has no [type]) raises a
    TypeError: nothing is emitted and the store is as it was.  Such
    values are what a missing child of a node is. *)
Theorem untagged_node_throws (E : Engine) (table : list (string * string))
    (B : Buffer.Impl) (fuel : nat) (v : value) (s : state) :
  untagged (heap s) v ->
  dispatch B (S fuel) v s = Throw TypeError s
  /\ recursiveParse B (S fuel) v s = Throw TypeError s
  /\ parse E table B (S fuel) v s = Throw TypeError s.
Proof.
  intros Hv.
  assert (Hd : dispatch B (S fuel) v s = Throw TypeError s).
  { cbn [dispatch]. unfold invoke, mbind, M_bind, bind, getProp.
    destruct v as [| |b|n|d|str|l]; cbn in Hv; try reflexivity.
    destruct (heap s !! l) as [[o|a]|]; [| |destruct Hv].
    - rewrite Hv. reflexivity.
    - reflexivity. }
  split; [exact Hd|].
  assert (Hr : recursiveParse B (S fuel) v s = Throw TypeError s).
  { unfold recursiveParse, mbind, M_bind, bind. rewrite Hd. reflexivity. }
  split; [exact Hr|].
  unfold parse, mbind, M_bind, bind. rewrite Hr. reflexivity.
Qed.

Lemma untagged_node_throws_witness :
  run E B fresh 5 [CArr [VNull]] VNull = Throw TypeError (State [CArr [VNull]] []).
Proof.
  unfold run.
  apply (untagged_node_throws E [] B 4 VNull (State [CArr [VNull]] [])).
  exact I.
Defined.

(** ** The correction table *)

(** X2. The table step fails exactly when the table holds a pattern that
    the engine refuses, whatever the text: no text makes a valid table
    fail, and none makes an invalid one pass. *)
Theorem table_fails_iff_invalid (E : Engine) (table : list (string * string))
    (code : text) :
  (exists e, applyCorrections E table code = inl e)
  <-> Exists (fun entry => construct E entry.1 "gmi" = None) table.
Proof.
  revert code. induction table as [|[k v] table IH]; intros code.
  - split; [intros [e He]; discriminate He|intros H; inversion H].
  - cbn [applyCorrections]. destruct (construct E k "gmi") as [r|] eqn:Hk.
    + rewrite IH. split; [intros H; right; exact H|].
      intros H. inversion H as [? ? Hbad|? ? Hrest]; subst; [|exact Hrest].
      cbn in Hbad. congruence.
    + split; [intros _; left; exact Hk|intros _; eexists; reflexivity].
Qed.

(** X3. Applying a table made of two parts is applying the first part
    and then the second to its result: the entries are used in the order
    of the table, each on the text the entries before it have produced. *)
Theorem table_parts_compose (E : Engine) (t1 t2 : list (string * string))
    (code : text) :
  applyCorrections E (t1 ++ t2) code
  = match applyCorrections E t1 code with
    | inl e => inl e
    | inr code' => applyCorrections E t2 code'
    end.
Proof.
  revert code. induction t1 as [|[k v] t1 IH]; intros code; [reflexivity|].
  cbn [app applyCorrections]. destruct (construct E k "gmi"); [apply IH|reflexivity].
Qed.

(** ** Text that the rewrites leave alone *)

(** X4. Text that holds no [++] is left as it is by the increment
    step. *)
Theorem increment_needs_plus_plus (code : text) :
  indexOf (chars "++") code = None -> incrementStep code = code.
Proof. apply incrementStep_without_plus. Qed.

Lemma increment_needs_plus_plus_witness :
  incrementStep (chars "i += 1 + j") = chars "i += 1 + j".
Proof. apply increment_needs_plus_plus. reflexivity. Defined.

Lemma newline_only (c : ascii) :
  ascii_eqb (canon gmi c) (canon gmi nl) = true -> c = nl.
Proof. destruct c as [[] [] [] [] [] [] [] []]; vm_compute; congruence. Qed.

Lemma locPuts_without_newline (s : list ascii) :
  ~ In nl s -> locPuts s = None.
Proof.
  intros Hnl. destruct (locPuts s) as [[len out]|] eqn:Hloc; [exfalso|reflexivity].
  destruct (locPuts_Some _ _ _ Hloc) as (n & _ & _ & Hclose & _).
  destruct (startsWith_lookup _ _ _ 1 nl Hclose eq_refl) as (c & Hc & Heq).
  apply newline_only in Heq. subst c.
  rewrite !lookup_drop in Hc. apply Hnl.
  apply list_elem_of_In. eapply list_elem_of_lookup_2. exact Hc.
Qed.

(** X5. The print rewrite applies to calls that end their line only:
    text that holds no newline is left as it is, a [puts] call on a last
    line that is not terminated included. *)
Theorem print_rewrite_needs_newline (code : list ascii) :
  ~ In nl code -> putsStep code = code.
Proof.
  induction code as [|c code IH]; intros H; rewrite putsStep_unfold.
  - reflexivity.
  - rewrite (locPuts_without_newline _ H).
    rewrite IH; [reflexivity|]. intros Hin. apply H. right. exact Hin.
Qed.

Lemma print_rewrite_needs_newline_witness :
  putsStep (chars "puts(a + b)") = chars "puts(a + b)".
Proof.
  apply print_rewrite_needs_newline.
  cbn. intros H. repeat (destruct H as [H|H]; [discriminate H|]). exact H.
Defined.

Lemma putsStep_without_puts (code : text) :
  occurs gmi (chars "puts(") code = false -> putsStep code = code.
Proof.
  induction code as [|c code IH]; intros H; rewrite putsStep_unfold.
  - reflexivity.
  - cbn [occurs] in H. apply orb_false_elim in H. destruct H as [H0 Hs].
    unfold locPuts. rewrite H0. rewrite (IH Hs). reflexivity.
Qed.

(** X6. The rewrites of [correct] are triggered by [Math], [def ],
    [++] and [puts(]: when the text that the table step returns holds
    none of them, [correct] returns that text. *)
Theorem correct_without_triggers (E : Engine) (table : list (string * string))
    (code code' : text) :
  applyCorrections E table code = inr code' ->
  occurs gm (chars "Math") code' = false ->
  occurs gmi (chars "def ") code' = false ->
  indexOf (chars "++") code' = None ->
  occurs gmi (chars "puts(") code' = false ->
  correct E table code = inr code'.
Proof.
  intros Ht Hm Hd Hi Hp. unfold correct. rewrite Ht.
  rewrite (floorStep_without_Math _ Hm), (definitionStep_without_def _ Hd).
  change (callSiteStep [] code') with code'.
  rewrite (incrementStep_without_plus _ Hi), (putsStep_without_puts _ Hp).
  reflexivity.
Qed.

Lemma correct_without_triggers_witness :
  correct E [] (chars "x = (a + b) * c") = inr (chars "x = (a + b) * c").
Proof.
  apply (correct_without_triggers E [] (chars "x = (a + b) * c"));
    reflexivity.
Defined.

(** ** Indentation *)

Lemma depth_app (n : nat) (a b : list call) :
  depth n (a ++ b) = match depth n a with
                     | Some n' => depth n' b
                     | None => None
                     end.
Proof.
  revert n. induction a as [|c a IH]; intros n; [reflexivity|].
  cbn [app depth]. destruct (level n c); [apply IH|reflexivity].
Qed.

Lemma quiet_balanced {A} (m : M A) : quiet m -> balanced m.
Proof.
  intros H s. specialize (H s). destruct (m s); try exact I.
  exists []. rewrite app_nil_r. split; [exact H|reflexivity].
Qed.

Lemma reads_quiet {A} (m : M A) : reads m -> quiet m.
Proof.
  intros H s. specialize (H s). destruct (m s); try exact I. subst. reflexivity.
Qed.

Lemma balanced_ret {A} (a : A) : balanced (mret a).
Proof. apply quiet_balanced. intros s. reflexivity. Qed.

Lemma balanced_throw {A} (e : exn) : balanced (@throw A e).
Proof. intros s. exact I. Qed.

Lemma balanced_beyond {A} (w : limit) : balanced (@beyond A w).
Proof. intros s. exact I. Qed.

Lemma balanced_bind {A C} (m : M A) (k : A -> M C) :
  balanced m -> (forall a, balanced (k a)) -> balanced (m ≫= k).
Proof.
  intros Hm Hk s. unfold mbind, M_bind, bind.
  specialize (Hm s). destruct (m s) as [a s1| |]; try exact I.
  specialize (Hk a s1). destruct (k a s1) as [c s2| |]; try exact I.
  destruct Hm as (c1 & Hb1 & Hd1). destruct Hk as (c2 & Hb2 & Hd2).
  exists (c1 ++ c2). split.
  - rewrite Hb2, Hb1, app_assoc. reflexivity.
  - intros n. rewrite depth_app, Hd1. apply Hd2.
Qed.

Lemma balanced_forLoop (fuel : nat) (cond : nat -> M bool) (body : nat -> M unit)
    (i : nat) :
  (forall j, balanced (cond j)) -> (forall j, balanced (body j)) ->
  balanced (forLoop fuel cond body i).
Proof.
  intros Hc Hb. revert i. induction fuel as [|fuel IH]; intros i.
  - apply balanced_beyond.
  - cbn [forLoop]. apply balanced_bind; [apply Hc|].
    intros [|]; [|apply balanced_ret].
    apply balanced_bind; [apply Hb|]. intros _. apply IH.
Qed.

Lemma balanced_emit (c : call) :
  (forall n, level n c = Some n) -> balanced (emit c).
Proof.
  intros H s. exists [c]. split; [reflexivity|].
  intros n. cbn [depth]. rewrite H. reflexivity.
Qed.

Lemma quiet_setProp (v x : value) (k : string) : quiet (setProp v k x).
Proof.
  intros s. unfold setProp. destruct v; try exact I.
  destruct (heap s !! l) as [[o|a]|]; try exact I. reflexivity.
Qed.

Lemma quiet_push (v x : value) : quiet (push v x).
Proof.
  intros s. unfold push. destruct v; try exact I.
  destruct (heap s !! l) as [[o|a]|]; try exact I. reflexivity.
Qed.

Lemma quiet_alloc (c : cell) : quiet (alloc c).
Proof. intros s. reflexivity. Qed.

Lemma quiet_objectAssign (target source : value) :
  quiet (objectAssign target source).
Proof.
  intros s. unfold objectAssign, mbind, M_bind, bind, ownProps, copyInto.
  assert (H : forall (m : gmap string value),
             match
               match target with
               | VRef l =>
                   match heap s !! l with
                   | Some (CObj o) =>
                       Ok tt (State (<[l := CObj (m ∪ o)]> (heap s)) (buffer s))
                   | _ => Beyond OutsideModel
                   end
               | _ => Beyond OutsideModel
               end
             with
             | Ok _ s' => buffer s' = buffer s
             | _ => True
             end).
  { intros m. destruct target; try exact I.
    destruct (heap s !! l) as [[o|a]|]; try exact I. reflexivity. }
  destruct source; try apply H.
  destruct (heap s !! l) as [[o|a]|]; try exact I; apply H.
Qed.

Create HintDb balanced.

#[local] Hint Resolve balanced_ret balanced_throw balanced_beyond : balanced.
#[local] Hint Extern 1 (balanced (getProp _ _)) =>
  apply quiet_balanced, reads_quiet, reads_getProp : balanced.
#[local] Hint Extern 1 (balanced (getIndex _ _)) =>
  apply quiet_balanced, reads_quiet, reads_getIndex : balanced.
#[local] Hint Extern 1 (balanced (toString _)) =>
  apply quiet_balanced, reads_quiet, reads_toString : balanced.
#[local] Hint Extern 1 (balanced (keyed _)) =>
  apply quiet_balanced, reads_quiet, reads_keyed : balanced.
#[local] Hint Extern 1 (balanced (looseEqStr _ _)) =>
  apply quiet_balanced, reads_quiet, reads_looseEqStr : balanced.
#[local] Hint Extern 1 (balanced (ltNat _ _)) =>
  apply quiet_balanced, reads_quiet, reads_ltNat : balanced.
#[local] Hint Extern 1 (balanced (looseEqNat _ _)) =>
  apply quiet_balanced, reads_quiet, reads_looseEqNat : balanced.
#[local] Hint Extern 1 (balanced (gtZero _)) =>
  apply quiet_balanced, reads_quiet, reads_gtZero : balanced.
#[local] Hint Extern 1 (balanced (jsonStringify _)) =>
  apply quiet_balanced, reads_quiet, reads_jsonStringify : balanced.
#[local] Hint Extern 1 (balanced (setProp _ _ _)) =>
  apply quiet_balanced, quiet_setProp : balanced.
#[local] Hint Extern 1 (balanced (push _ _)) =>
  apply quiet_balanced, quiet_push : balanced.
#[local] Hint Extern 1 (balanced (alloc _)) =>
  apply quiet_balanced, quiet_alloc : balanced.
#[local] Hint Extern 1 (balanced (objectAssign _ _)) =>
  apply quiet_balanced, quiet_objectAssign : balanced.
#[local] Hint Extern 1 (balanced (emit _)) =>
  apply balanced_emit; intros ?; reflexivity : balanced.
#[local] Hint Extern 1 (balanced (JS.add _)) =>
  apply balanced_emit; intros ?; reflexivity : balanced.

Ltac step_balanced :=
  match goal with
  | |- balanced (_ ≫= _) => apply balanced_bind; [|intros ?]
  | |- balanced (forLoop _ _ _ _) => apply balanced_forLoop; intros ?
  | |- balanced (if ?b then _ else _) => destruct b
  | |- balanced _ => solve [auto with balanced]
  end.

Section Balanced.

Variable recursiveParse : value -> M text.
Variable dispatch : value -> M unit.
Variable fuel : nat.
Hypothesis balanced_recursiveParse : forall v, balanced (recursiveParse v).
Hypothesis balanced_dispatch : forall v, balanced (dispatch v).

(** A block indents, emits its statements and dedents. *)
Lemma balanced_BlockStatement (node : value) :
  balanced (BlockStatement recursiveParse fuel node).
Proof using balanced_recursiveParse.
  assert (Hinner : balanced (TranspilerSuper.BlockStatement recursiveParse fuel node)).
  { unfold TranspilerSuper.BlockStatement. repeat step_balanced. }
  intros s. unfold BlockStatement, mbind, M_bind, bind, emit, JS.add, emit.
  cbn [heap buffer].
  specialize (Hinner (State (heap s) ((buffer s ++ [Indent]) ++ [Newline]))).
  destruct (TranspilerSuper.BlockStatement _ _ _ _) as [[] s1| |]; try exact I.
  destruct Hinner as (calls & Hb & Hd). cbn [heap buffer] in *.
  exists ([Indent; Newline] ++ calls ++ [Trim; Dedent; Newline; Add (VStr "end"); Newline]).
  split.
  - rewrite Hb, <- !app_assoc. reflexivity.
  - intros n. cbn [app depth level]. rewrite depth_app, Hd. reflexivity.
Qed.

Lemma members_balanced :
  Forall (fun e => match e.2 with
                   | Method f => forall node, balanced (f node)
                   | _ => True
                   end)
    (members recursiveParse dispatch fuel).
Proof using balanced_recursiveParse balanced_dispatch.
  unfold members, instanceFields, rubyPrototype, superPrototype, objectPrototype.
  cbn [app].
  repeat (apply Forall_cons_2; [cbn [snd]; first [exact I | intros node]|]).
  all: try apply Forall_nil_2.
  all: try apply balanced_BlockStatement.
  all: unfold inert, refuse, ExpressionStatement, FunctionDeclaration, IfStatement,
    VariableDeclaration, ReturnStatement, ForStatement, UpdateExpression,
    TranspilerSuper.File, TranspilerSuper.Program,
    TranspilerSuper.ExpressionStatement, TranspilerSuper.ImportDeclaration,
    TranspilerSuper.FunctionDeclaration, TranspilerSuper.AssignmentExpression,
    TranspilerSuper.VariableDeclaration,
    TranspilerSuper.VariableDeclarator, TranspilerSuper.ReturnStatement,
    TranspilerSuper.CallExpression, TranspilerSuper.MemberExpression,
    TranspilerSuper.UnaryExpression, TranspilerSuper.BinaryExpression,
    TranspilerSuper.operand, TranspilerSuper.ConditionalExpression,
    TranspilerSuper.LogicalExpression, TranspilerSuper.WhileStatement,
    TranspilerSuper.DoWhileStatement, TranspilerSuper.Identifier,
    TranspilerSuper.Literal, TranspilerSuper.NumericLiteral,
    TranspilerSuper.StringLiteral, TranspilerSuper.BooleanLiteral,
    TranspilerSuper.RegExpLiteral, TranspilerSuper.ArrayExpression.
  all: repeat step_balanced.
Qed.

Lemma invoke_balanced (node : value) :
  balanced (invoke recursiveParse dispatch fuel node).
Proof using balanced_recursiveParse balanced_dispatch.
  unfold invoke. repeat step_balanced. unfold lookup.
  destruct (find _ _) as [[name m]|] eqn:Hfind; cbn [fmap option_fmap option_map snd].
  - apply find_some in Hfind. destruct Hfind as [Hin _].
    pose proof members_balanced as H. rewrite Forall_forall in H.
    apply list_elem_of_In in Hin.
    specialize (H _ Hin). cbn [snd] in H.
    destruct m; auto with balanced.
  - auto with balanced.
Qed.

End Balanced.

Lemma dispatch_balanced (B : Buffer.Impl) (fuel : nat) (node : value) :
  balanced (dispatch B fuel node).
Proof.
  revert node. induction fuel as [|fuel IH]; intros node.
  - apply balanced_beyond.
  - cbn [dispatch]. apply invoke_balanced; [|exact IH].
    intros v. apply balanced_bind; [apply IH|].
    intros _. apply quiet_balanced, reads_quiet, reads_get.
Qed.

(** X7. A translation that returns has indented and dedented the buffer
    in pairs: the calls it has added bring the level of indentation back
    to where it was, and at no point below it. *)
Theorem indentation_is_balanced (E : Engine) (table : list (string * string))
    (B : Buffer.Impl) (fuel : nat) (node : value) (s s' : state) (t : text) :
  parse E table B fuel node s = Ok t s' ->
  exists calls,
    buffer s' = buffer s ++ calls /\ forall n, depth n calls = Some n.
Proof.
  unfold parse, recursiveParse, mbind, M_bind, bind.
  pose proof (dispatch_balanced B fuel node s) as H.
  destruct (dispatch B fuel node s) as [[] s1|e s1|w]; try discriminate.
  unfold get. destruct (correct E table _) as [e|t']; [discriminate|].
  intros Heq. inversion Heq; subst. exact H.
Qed.

(** The loop [for (let i = 0; i < n; i++) { f(i); }]. *)
Lemma indentation_is_balanced_witness :
  exists calls,
    [Add (VStr "i"); Add (VStr " = "); Add (VNum 0); Newline;
     Add (VStr "while ("); Add (VStr "i"); Add (VStr " "); Add (VStr "<");
     Add (VStr " "); Add (VStr "n"); Add (VStr ")"); Indent; Newline;
     Add (VStr "f"); Add (VStr "("); Add (VStr "i"); Add (VStr ")"); Newline;
     Add (VStr "i"); Add (VStr "++"); Trim; Dedent; Newline; Add (VStr "end");
     Newline]
    = [] ++ calls
    /\ forall n, depth n calls = Some n.
Proof.
  refine (indentation_is_balanced E [] B 20 (VRef 0) (State forBlock [])
            (State _ _) _ _).
  vm_compute. reflexivity.
Defined.

(** ** The rewriting of floor calls *)

Lemma tryRun_last (p q : ascii -> bool) (input : text) (c : cont)
    (caps : list (option (nat * nat))) (g : nat -> option mstate) :
  (forall j, c (MState j caps)
             = match drop j input with
               | ch :: _ => if q ch then g j else None
               | [] => None
               end) ->
  (forall j, g j <> None) ->
  forall s i, s = drop i input ->
    tryRun p c caps i s
    = match lastWhere p q s with
      | Some k => g (i + k)
      | None => None
      end.
Proof.
  intros Hc Hg. induction s as [|ch s IH]; intros i Hs.
  - cbn [tryRun lastWhere]. rewrite Hc, <- Hs. reflexivity.
  - assert (Hs' : s = drop (S i) input).
    { change s with (drop 1 (ch :: s)). rewrite Hs, drop_drop. f_equal. lia. }
    cbn [tryRun lastWhere]. rewrite (Hc i), <- Hs.
    destruct (p ch).
    + rewrite (IH (S i) Hs').
      destruct (lastWhere p q s) as [k|].
      * replace (i + S k) with (S i + k) by lia.
        destruct (g (S i + k)) eqn:Hk; [reflexivity|]. destruct (Hg _ Hk).
      * destruct (q ch); [rewrite Nat.add_0_r|]; reflexivity.
    + destruct (q ch); [rewrite Nat.add_0_r|]; reflexivity.
Qed.

Lemma lastWhere_bound (p q : ascii -> bool) (s : text) (k : nat) :
  lastWhere p q s = Some k -> k < length s.
Proof.
  revert k. induction s as [|ch s IH]; intros k H; cbn in *; [discriminate|].
  destruct (p ch).
  - destruct (lastWhere p q s) as [k'|].
    + inversion H; subst. specialize (IH k' eq_refl). lia.
    + destruct (q ch); inversion H; lia.
  - destruct (q ch); inversion H; lia.
Qed.

Lemma expand_floor (input : text) (res : result) :
  length (groups res) = 2 ->
  expand (chars "($1).floor") input res
  = chars "(" ++ default [] (capture input res 1) ++ chars ").floor".
Proof.
  intros H. destruct res as [i e gs]. cbn [groups] in H.
  destruct gs as [|g0 [|g1 [|g2 gs]]]; try discriminate.
  reflexivity.
Qed.

Lemma compile_Dot (f : flags) (input : text) (x : mstate) (c : cont) :
  compile f input Dot false x c
  = charMatcher input (fun ch => negb (lineTerminator ch)) false x c.
Proof. reflexivity. Qed.

Lemma compile_Char (f : flags) (input : text) (a : ascii) (x : mstate) (c : cont) :
  compile f input (Char a) false x c
  = charMatcher input (fun ch => ascii_eqb (canon f ch) (canon f a)) false x c.
Proof. reflexivity. Qed.

Lemma floor_loc (input : text) (i : nat) :
  i <= length input ->
  match locFloor (drop i input) with
  | Some (len, out) =>
      0 < len /\ i + len <= length input
      /\ exists res, matchAt gm input floorCall i = Some res
                     /\ index res = i /\ stop res = i + len
                     /\ expand (chars "($1).floor") input res = out
  | None => matchAt gm input floorCall i = None
  end.
Proof.
  intros Hi. unfold matchAt, floorCall. cbn [sequence].
  change (Char "(") with (lit ["("%char]).
  rewrite compile_Seq, compile_lit. cbn [endIndex captures].
  unfold locFloor.
  destruct (startsWith gm (chars "Math") (drop i input)); [|reflexivity].
  cbn [andb]. change (length (chars "Math")) with 4.
  rewrite compile_Seq, compile_Dot, charMatcher_forward.
  rewrite !drop_drop.
  change (fun ch => negb (lineTerminator ch)) with inLine.
  destruct (drop (i + 4) input) as [|d rest4] eqn:H4; [reflexivity|].
  change (negb (lineTerminator d)) with (inLine d).
  destruct (inLine d); [|reflexivity]. cbn [andb].
  rewrite compile_Seq, compile_lit. cbn [endIndex captures].
  change (chars "floor(") with (chars "floor" ++ ["("%char]).
  rewrite startsWith_app.
  replace (S (i + 4)) with (i + 5) by lia.
  destruct (startsWith gm (chars "floor") (drop (i + 5) input)); [|reflexivity].
  rewrite compile_Seq, compile_lit. cbn [endIndex captures andb].
  rewrite !drop_drop.
  change (length (chars "floor")) with 5. change (length ["("%char]) with 1.
  destruct (startsWith gm ["("%char] (drop (i + 5 + 5) input)); [|reflexivity].
  replace (i + 5 + 5 + 1) with (i + 11) by lia.
  rewrite compile_Seq, compile_Group, compile_Plus_Dot.
  rewrite repeat_plus by (cbn [endIndex]; lia).
  cbn [endIndex captures].
  change (fun ch => negb (lineTerminator ch)) with inLine.
  destruct (drop (i + 11) input) as [|ch s'] eqn:Hs; [reflexivity|].
  change (negb (lineTerminator ch)) with (inLine ch).
  destruct (inLine ch) eqn:Hch; [|reflexivity].
  assert (Hs' : s' = drop (S (i + 11)) input).
  { change s' with (drop 1 (ch :: s')). rewrite <- Hs, drop_drop. f_equal. lia. }
  rewrite (tryRun_last inLine isClose input _ _
             (fun j => Some (MState (S j)
                           (<[1 := Some (i + 11, j)]> (replicate (ngroups
                              (Seq (lit (chars "Math"))
                                 (Seq Dot
                                    (Seq (lit (chars "floor"))
                                       (Seq (lit ["("%char])
                                          (Seq (Group 1 (Plus Dot)) (Char ")")))))))
                              None))))).
  2:{ intros j. cbn [endIndex captures]. rewrite compile_Char, charMatcher_forward.
      destruct (drop j input) as [|a rest]; reflexivity. }
  2:{ intros j. discriminate. }
  2:{ exact Hs'. }
  destruct (lastWhere inLine isClose s') as [k|] eqn:Hk; [|reflexivity].
  pose proof (lastWhere_bound _ _ _ _ Hk) as Hlt.
  assert (Hlen : length input = i + 11 + S (length s')).
  { apply (f_equal length) in Hs. rewrite length_drop in Hs. cbn in Hs. lia. }
  split; [lia|]. split; [lia|].
  eexists. split; [reflexivity|]. cbn [index stop endIndex].
  split; [reflexivity|]. split; [lia|].
  rewrite expand_floor by reflexivity.
  unfold capture, slice. cbn [groups captures]. f_equal.
  change (<[1:=Some (i + 11, S (i + 11) + k)]> (replicate _ None) !! 1)
    with (Some (Some (i + 11, S (i + 11) + k))).
  cbn [default]. rewrite Hs.
  replace (S (i + 11) + k - (i + 11)) with (S k) by lia.
  reflexivity.
Qed.

Lemma floorStep_scan (code : text) :
  floorStep code = scan locFloor (S (length code)) code.
Proof.
  unfold floorStep, replace.
  apply (replace_scan gm floorCall (expand (chars "($1).floor"))).
  apply floor_loc.
Qed.

Lemma floorStep_unfold (s : text) :
  floorStep s
  = match locFloor s with
    | Some (len, out) => out ++ floorStep (drop len s)
    | None =>
        match s with
        | [] => []
        | c :: s' => c :: floorStep s'
        end
    end.
Proof.
  rewrite floorStep_scan.
  rewrite (scan_unfold gm floorCall (expand (chars "($1).floor")) _ floor_loc).
  destruct (locFloor s) as [[len out]|].
  - rewrite floorStep_scan. reflexivity.
  - destruct s as [|c s']; [reflexivity|]. rewrite floorStep_scan. reflexivity.
Qed.

Lemma floorStep_copies (pre rest : text) :
  forallb notM pre = true ->
  floorStep (pre ++ rest) = pre ++ floorStep rest.
Proof.
  induction pre as [|c pre IH]; intros H; [reflexivity|].
  cbn in H. apply andb_prop in H. destruct H as [Hc Hpre].
  rewrite floorStep_unfold. cbn [app].
  replace (locFloor (c :: pre ++ rest)) with (@None (nat * text)).
  - rewrite (IH Hpre). reflexivity.
  - unfold locFloor. cbn [startsWith chars list_ascii_of_string].
    unfold notM in Hc. apply negb_true_iff in Hc.
    change (canon gm c) with c. change (canon gm "M") with "M"%char.
    rewrite Hc. reflexivity.
Qed.

Lemma close_inLine (c : ascii) : isClose c = true -> inLine c = true.
Proof. destruct c as [[] [] [] [] [] [] [] []]; vm_compute; congruence. Qed.

Lemma lastWhere_none (tail post : text) :
  forallb openChar tail = true ->
  match post with [] => True | c :: _ => inLine c = false end ->
  lastWhere inLine isClose (tail ++ post) = None.
Proof.
  intros Ht Hp. induction tail as [|c tail IH].
  - destruct post as [|c post]; [reflexivity|]. cbn [app lastWhere].
    rewrite Hp. destruct (isClose c) eqn:Hc; [|reflexivity].
    apply close_inLine in Hc. congruence.
  - cbn in Ht. apply andb_prop in Ht. destruct Ht as [Hc Ht].
    unfold openChar in Hc. apply andb_prop in Hc. destruct Hc as [Hin Hcl].
    apply negb_true_iff in Hcl.
    cbn [app lastWhere]. rewrite Hin, (IH Ht), Hcl. reflexivity.
Qed.

Lemma lastWhere_last (body rest : text) (c : ascii) :
  forallb inLine body = true ->
  isClose c = true ->
  lastWhere inLine isClose rest = None ->
  lastWhere inLine isClose (body ++ c :: rest) = Some (length body).
Proof.
  intros Hb Hc Hr. induction body as [|a body IH].
  - cbn [app lastWhere length]. rewrite (close_inLine c Hc), Hr, Hc. reflexivity.
  - cbn in Hb. apply andb_prop in Hb. destruct Hb as [Ha Hb].
    cbn [app lastWhere length]. rewrite Ha, (IH Hb). reflexivity.
Qed.

Lemma locFloor_call (d : ascii) (body tail post : text) :
  inLine d = true ->
  body <> [] ->
  forallb inLine body = true ->
  forallb openChar tail = true ->
  match post with [] => True | c :: _ => inLine c = false end ->
  locFloor (chars "Math" ++ [d] ++ chars "floor(" ++ body ++ chars ")" ++ tail ++ post)
  = Some (11 + length body + 1, chars "(" ++ body ++ chars ").floor").
Proof.
  intros Hd Hne Hb Ht Hp. unfold locFloor.
  rewrite startsWith_self.
  change (drop 4 (chars "Math" ++ [d] ++ chars "floor(" ++ body ++ chars ")"
                  ++ tail ++ post))
    with (d :: chars "floor(" ++ body ++ chars ")" ++ tail ++ post).
  change (drop 5 (chars "Math" ++ [d] ++ chars "floor(" ++ body ++ chars ")"
                  ++ tail ++ post))
    with (chars "floor(" ++ body ++ chars ")" ++ tail ++ post).
  change (drop 11 (chars "Math" ++ [d] ++ chars "floor(" ++ body ++ chars ")"
                   ++ tail ++ post))
    with (body ++ chars ")" ++ tail ++ post).
  cbv iota beta. rewrite Hd, startsWith_self. cbn [andb].
  destruct body as [|ch body]; [congruence|].
  cbn in Hb. apply andb_prop in Hb. destruct Hb as [Hch Hb].
  cbn [app]. rewrite Hch.
  change (chars ")" ++ tail ++ post) with (")"%char :: (tail ++ post)).
  rewrite (lastWhere_last body (tail ++ post) ")" Hb eq_refl
             (lastWhere_none tail post Ht Hp)).
  change (ch :: body ++ ")"%char :: (tail ++ post))
    with ((ch :: body) ++ ")"%char :: (tail ++ post)).
  replace (S (length body)) with (length (ch :: body)) by reflexivity.
  rewrite take_app_length.
  reflexivity.
Qed.

(** X8. A call of [Math.floor] becomes a call of the method [floor] on
    its argument in parentheses.  The argument is the text up to the
    last [)] of the line, closing parentheses included, and any
    character of the line may stand where the dot is. *)
Theorem floor_call_rewritten (pre body tail post : text) (d : ascii) :
  forallb notM pre = true ->
  inLine d = true ->
  body <> [] ->
  forallb inLine body = true ->
  forallb openChar tail = true ->
  match post with [] => True | c :: _ => inLine c = false end ->
  floorStep (pre ++ chars "Math" ++ [d] ++ chars "floor(" ++ body ++ chars ")"
             ++ tail ++ post)
  = pre ++ chars "(" ++ body ++ chars ").floor" ++ floorStep (tail ++ post).
Proof.
  intros Hpre Hd Hne Hb Ht Hp.
  rewrite floorStep_copies by exact Hpre. f_equal.
  rewrite floorStep_unfold, locFloor_call by assumption.
  replace (11 + length body + 1)
    with (length (chars "Math" ++ [d] ++ chars "floor(" ++ body ++ chars ")"))
    by (rewrite !length_app; cbn; lia).
  replace (chars "Math" ++ [d] ++ chars "floor(" ++ body ++ chars ")" ++ tail ++ post)
    with ((chars "Math" ++ [d] ++ chars "floor(" ++ body ++ chars ")")
          ++ tail ++ post)
    by (rewrite <- !app_assoc; reflexivity).
  rewrite drop_app_length, <- !app_assoc. reflexivity.
Qed.

(** [y = Math.floor(a) + (b)]: the argument runs to the last [)]. *)
Lemma floor_call_rewritten_witness :
  floorStep (chars "y = Math.floor(a) + (b)") = chars "y = (a) + (b).floor".
Proof.
  pose proof (floor_call_rewritten (chars "y = ") (chars "a) + (b") [] [] "."
                eq_refl eq_refl ltac:(discriminate) eq_refl eq_refl I) as H.
  etransitivity; [exact H|]. vm_compute. reflexivity.
Defined.

(** ** Lists of nodes *)

Lemma getProp_obj (h : list cell) (b : list call) (l : nat)
    (o : gmap string value) (k : string) (v : value) :
  h !! l = Some (CObj o) -> o !! k = Some v ->
  getProp (VRef l) k (State h b) = Ok v (State h b).
Proof. intros Hl Hk. unfold getProp. cbn [heap]. rewrite Hl, Hk. reflexivity. Qed.

Lemma getProp_missing (h : list cell) (b : list call) (l : nat)
    (o : gmap string value) (k : string) :
  h !! l = Some (CObj o) -> o !! k = None ->
  getProp (VRef l) k (State h b) = Ok VUndef (State h b).
Proof. intros Hl Hk. unfold getProp. cbn [heap]. rewrite Hl, Hk. reflexivity. Qed.

Lemma getProp_length (h : list cell) (b : list call) (a : nat) (elems : list value) :
  h !! a = Some (CArr elems) ->
  getProp (VRef a) "length" (State h b)
  = Ok (VNum (Z.of_nat (length elems))) (State h b).
Proof. intros Ha. unfold getProp. cbn [heap]. rewrite Ha. reflexivity. Qed.

Lemma getIndex_arr (h : list cell) (b : list call) (a : nat) (elems : list value)
    (i : nat) (v : value) :
  h !! a = Some (CArr elems) -> elems !! i = Some v ->
  getIndex (VRef a) i (State h b) = Ok v (State h b).
Proof. intros Ha Hi. unfold getIndex. cbn [heap]. rewrite Ha, Hi. reflexivity. Qed.

Lemma ltNat_num (i n : nat) (s : state) :
  ltNat i (VNum (Z.of_nat n)) s = Ok (i <? n) s.
Proof.
  unfold ltNat, toNumber, mbind, M_bind, bind, mret, M_ret, ret. f_equal.
  destruct (Nat.ltb_spec i n), (Z.ltb_spec (Z.of_nat i) (Z.of_nat n)); try reflexivity; lia.
Qed.

Lemma looseEqNat_num (n i : nat) (s : state) :
  looseEqNat (VNum (Z.of_nat n)) i s = Ok (n =? i) s.
Proof.
  unfold looseEqNat, toNumber, mbind, M_bind, bind, mret, M_ret, ret. f_equal.
  destruct (Nat.eqb_spec n i), (Z.eqb_spec (Z.of_nat n) (Z.of_nat i)); try reflexivity; lia.
Qed.

Lemma gtZero_num (n : nat) (s : state) :
  gtZero (VNum (Z.of_nat n)) s = Ok (0 <? n) s.
Proof.
  unfold gtZero, toNumber, mbind, M_bind, bind, mret, M_ret, ret. f_equal.
  destruct (Nat.ltb_spec 0 n), (Z.ltb_spec 0 (Z.of_nat n)); try reflexivity; lia.
Qed.

Section Loop.

Variable rp : value -> M text.
Variable inv : list cell -> Prop.
Variable sep : list call.
Variable elems : list value.
Variable cond : nat -> M bool.
Variable body : nat -> M unit.

Hypothesis cond_spec : forall i h b, inv h -> i <= length elems ->
  cond i (State h b) = Ok (i <? length elems) (State h b).
Hypothesis body_spec : forall i v h calls h1,
  inv h -> elems !! i = Some v -> produces (rp v) h calls h1 ->
  produces (body i) h (sep ++ calls) h1.

(** With more fuel than there are elements left, the loop translates
    them all. *)
Lemma forLoop_each (fuel i : nat) (h h' : list cell) (calls : list call) :
  i <= length elems -> length elems - i < fuel ->
  eachProduces rp inv sep (drop i elems) h calls h' ->
  produces (forLoop fuel cond body i) h calls h'.
Proof using cond_spec body_spec.
  revert i h calls. induction fuel as [|fuel IH]; intros i h calls Hi Hf H; [lia|].
  intros b. cbn [forLoop].
  remember (drop i elems) as rest eqn:Hrest.
  destruct H as [h Hinv|v vs h h1 h2 c1 crest Hinv Hv Hvs].
  - assert (i = length elems).
    { apply (f_equal length) in Hrest. rewrite length_drop in Hrest. cbn in Hrest. lia. }
    subst i. erewrite bind_Ok by (apply cond_spec; [exact Hinv|lia]).
    rewrite Nat.ltb_irrefl. exists tt. rewrite app_nil_r. reflexivity.
  - assert (Hlt : i < length elems).
    { apply (f_equal length) in Hrest. rewrite length_drop in Hrest. cbn in Hrest. lia. }
    assert (Hiv : elems !! i = Some v).
    { rewrite <- (Nat.add_0_r i), <- lookup_drop, <- Hrest. reflexivity. }
    assert (Hvs' : vs = drop (S i) elems).
    { change vs with (drop 1 (v :: vs)). rewrite Hrest, drop_drop. f_equal. lia. }
    erewrite bind_Ok by (apply cond_spec; [exact Hinv|lia]).
    destruct (Nat.ltb_spec i (length elems)); [|lia].
    destruct (body_spec i v h c1 h1 Hinv Hiv Hv b) as [[] Hb].
    erewrite bind_Ok by exact Hb.
    rewrite Hvs' in Hvs.
    destruct (IH (S i) h1 crest ltac:(lia) ltac:(lia) Hvs (b ++ sep ++ c1)) as [[] Hl].
    exists tt. rewrite Hl, <- !app_assoc. reflexivity.
Qed.

End Loop.

Lemma dispatch_method (B : Buffer.Impl) (fuel : nat) (h : list cell)
    (b : list call) (l : nat) (o : gmap string value) (tag : string)
    (f : value -> M unit) :
  h !! l = Some (CObj o) ->
  o !! "type" = Some (VStr tag) ->
  lookup (recursiveParse B fuel) (dispatch B fuel) fuel tag = Some (Method f) ->
  dispatch B (S fuel) (VRef l) (State h b) = f (VRef l) (State h b).
Proof.
  intros Hl Ht Hf. cbn [dispatch]. unfold invoke.
  erewrite bind_Ok by (eapply getProp_obj; eassumption).
  erewrite bind_Ok by reflexivity.
  change (fun node => dispatch B fuel node;; get B) with (recursiveParse B fuel).
  rewrite Hf. reflexivity.
Qed.

Lemma produces_method (B : Buffer.Impl) (fuel : nat) (h h' : list cell)
    (calls : list call) (l : nat) (o : gmap string value) (tag : string)
    (f : value -> M unit) :
  h !! l = Some (CObj o) ->
  o !! "type" = Some (VStr tag) ->
  lookup (recursiveParse B fuel) (dispatch B fuel) fuel tag = Some (Method f) ->
  produces (f (VRef l)) h calls h' ->
  produces (dispatch B (S fuel) (VRef l)) h calls h'.
Proof.
  intros Hl Ht Hf Hp b. rewrite (dispatch_method B fuel h b l o tag f Hl Ht Hf).
  apply Hp.
Qed.

Lemma bind_bind {A C D} (m : M A) (f : A -> M C) (g : C -> M D) (s : state) :
  ((m ≫= f) ≫= g) s = (m ≫= fun a => f a ≫= g) s.
Proof. unfold mbind, M_bind, bind. destruct (m s); reflexivity. Qed.

Ltac flat := cbv beta; rewrite ?bind_bind.
Ltac emits := flat; erewrite bind_Ok by reflexivity; cbn [heap buffer].
Ltac gets := flat; erewrite bind_Ok by (eapply getProp_obj; eassumption).

Section Lists.

Variable rp : value -> M text.
Variable fuel : nat.

Lemma CallExpression_produces (h h1 h2 : list cell) (l a : nat)
    (o : gmap string value) (callee : value) (elems : list value)
    (ccalls acalls : list call) :
  h !! l = Some (CObj o) ->
  o !! "callee" = Some callee ->
  o !! "arguments" = Some (VRef a) ->
  produces (rp callee) h ccalls h1 ->
  listProduces rp (holds l o a elems) [Add (VStr ", ")] elems h1 acalls h2 ->
  length elems <= fuel ->
  produces (TranspilerSuper.CallExpression rp fuel (VRef l)) h
    (ccalls ++ [Add (VStr "(")] ++ acalls ++ [Add (VStr ")")]) h2.
Proof.
  intros Hl Hcallee Hargs Hc Ha Hfuel b.
  unfold TranspilerSuper.CallExpression.
  gets. destruct (Hc b) as [t Ht]. erewrite bind_Ok by exact Ht. emits.
  inversion Ha as [h0 [Hl1 Ha1]|v vs h0 h1' h0' c rest [Hl1 Ha1] Hv Hvs]; subst.
  - gets. erewrite bind_Ok by (eapply getProp_length; eassumption).
    erewrite bind_Ok by apply gtZero_num. cbn [length Nat.ltb Nat.leb].
    emits. exists tt. unfold JS.add, emit. cbn [heap buffer].
    rewrite app_nil_l, <- !app_assoc. reflexivity.
  - gets. erewrite bind_Ok by (eapply getProp_length; eassumption).
    erewrite bind_Ok by apply gtZero_num. cbn [length Nat.ltb Nat.leb].
    gets. flat. erewrite bind_Ok by (eapply getIndex_arr; [eassumption|reflexivity]).
    destruct (Hv (b ++ ccalls ++ [Add (VStr "(")])) as [t' Ht'].
    rewrite <- app_assoc. flat. erewrite bind_Ok by exact Ht'.
    assert (Hloop : produces
              (forLoop fuel
                 (fun i => args ← getProp (VRef l) "arguments";
                           len ← getProp args "length";
                           eq ← looseEqNat len i; mret (negb eq))
                 (fun i => JS.add ", ";;
                           args ← getProp (VRef l) "arguments";
                           a0 ← getIndex args i;
                           rp a0;; mret tt)
                 1) h1' rest h2).
    { apply (forLoop_each rp (holds l o a (v :: vs)) [Add (VStr ", ")] (v :: vs)).
      - intros i h0 b0 [Hl0 Ha0] Hi. gets.
        erewrite bind_Ok by (eapply getProp_length; eassumption).
        erewrite bind_Ok by apply looseEqNat_num.
        unfold mret, M_ret, ret. f_equal.
        destruct (Nat.eqb_spec (length (v :: vs)) i), (Nat.ltb_spec i (length (v :: vs)));
          try reflexivity; lia.
      - intros i v0 h0 calls0 h0' [Hl0 Ha0] Hi Hp b0. emits. gets.
        erewrite bind_Ok by (eapply getIndex_arr; eassumption).
        destruct (Hp (b0 ++ [Add (VStr ", ")])) as [t0 Ht0].
        erewrite bind_Ok by exact Ht0. exists tt.
        rewrite <- !app_assoc. reflexivity.
      - cbn [length]. lia.
      - cbn [length] in *. lia.
      - exact Hvs. }
    destruct (Hloop ((b ++ ccalls ++ [Add (VStr "(")]) ++ c)) as [[] Hl2].
    flat. erewrite bind_Ok by exact Hl2.
    exists tt. unfold JS.add, emit. cbn [heap buffer].
    rewrite <- !app_assoc. reflexivity.
Qed.

(** A loop over the elements of [node[key]] that translates each. *)
Lemma elements_loop (key : string) (h h' : list cell) (l a : nat)
    (o : gmap string value) (elems : list value) (calls : list call) :
  o !! key = Some (VRef a) ->
  eachProduces rp (holds l o a elems) [] elems h calls h' ->
  length elems < fuel ->
  produces
    (forLoop fuel
       (fun i => body ← getProp (VRef l) key; len ← getProp body "length";
                 ltNat i len)
       (fun i => body ← getProp (VRef l) key; stmt ← getIndex body i;
                 rp stmt;; mret tt)
       0) h calls h'.
Proof.
  intros Hkey He Hfuel.
  apply (forLoop_each rp (holds l o a elems) [] elems).
  - intros i h0 b0 [Hl0 Ha0] Hi. gets.
    erewrite bind_Ok by (eapply getProp_length; eassumption).
    apply ltNat_num.
  - intros i v0 h0 calls0 h0' [Hl0 Ha0] Hi Hp b0. gets.
    erewrite bind_Ok by (eapply getIndex_arr; eassumption).
    destruct (Hp b0) as [t0 Ht0].
    erewrite bind_Ok by exact Ht0. exists tt. reflexivity.
  - lia.
  - lia.
  - exact He.
Qed.

Lemma BlockStatement_produces (h h' : list cell) (l a : nat)
    (o : gmap string value) (stmts : list value) (calls : list call) :
  o !! "body" = Some (VRef a) ->
  eachProduces rp (holds l o a stmts) [] stmts h calls h' ->
  length stmts < fuel ->
  produces (BlockStatement rp fuel (VRef l)) h
    ([Indent; Newline] ++ calls
     ++ [Trim; Dedent; Newline; Add (VStr "end"); Newline]) h'.
Proof.
  intros Hbody He Hfuel b. unfold BlockStatement. emits. emits.
  destruct (elements_loop "body" h h' l a o stmts calls Hbody He Hfuel
              ((b ++ [Indent]) ++ [Newline])) as [[] Hloop].
  flat. erewrite bind_Ok by exact Hloop.
  emits. emits. emits. emits.
  exists tt. unfold emit. cbn [heap buffer].
  rewrite <- !app_assoc. reflexivity.
Qed.

Lemma VariableDeclaration_produces (h h' : list cell) (l a : nat)
    (o : gmap string value) (decls : list value) (calls : list call) :
  o !! "declarations" = Some (VRef a) ->
  eachProduces rp (holds l o a decls) [] decls h calls h' ->
  length decls < fuel ->
  produces (VariableDeclaration rp fuel (VRef l)) h (calls ++ [Newline]) h'.
Proof.
  intros Hkey He Hfuel b. unfold VariableDeclaration.
  destruct (elements_loop "declarations" h h' l a o decls calls Hkey He Hfuel b)
    as [[] Hloop].
  erewrite bind_Ok by exact Hloop.
  exists tt. unfold emit. cbn [heap buffer].
  rewrite <- !app_assoc. reflexivity.
Qed.

Lemma ArrayExpression_produces (h h' : list cell) (l a : nat)
    (o : gmap string value) (elems : list value) (calls : list call) :
  o !! "elements" = Some (VRef a) ->
  listProduces rp (holds l o a elems) [Add (VStr ", ")] elems h calls h' ->
  length elems <= fuel ->
  produces (TranspilerSuper.ArrayExpression rp fuel (VRef l)) h
    ([Add (VStr "[")] ++ calls ++ [Add (VStr "]")]) h'.
Proof.
  intros Hkey He Hfuel b. unfold TranspilerSuper.ArrayExpression. emits.
  inversion He as [h0 [Hl0 Ha0]|v vs h0 h1 h0' c rest [Hl0 Ha0] Hv Hvs]; subst.
  - gets. erewrite bind_Ok by (eapply getProp_length; eassumption).
    erewrite bind_Ok by apply looseEqNat_num. cbn [length Nat.eqb].
    exists tt. unfold JS.add, emit. cbn [heap buffer].
    rewrite <- !app_assoc. reflexivity.
  - gets. erewrite bind_Ok by (eapply getProp_length; eassumption).
    erewrite bind_Ok by apply looseEqNat_num. cbn [length Nat.eqb].
    gets. flat. erewrite bind_Ok by (eapply getIndex_arr; [eassumption|reflexivity]).
    destruct (Hv (b ++ [Add (VStr "[")])) as [t' Ht'].
    flat. erewrite bind_Ok by exact Ht'.
    assert (Hloop : produces
              (forLoop fuel
                 (fun i => elements ← getProp (VRef l) "elements";
                           len ← getProp elements "length"; ltNat i len)
                 (fun i => JS.add ", ";;
                           elements ← getProp (VRef l) "elements";
                           e ← getIndex elements i;
                           rp e;; mret tt)
                 1) h1 rest h').
    { apply (forLoop_each rp (holds l o a (v :: vs)) [Add (VStr ", ")] (v :: vs)).
      - intros i h2 b0 [Hl2 Ha2] Hi. gets.
        erewrite bind_Ok by (eapply getProp_length; eassumption).
        apply ltNat_num.
      - intros i v0 h2 calls0 h2' [Hl2 Ha2] Hi Hp b0. emits. gets.
        erewrite bind_Ok by (eapply getIndex_arr; eassumption).
        destruct (Hp (b0 ++ [Add (VStr ", ")])) as [t0 Ht0].
        erewrite bind_Ok by exact Ht0. exists tt.
        rewrite <- !app_assoc. reflexivity.
      - cbn [length]. lia.
      - cbn [length] in *. lia.
      - exact Hvs. }
    destruct (Hloop ((b ++ [Add (VStr "[")]) ++ c)) as [[] Hl2].
    flat. erewrite bind_Ok by exact Hl2.
    exists tt. unfold JS.add, emit. cbn [heap buffer].
    rewrite <- !app_assoc. reflexivity.
Qed.

Lemma Program_produces (h h' : list cell) (l a : nat)
    (o : gmap string value) (stmts : list value) (calls : list call) :
  o !! "body" = Some (VRef a) ->
  eachProduces rp (holds l o a stmts) [] stmts h calls h' ->
  length stmts < fuel ->
  produces (TranspilerSuper.Program rp fuel (VRef l)) h calls h'.
Proof.
  intros Hkey He Hfuel. unfold TranspilerSuper.Program.
  apply (forLoop_each rp (holds l o a stmts) [] stmts).
  - intros i h0 b0 [Hl0 Ha0] Hi. gets.
    erewrite bind_Ok by (eapply getProp_length; eassumption).
    erewrite bind_Ok by apply looseEqNat_num.
    unfold ret. f_equal.
    destruct (Nat.eqb_spec (length stmts) i), (Nat.ltb_spec i (length stmts));
      try reflexivity; lia.
  - intros i v0 h0 calls0 h0' [Hl0 Ha0] Hi Hp b0. gets.
    erewrite bind_Ok by (eapply getIndex_arr; eassumption).
    destruct (Hp b0) as [t0 Ht0].
    erewrite bind_Ok by exact Ht0. exists tt. reflexivity.
  - lia.
  - lia.
  - exact He.
Qed.

Lemma eachProduces_final (inv : list cell -> Prop) (sep : list call)
    (vs : list value) (h h' : list cell) (calls : list call) :
  eachProduces rp inv sep vs h calls h' -> inv h'.
Proof. induction 1; assumption. Qed.

Lemma listProduces_final (inv : list cell -> Prop) (sep : list call)
    (vs : list value) (h h' : list cell) (calls : list call) :
  listProduces rp inv sep vs h calls h' -> inv h'.
Proof.
  destruct 1; [assumption|]. eapply eachProduces_final. eassumption.
Qed.

Lemma FunctionDeclaration_produces (h h1 h2 h3 : list cell) (l a : nat)
    (o : gmap string value) (id body : value) (params : list value)
    (icalls pcalls bcalls : list call) :
  h !! l = Some (CObj o) ->
  o !! "id" = Some id ->
  o !! "params" = Some (VRef a) ->
  o !! "body" = Some body ->
  produces (rp id) h icalls h1 ->
  listProduces rp (holds l o a params) [Add (VStr ", ")] params h1 pcalls h2 ->
  produces (rp body) h2 bcalls h3 ->
  length params <= fuel ->
  produces (FunctionDeclaration rp fuel (VRef l)) h
    ([Add (VStr "def ")] ++ icalls ++ [Add (VStr "(")] ++ pcalls
     ++ [Add (VStr ")")] ++ bcalls ++ [Newline]) h3.
Proof.
  intros Hl Hid Hparams Hbody Hi Hp Hb Hfuel b.
  pose proof (listProduces_final _ _ _ _ _ _ Hp) as [Hl2 Ha2].
  assert (Htail : forall b',
             (JS.add ")";; body0 ← getProp (VRef l) "body"; rp body0;; emit Newline)
               (State h2 b')
             = Ok tt (State h3 (b' ++ [Add (VStr ")")] ++ bcalls ++ [Newline]))).
  { intros b'. emits. gets. destruct (Hb (b' ++ [Add (VStr ")")])) as [t2 Ht2].
    erewrite bind_Ok by exact Ht2. unfold emit. cbn [heap buffer].
    rewrite <- !app_assoc. reflexivity. }
  unfold FunctionDeclaration, TranspilerSuper.FunctionDeclaration. emits.
  gets. destruct (Hi (b ++ [Add (VStr "def ")])) as [t Ht].
  flat. erewrite bind_Ok by exact Ht. emits.
  inversion Hp as [h0 [Hl1 Ha1]|v vs h0 h1' h0' c rest [Hl1 Ha1] Hv Hvs]; subst.
  - gets. flat. erewrite bind_Ok by (eapply getProp_length; eassumption).
    flat. erewrite bind_Ok by apply looseEqNat_num. cbn [length Nat.eqb].
    flat. erewrite bind_Ok by reflexivity.
    exists tt. rewrite Htail, <- !app_assoc. reflexivity.
  - gets. flat. erewrite bind_Ok by (eapply getProp_length; eassumption).
    flat. erewrite bind_Ok by apply looseEqNat_num. cbn [length Nat.eqb].
    gets. flat. erewrite bind_Ok by (eapply getIndex_arr; [eassumption|reflexivity]).
    destruct (Hv (((b ++ [Add (VStr "def ")]) ++ icalls) ++ [Add (VStr "(")]))
      as [t' Ht'].
    flat. erewrite bind_Ok by exact Ht'.
    assert (Hloop : produces
              (forLoop fuel
                 (fun i => params2 ← getProp (VRef l) "params";
                           len0 ← getProp params2 "length"; ltNat i len0)
                 (fun i => JS.add ", ";;
                           params2 ← getProp (VRef l) "params";
                           p0 ← getIndex params2 i;
                           rp p0;; mret tt)
                 1) h1' rest h2).
    { apply (forLoop_each rp (holds l o a (v :: vs)) [Add (VStr ", ")] (v :: vs)).
      - intros i h4 b0 [Hl4 Ha4] Hi0. gets.
        erewrite bind_Ok by (eapply getProp_length; eassumption).
        apply ltNat_num.
      - intros i v0 h4 calls0 h4' [Hl4 Ha4] Hi0 Hp0 b0. emits. gets.
        erewrite bind_Ok by (eapply getIndex_arr; eassumption).
        destruct (Hp0 (b0 ++ [Add (VStr ", ")])) as [t0 Ht0].
        erewrite bind_Ok by exact Ht0. exists tt.
        rewrite <- !app_assoc. reflexivity.
      - cbn [length]. lia.
      - cbn [length] in *. lia.
      - exact Hvs. }
    destruct (Hloop ((((b ++ [Add (VStr "def ")]) ++ icalls) ++ [Add (VStr "(")]) ++ c))
      as [[] Hl3].
    flat. erewrite bind_Ok by exact Hl3.
    exists tt. rewrite Htail, <- !app_assoc. reflexivity.
Qed.

End Lists.

(** ** Single nodes *)

Lemma getProp_default (h : list cell) (b : list call) (l : nat)
    (o : gmap string value) (k : string) :
  h !! l = Some (CObj o) ->
  getProp (VRef l) k (State h b) = Ok (default VUndef (o !! k)) (State h b).
Proof. intros Hl. unfold getProp. cbn [heap]. rewrite Hl. reflexivity. Qed.

Ltac reads := flat; erewrite bind_Ok by (eapply getProp_default; eassumption).

Section Nodes.

Variable rp : value -> M text.
Variable dispatch : value -> M unit.
Variable fuel : nat.

Lemma IfStatement_else_produces (h h1 h2 h3 : list cell) (l c : nat)
    (o co : gmap string value) (test alternate : value)
    (tcalls ccalls acalls : list call) :
  h !! l = Some (CObj o) ->
  o !! "test" = Some test ->
  o !! "consequent" = Some (VRef c) ->
  o !! "alternate" = Some alternate ->
  truthy alternate = true ->
  produces (rp test) h tcalls h1 ->
  h1 !! l = Some (CObj o) ->
  h1 !! c = Some (CObj co) ->
  co !! "type" = Some (VStr "BlockStatement") ->
  produces (rp (VRef c)) h1 ccalls h2 ->
  h2 !! l = Some (CObj o) ->
  produces (rp alternate) h2 acalls h3 ->
  produces (IfStatement rp (VRef l)) h
    ([Add (VStr "if ")] ++ tcalls ++ ccalls
     ++ [DeleteLines 1; Add (VStr "else ")] ++ acalls) h3.
Proof.
  intros Hl Htest Hcons Halt Htruthy Ht Hl1 Hc1 Hty Hc Hl2 Ha b.
  unfold IfStatement. emits. gets.
  destruct (Ht (b ++ [Add (VStr "if ")])) as [t1 Ht1].
  flat. erewrite bind_Ok by exact Ht1.
  gets. gets. flat. erewrite bind_Ok by reflexivity.
  change (negb ("BlockStatement" =? "BlockStatement")%string) with false.
  cbv iota.
  gets. destruct (Hc ((b ++ [Add (VStr "if ")]) ++ tcalls)) as [t2 Ht2].
  flat. erewrite bind_Ok by exact Ht2.
  flat. erewrite bind_Ok by reflexivity.
  gets. rewrite Htruthy. emits. emits. gets.
  destruct (Ha (((((b ++ [Add (VStr "if ")]) ++ tcalls) ++ ccalls)
                 ++ [DeleteLines 1]) ++ [Add (VStr "else ")])) as [t3 Ht3].
  flat. erewrite bind_Ok by exact Ht3.
  exists tt. unfold ret. rewrite <- !app_assoc. reflexivity.
Qed.

Lemma UpdateExpression_produces (h h1 : list cell) (l : nat)
    (o : gmap string value) (argument : value) (acalls : list call) :
  h !! l = Some (CObj o) ->
  o !! "argument" = Some argument ->
  produces (rp argument) h acalls h1 ->
  h1 !! l = Some (CObj o) ->
  produces (UpdateExpression rp (VRef l)) h
    (if truthy (default VUndef (o !! "prefix"))
     then [Add (default VUndef (o !! "operator"))] ++ acalls
     else acalls ++ [Add (default VUndef (o !! "operator"))]) h1.
Proof.
  intros Hl Harg Ha Hl1 b. unfold UpdateExpression. reads.
  destruct (truthy (default VUndef (o !! "prefix"))) eqn:Hp.
  - reads. emits. gets.
    destruct (Ha (b ++ [Add (default VUndef (o !! "operator"))])) as [t Ht].
    flat. erewrite bind_Ok by exact Ht.
    reads. rewrite Hp. cbn [negb]. exists tt. unfold ret.
    rewrite <- !app_assoc. reflexivity.
  - flat. erewrite bind_Ok by reflexivity. gets.
    destruct (Ha b) as [t Ht].
    flat. erewrite bind_Ok by exact Ht.
    reads. rewrite Hp. cbn [negb]. reads.
    exists tt. unfold emit. cbn [heap buffer].
    rewrite <- !app_assoc. reflexivity.
Qed.

Lemma LogicalExpression_produces (h h1 h2 : list cell) (l : nat)
    (o : gmap string value) (left right : value) (op : string)
    (lcalls rcalls : list call) :
  h !! l = Some (CObj o) ->
  o !! "left" = Some left ->
  o !! "operator" = Some (VStr op) ->
  o !! "right" = Some right ->
  produces (rp left) h lcalls h1 ->
  h1 !! l = Some (CObj o) ->
  produces (rp right) h1 rcalls h2 ->
  produces (TranspilerSuper.LogicalExpression rp (VRef l)) h
    (lcalls ++ [Add (VStr (" " +:+ op +:+ " "))] ++ rcalls) h2.
Proof.
  intros Hl Hleft Hop Hright Hlp Hl1 Hrp b.
  unfold TranspilerSuper.LogicalExpression. gets.
  destruct (Hlp b) as [t1 Ht1]. flat. erewrite bind_Ok by exact Ht1.
  gets. flat. erewrite bind_Ok by reflexivity. emits. gets.
  destruct (Hrp ((b ++ lcalls) ++ [Add (VStr (" " +:+ op +:+ " "))])) as [t2 Ht2].
  flat. erewrite bind_Ok by exact Ht2.
  exists tt. unfold ret. rewrite <- !app_assoc. reflexivity.
Qed.

Lemma MemberExpression_produces (h : list cell) (l ob pr : nat)
    (o oo po : gmap string value) (name : value) :
  h !! l = Some (CObj o) ->
  o !! "object" = Some (VRef ob) ->
  o !! "property" = Some (VRef pr) ->
  h !! ob = Some (CObj oo) ->
  oo !! "name" = Some name ->
  truthy name = true ->
  h !! pr = Some (CObj po) ->
  produces (TranspilerSuper.MemberExpression rp (VRef l)) h
    ([Add name]
     ++ if truthy (default VUndef (o !! "computed"))
        then [Add (VStr "["); Add (default VUndef (po !! "name")); Add (VStr "]")]
        else [Add (VStr "."); Add (default VUndef (po !! "name"))]) h.
Proof.
  intros Hl Hobj Hprop Hob Hname Htruthy Hpr b.
  unfold TranspilerSuper.MemberExpression. gets. gets. rewrite Htruthy.
  gets. gets. emits. reads.
  destruct (truthy (default VUndef (o !! "computed"))).
  - emits. gets. reads. emits.
    exists tt. unfold JS.add, emit. cbn [heap buffer].
    rewrite <- !app_assoc. reflexivity.
  - emits. gets. reads.
    exists tt. unfold emit. cbn [heap buffer].
    rewrite <- !app_assoc. reflexivity.
Qed.

Lemma VariableDeclarator_produces (h h1 h2 : list cell) (l : nat)
    (o : gmap string value) (id : value) (icalls vcalls : list call) :
  h !! l = Some (CObj o) ->
  o !! "id" = Some id ->
  produces (rp id) h icalls h1 ->
  h1 !! l = Some (CObj o) ->
  (if truthy (default VUndef (o !! "init"))
   then produces (rp (default VUndef (o !! "init"))) h1 vcalls h2
   else h2 = h1) ->
  produces (TranspilerSuper.VariableDeclarator rp (VRef l)) h
    (icalls ++ if truthy (default VUndef (o !! "init"))
               then [Add (VStr " = ")] ++ vcalls
               else []) h2.
Proof.
  intros Hl Hid Hi Hl1 Hinit b.
  unfold TranspilerSuper.VariableDeclarator. gets.
  destruct (Hi b) as [t Ht]. flat. erewrite bind_Ok by exact Ht.
  reads. destruct (truthy (default VUndef (o !! "init"))).
  - emits. reads. destruct (Hinit ((b ++ icalls) ++ [Add (VStr " = ")])) as [t' Ht'].
    flat. erewrite bind_Ok by exact Ht'.
    exists tt. unfold ret. rewrite <- !app_assoc. reflexivity.
  - subst h2. exists tt. unfold ret. rewrite app_nil_r. reflexivity.
Qed.

Lemma WhileStatement_produces (h h1 h2 : list cell) (l : nat)
    (o : gmap string value) (test body : value) (tcalls bcalls : list call) :
  h !! l = Some (CObj o) ->
  o !! "test" = Some test ->
  o !! "body" = Some body ->
  produces (rp test) h tcalls h1 ->
  h1 !! l = Some (CObj o) ->
  produces (rp body) h1 bcalls h2 ->
  produces (TranspilerSuper.WhileStatement rp (VRef l)) h
    ([Add (VStr "while (")] ++ tcalls ++ [Add (VStr ")")] ++ bcalls) h2.
Proof.
  intros Hl Htest Hbody Ht Hl1 Hb b.
  unfold TranspilerSuper.WhileStatement. emits. gets.
  destruct (Ht (b ++ [Add (VStr "while (")])) as [t1 Ht1].
  flat. erewrite bind_Ok by exact Ht1. emits. gets.
  destruct (Hb (((b ++ [Add (VStr "while (")]) ++ tcalls) ++ [Add (VStr ")")]))
    as [t2 Ht2].
  flat. erewrite bind_Ok by exact Ht2.
  exists tt. unfold ret. rewrite <- !app_assoc. reflexivity.
Qed.

(** [ForStatement] translates the initializer, rewrites the node and the
    statement list of its body, and dispatches the node again. *)
Lemma ForStatement_produces (h h1 h2 : list cell) (l bl a : nat)
    (o bo : gmap string value) (init : value) (stmts : list value)
    (icalls wcalls : list call) :
  h !! l = Some (CObj o) ->
  o !! "init" = Some init ->
  o !! "body" = Some (VRef bl) ->
  produces (rp init) h icalls h1 ->
  h1 !! l = Some (CObj o) ->
  <[l := CObj (<["type" := VStr "WhileStatement"]> o)]> h1 !! bl = Some (CObj bo) ->
  bo !! "body" = Some (VRef a) ->
  h1 !! a = Some (CArr stmts) ->
  produces (dispatch (VRef l))
    (<[a := CArr (stmts ++ [default VUndef (o !! "update")])]>
       (<[l := CObj (<["type" := VStr "WhileStatement"]> o)]> h1))
    wcalls h2 ->
  produces (ForStatement rp dispatch (VRef l)) h (icalls ++ wcalls) h2.
Proof.
  intros Hl Hinit Hbody Hi Hl1 Hbl Hbo Ha Hw b.
  unfold ForStatement. gets. destruct (Hi b) as [t Ht].
  flat. erewrite bind_Ok by exact Ht.
  flat. erewrite bind_Ok
    by (unfold setProp; cbn [heap buffer]; rewrite Hl1; reflexivity).
  set (o' := <["type" := VStr "WhileStatement"]> o) in *.
  set (h1' := <[l := CObj o']> h1) in *.
  assert (Hl1' : h1' !! l = Some (CObj o')).
  { apply list_lookup_insert_eq. eapply lookup_lt_Some. exact Hl1. }
  assert (Ha' : h1' !! a = Some (CArr stmts)).
  { unfold h1'. rewrite list_lookup_insert_ne; [exact Ha|].
    intros ->. rewrite Hl1 in Ha. discriminate Ha. }
  flat. erewrite bind_Ok
    by (eapply getProp_obj; [exact Hl1'|]; unfold o';
        rewrite lookup_insert_ne by discriminate; exact Hbody).
  flat. erewrite bind_Ok by (eapply getProp_obj; [exact Hbl|exact Hbo]).
  flat. erewrite bind_Ok by (eapply getProp_default; exact Hl1').
  flat. erewrite bind_Ok
    by (unfold push; cbn [heap buffer]; rewrite Ha'; reflexivity).
  replace (default VUndef (o' !! "update")) with (default VUndef (o !! "update"))
    by (unfold o'; rewrite lookup_insert_ne by discriminate; reflexivity).
  destruct (Hw (b ++ icalls)) as [[] Hw'].
  exists tt. rewrite Hw', <- app_assoc. reflexivity.
Qed.

End Nodes.

(** ** The translation of lists of nodes *)

Ltac leaf h l name :=
  apply produces_recursiveParse;
  apply (produces_Identifier _ _ h l
           (props [("type", VStr "Identifier"); ("name", VStr name)]));
  reflexivity.

(** X9. A call is translated as its callee, [(], the arguments with
    [, ] between them and [)]; without arguments the parentheses are
    empty. *)
Theorem call_arguments_separated (B : Buffer.Impl) (fuel : nat)
    (h h1 h2 : list cell) (l a : nat) (o : gmap string value) (callee : value)
    (elems : list value) (ccalls acalls : list call) :
  h !! l = Some (CObj o) ->
  o !! "type" = Some (VStr "CallExpression") ->
  o !! "callee" = Some callee ->
  o !! "arguments" = Some (VRef a) ->
  produces (recursiveParse B fuel callee) h ccalls h1 ->
  listProduces (recursiveParse B fuel) (holds l o a elems) [Add (VStr ", ")]
    elems h1 acalls h2 ->
  length elems <= fuel ->
  produces (dispatch B (S fuel) (VRef l)) h
    (ccalls ++ [Add (VStr "(")] ++ acalls ++ [Add (VStr ")")]) h2.
Proof.
  intros Hl Ht Hc Ha Hpc Hpa Hf.
  apply (produces_method B fuel h h2 _ l o "CallExpression"
           (TranspilerSuper.CallExpression (recursiveParse B fuel) fuel) Hl Ht eq_refl).
  eapply CallExpression_produces; eassumption.
Qed.

Lemma call_arguments_separated_witness :
  produces (dispatch B 3 (VRef 0)) callOfTwo
    [Add (VStr "f"); Add (VStr "("); Add (VStr "a"); Add (VStr ", ");
     Add (VStr "b"); Add (VStr ")")]
    callOfTwo.
Proof.
  refine (call_arguments_separated B 2 callOfTwo callOfTwo callOfTwo 0 2
            (props [("type", VStr "CallExpression"); ("callee", VRef 1);
                    ("arguments", VRef 2)])
            (VRef 1) [VRef 3; VRef 4] [Add (VStr "f")]
            ([Add (VStr "a")] ++ [Add (VStr ", ")] ++ [Add (VStr "b")] ++ [])
            eq_refl eq_refl eq_refl eq_refl _ _ _).
  - leaf callOfTwo 1 "f".
  - apply (list_cons _ _ _ _ _ callOfTwo callOfTwo callOfTwo);
      [split; reflexivity|leaf callOfTwo 3 "a"|].
    apply (each_cons _ _ _ _ _ callOfTwo callOfTwo callOfTwo);
      [split; reflexivity|leaf callOfTwo 4 "b"|].
    apply each_nil. split; reflexivity.
  - cbn. lia.
Defined.

(** X10. An array is translated as [[], its elements with [, ] between
    them and []]; the empty array as [[]]. *)
Theorem array_elements_separated (B : Buffer.Impl) (fuel : nat)
    (h h' : list cell) (l a : nat) (o : gmap string value)
    (elems : list value) (calls : list call) :
  h !! l = Some (CObj o) ->
  o !! "type" = Some (VStr "ArrayExpression") ->
  o !! "elements" = Some (VRef a) ->
  listProduces (recursiveParse B fuel) (holds l o a elems) [Add (VStr ", ")]
    elems h calls h' ->
  length elems <= fuel ->
  produces (dispatch B (S fuel) (VRef l)) h
    ([Add (VStr "[")] ++ calls ++ [Add (VStr "]")]) h'.
Proof.
  intros Hl Ht Ha Hp Hf.
  apply (produces_method B fuel h h' _ l o "ArrayExpression"
           (TranspilerSuper.ArrayExpression (recursiveParse B fuel) fuel) Hl Ht eq_refl).
  eapply ArrayExpression_produces; eassumption.
Qed.

Lemma array_elements_separated_witness :
  produces (dispatch B 3 (VRef 0)) arrayOfTwo
    [Add (VStr "["); Add (VStr "a"); Add (VStr ", "); Add (VStr "b"); Add (VStr "]")]
    arrayOfTwo.
Proof.
  refine (array_elements_separated B 2 arrayOfTwo arrayOfTwo 0 1
            (props [("type", VStr "ArrayExpression"); ("elements", VRef 1)])
            [VRef 2; VRef 3]
            ([Add (VStr "a")] ++ [Add (VStr ", ")] ++ [Add (VStr "b")] ++ [])
            eq_refl eq_refl eq_refl _ _).
  - apply (list_cons _ _ _ _ _ arrayOfTwo arrayOfTwo arrayOfTwo);
      [split; reflexivity|leaf arrayOfTwo 2 "a"|].
    apply (each_cons _ _ _ _ _ arrayOfTwo arrayOfTwo arrayOfTwo);
      [split; reflexivity|leaf arrayOfTwo 3 "b"|].
    apply each_nil. split; reflexivity.
  - cbn. lia.
Defined.

Ltac pair_of h :=
  apply (each_cons _ _ _ _ _ h h h); [split; reflexivity|leaf h 2 "a"|];
  apply (each_cons _ _ _ _ _ h h h); [split; reflexivity|leaf h 3 "b"|];
  apply each_nil; split; reflexivity.

(** X11. A block is translated between an indent and a dedent: indent,
    newline, the statements in order, trim, dedent, newline, [end],
    newline.  An empty block still gives its [end]. *)
Theorem block_is_indented_and_closed (B : Buffer.Impl) (fuel : nat)
    (h h' : list cell) (l a : nat) (o : gmap string value)
    (stmts : list value) (calls : list call) :
  h !! l = Some (CObj o) ->
  o !! "type" = Some (VStr "BlockStatement") ->
  o !! "body" = Some (VRef a) ->
  eachProduces (recursiveParse B fuel) (holds l o a stmts) [] stmts h calls h' ->
  length stmts < fuel ->
  produces (dispatch B (S fuel) (VRef l)) h
    ([Indent; Newline] ++ calls
     ++ [Trim; Dedent; Newline; Add (VStr "end"); Newline]) h'.
Proof.
  intros Hl Ht Ha Hp Hf.
  apply (produces_method B fuel h h' _ l o "BlockStatement"
           (BlockStatement (recursiveParse B fuel) fuel) Hl Ht eq_refl).
  eapply BlockStatement_produces; eassumption.
Qed.

Lemma block_is_indented_and_closed_witness :
  produces (dispatch B 4 (VRef 0)) (pairOf "BlockStatement" "body")
    [Indent; Newline; Add (VStr "a"); Add (VStr "b");
     Trim; Dedent; Newline; Add (VStr "end"); Newline]
    (pairOf "BlockStatement" "body").
Proof.
  refine (block_is_indented_and_closed B 3 (pairOf "BlockStatement" "body")
            (pairOf "BlockStatement" "body") 0 1
            (props [("type", VStr "BlockStatement"); ("body", VRef 1)])
            [VRef 2; VRef 3]
            ([] ++ [Add (VStr "a")] ++ [] ++ [Add (VStr "b")] ++ [])
            eq_refl eq_refl eq_refl _ _).
  - pair_of (pairOf "BlockStatement" "body").
  - cbn. lia.
Defined.

(** X12. The declarators of a declaration are translated one after the
    other with nothing between them, and a newline follows the last: no
    keyword is emitted, and no separator. *)
Theorem declarators_are_juxtaposed (B : Buffer.Impl) (fuel : nat)
    (h h' : list cell) (l a : nat) (o : gmap string value)
    (decls : list value) (calls : list call) :
  h !! l = Some (CObj o) ->
  o !! "type" = Some (VStr "VariableDeclaration") ->
  o !! "declarations" = Some (VRef a) ->
  eachProduces (recursiveParse B fuel) (holds l o a decls) [] decls h calls h' ->
  length decls < fuel ->
  produces (dispatch B (S fuel) (VRef l)) h (calls ++ [Newline]) h'.
Proof.
  intros Hl Ht Ha Hp Hf.
  apply (produces_method B fuel h h' _ l o "VariableDeclaration"
           (VariableDeclaration (recursiveParse B fuel) fuel) Hl Ht eq_refl).
  eapply VariableDeclaration_produces; eassumption.
Qed.

Lemma declarators_are_juxtaposed_witness :
  produces (dispatch B 4 (VRef 0)) (pairOf "VariableDeclaration" "declarations")
    [Add (VStr "a"); Add (VStr "b"); Newline]
    (pairOf "VariableDeclaration" "declarations").
Proof.
  refine (declarators_are_juxtaposed B 3
            (pairOf "VariableDeclaration" "declarations")
            (pairOf "VariableDeclaration" "declarations") 0 1
            (props [("type", VStr "VariableDeclaration"); ("declarations", VRef 1)])
            [VRef 2; VRef 3]
            ([] ++ [Add (VStr "a")] ++ [] ++ [Add (VStr "b")] ++ [])
            eq_refl eq_refl eq_refl _ _).
  - pair_of (pairOf "VariableDeclaration" "declarations").
  - cbn. lia.
Defined.

(** X13. A program is translated as its statements in order and nothing
    else; the empty program emits nothing. *)
Theorem program_is_its_statements (B : Buffer.Impl) (fuel : nat)
    (h h' : list cell) (l a : nat) (o : gmap string value)
    (stmts : list value) (calls : list call) :
  h !! l = Some (CObj o) ->
  o !! "type" = Some (VStr "Program") ->
  o !! "body" = Some (VRef a) ->
  eachProduces (recursiveParse B fuel) (holds l o a stmts) [] stmts h calls h' ->
  length stmts < fuel ->
  produces (dispatch B (S fuel) (VRef l)) h calls h'.
Proof.
  intros Hl Ht Ha Hp Hf.
  apply (produces_method B fuel h h' _ l o "Program"
           (TranspilerSuper.Program (recursiveParse B fuel) fuel) Hl Ht eq_refl).
  eapply Program_produces; eassumption.
Qed.

Lemma program_is_its_statements_witness :
  produces (dispatch B 4 (VRef 0)) (pairOf "Program" "body")
    [Add (VStr "a"); Add (VStr "b")]
    (pairOf "Program" "body").
Proof.
  refine (program_is_its_statements B 3 (pairOf "Program" "body")
            (pairOf "Program" "body") 0 1
            (props [("type", VStr "Program"); ("body", VRef 1)])
            [VRef 2; VRef 3]
            ([] ++ [Add (VStr "a")] ++ [] ++ [Add (VStr "b")] ++ [])
            eq_refl eq_refl eq_refl _ _).
  - pair_of (pairOf "Program" "body").
  - cbn. lia.
Defined.

(** X14. A function declaration is translated as [def ], its name, [(],
    the parameters with [, ] between them, [)], its body and a
    newline. *)
Theorem function_header_and_body (B : Buffer.Impl) (fuel : nat)
    (h h1 h2 h3 : list cell) (l a : nat) (o : gmap string value)
    (id body : value) (params : list value)
    (icalls pcalls bcalls : list call) :
  h !! l = Some (CObj o) ->
  o !! "type" = Some (VStr "FunctionDeclaration") ->
  o !! "id" = Some id ->
  o !! "params" = Some (VRef a) ->
  o !! "body" = Some body ->
  produces (recursiveParse B fuel id) h icalls h1 ->
  listProduces (recursiveParse B fuel) (holds l o a params) [Add (VStr ", ")]
    params h1 pcalls h2 ->
  produces (recursiveParse B fuel body) h2 bcalls h3 ->
  length params <= fuel ->
  produces (dispatch B (S fuel) (VRef l)) h
    ([Add (VStr "def ")] ++ icalls ++ [Add (VStr "(")] ++ pcalls
     ++ [Add (VStr ")")] ++ bcalls ++ [Newline]) h3.
Proof.
  intros Hl Ht Hid Hparams Hbody Hi Hp Hb Hf.
  apply (produces_method B fuel h h3 _ l o "FunctionDeclaration"
           (FunctionDeclaration (recursiveParse B fuel) fuel) Hl Ht eq_refl).
  eapply FunctionDeclaration_produces; eassumption.
Qed.

Lemma function_header_and_body_witness :
  produces (dispatch B 3 (VRef 0)) functionOfTwo
    [Add (VStr "def "); Add (VStr "f"); Add (VStr "("); Add (VStr "a");
     Add (VStr ", "); Add (VStr "b"); Add (VStr ")"); Add (VStr "c"); Newline]
    functionOfTwo.
Proof.
  refine (function_header_and_body B 2 functionOfTwo functionOfTwo functionOfTwo
            functionOfTwo 0 2
            (props [("type", VStr "FunctionDeclaration"); ("id", VRef 1);
                    ("params", VRef 2); ("body", VRef 5)])
            (VRef 1) (VRef 5) [VRef 3; VRef 4] [Add (VStr "f")]
            ([Add (VStr "a")] ++ [Add (VStr ", ")] ++ [Add (VStr "b")] ++ [])
            [Add (VStr "c")]
            eq_refl eq_refl eq_refl eq_refl eq_refl _ _ _ _).
  - leaf functionOfTwo 1 "f".
  - apply (list_cons _ _ _ _ _ functionOfTwo functionOfTwo functionOfTwo);
      [split; reflexivity|leaf functionOfTwo 3 "a"|].
    apply (each_cons _ _ _ _ _ functionOfTwo functionOfTwo functionOfTwo);
      [split; reflexivity|leaf functionOfTwo 4 "b"|].
    apply each_nil. split; reflexivity.
  - leaf functionOfTwo 5 "c".
  - cbn. lia.
Defined.

(** ** The translation of single nodes *)

(** X15. An [if] with a block and an [else] is translated as [if ], the
    test, the block, a call that deletes one line, [else ] and the
    alternate; the nodes are left as they are. *)
Theorem else_follows_a_deleted_line (B : Buffer.Impl) (fuel : nat)
    (h h1 h2 h3 : list cell) (l c : nat) (o co : gmap string value)
    (test alternate : value) (tcalls ccalls acalls : list call) :
  h !! l = Some (CObj o) ->
  o !! "type" = Some (VStr "IfStatement") ->
  o !! "test" = Some test ->
  o !! "consequent" = Some (VRef c) ->
  o !! "alternate" = Some alternate ->
  truthy alternate = true ->
  produces (recursiveParse B fuel test) h tcalls h1 ->
  h1 !! l = Some (CObj o) ->
  h1 !! c = Some (CObj co) ->
  co !! "type" = Some (VStr "BlockStatement") ->
  produces (recursiveParse B fuel (VRef c)) h1 ccalls h2 ->
  h2 !! l = Some (CObj o) ->
  produces (recursiveParse B fuel alternate) h2 acalls h3 ->
  produces (dispatch B (S fuel) (VRef l)) h
    ([Add (VStr "if ")] ++ tcalls ++ ccalls
     ++ [DeleteLines 1; Add (VStr "else ")] ++ acalls) h3.
Proof.
  intros Hl Ht Htest Hcons Halt Htruthy Hpt Hl1 Hc1 Hty Hpc Hl2 Hpa.
  apply (produces_method B fuel h h3 _ l o "IfStatement"
           (IfStatement (recursiveParse B fuel)) Hl Ht eq_refl).
  eapply IfStatement_else_produces; eassumption.
Qed.

Lemma else_follows_a_deleted_line_witness :
  produces (dispatch B 3 (VRef 0)) ifElse
    [Add (VStr "if "); Add (VStr "c"); Indent; Newline; Trim; Dedent; Newline;
     Add (VStr "end"); Newline; DeleteLines 1; Add (VStr "else "); Add (VStr "x")]
    ifElse.
Proof.
  refine (else_follows_a_deleted_line B 2 ifElse ifElse ifElse ifElse 0 2
            (props [("type", VStr "IfStatement"); ("test", VRef 1);
                    ("consequent", VRef 2); ("alternate", VRef 4)])
            (props [("type", VStr "BlockStatement"); ("body", VRef 3)])
            (VRef 1) (VRef 4) [Add (VStr "c")]
            ([Indent; Newline] ++ []
             ++ [Trim; Dedent; Newline; Add (VStr "end"); Newline])
            [Add (VStr "x")]
            eq_refl eq_refl eq_refl eq_refl eq_refl eq_refl _
            eq_refl eq_refl eq_refl _ eq_refl _).
  - leaf ifElse 1 "c".
  - apply produces_recursiveParse.
    apply (produces_method B 1 ifElse ifElse _ 2
             (props [("type", VStr "BlockStatement"); ("body", VRef 3)])
             "BlockStatement" (BlockStatement (recursiveParse B 1) 1)
             eq_refl eq_refl eq_refl).
    apply (BlockStatement_produces _ _ ifElse ifElse 2 3
             (props [("type", VStr "BlockStatement"); ("body", VRef 3)])
             [] [] eq_refl);
      [|cbn; lia].
    apply each_nil. split; reflexivity.
  - leaf ifElse 4 "x".
Defined.

(** X16. An update expression is translated as its argument with the
    operator before it when [prefix] is set and after it otherwise: the
    operator is emitted once. *)
Theorem update_operator_placed (B : Buffer.Impl) (fuel : nat)
    (h h1 : list cell) (l : nat) (o : gmap string value) (argument : value)
    (acalls : list call) :
  h !! l = Some (CObj o) ->
  o !! "type" = Some (VStr "UpdateExpression") ->
  o !! "argument" = Some argument ->
  produces (recursiveParse B fuel argument) h acalls h1 ->
  h1 !! l = Some (CObj o) ->
  produces (dispatch B (S fuel) (VRef l)) h
    (if truthy (default VUndef (o !! "prefix"))
     then [Add (default VUndef (o !! "operator"))] ++ acalls
     else acalls ++ [Add (default VUndef (o !! "operator"))]) h1.
Proof.
  intros Hl Ht Harg Hp Hl1.
  apply (produces_method B fuel h h1 _ l o "UpdateExpression"
           (UpdateExpression (recursiveParse B fuel)) Hl Ht eq_refl).
  eapply UpdateExpression_produces; eassumption.
Qed.

Lemma update_operator_placed_witness :
  produces (dispatch B 2 (VRef 0)) preIncrement
    [Add (VStr "++"); Add (VStr "i")] preIncrement.
Proof.
  refine (update_operator_placed B 1 preIncrement preIncrement 0
            (props [("type", VStr "UpdateExpression"); ("operator", VStr "++");
                    ("prefix", VBool true); ("argument", VRef 1)])
            (VRef 1) [Add (VStr "i")] eq_refl eq_refl eq_refl _ eq_refl).
  leaf preIncrement 1 "i".
Defined.

(** X17. A logical expression is translated as its left operand, the
    operator between two spaces and its right operand, whatever the
    operands are: no parenthesis is added around an operand that is a
    logical or a binary expression itself. *)
Theorem logical_operands_not_parenthesized (B : Buffer.Impl) (fuel : nat)
    (h h1 h2 : list cell) (l : nat) (o : gmap string value)
    (left right : value) (op : string) (lcalls rcalls : list call) :
  h !! l = Some (CObj o) ->
  o !! "type" = Some (VStr "LogicalExpression") ->
  o !! "left" = Some left ->
  o !! "operator" = Some (VStr op) ->
  o !! "right" = Some right ->
  produces (recursiveParse B fuel left) h lcalls h1 ->
  h1 !! l = Some (CObj o) ->
  produces (recursiveParse B fuel right) h1 rcalls h2 ->
  produces (dispatch B (S fuel) (VRef l)) h
    (lcalls ++ [Add (VStr (" " +:+ op +:+ " "))] ++ rcalls) h2.
Proof.
  intros Hl Ht Hleft Hop Hright Hpl Hl1 Hpr.
  apply (produces_method B fuel h h2 _ l o "LogicalExpression"
           (TranspilerSuper.LogicalExpression (recursiveParse B fuel)) Hl Ht eq_refl).
  eapply LogicalExpression_produces; eassumption.
Qed.

(** [(a || b) && c] gives [a || b && c]. *)
Lemma logical_operands_not_parenthesized_witness :
  produces (dispatch B 3 (VRef 0)) conjunction
    [Add (VStr "a"); Add (VStr " || "); Add (VStr "b"); Add (VStr " && ");
     Add (VStr "c")]
    conjunction.
Proof.
  refine (logical_operands_not_parenthesized B 2 conjunction conjunction conjunction 0
            (props [("type", VStr "LogicalExpression"); ("left", VRef 1);
                    ("operator", VStr "&&"); ("right", VRef 4)])
            (VRef 1) (VRef 4) "&&"
            ([Add (VStr "a")] ++ [Add (VStr " || ")] ++ [Add (VStr "b")])
            [Add (VStr "c")]
            eq_refl eq_refl eq_refl eq_refl eq_refl _ eq_refl _).
  - apply produces_recursiveParse.
    apply (produces_method B 1 conjunction conjunction _ 1
             (props [("type", VStr "LogicalExpression"); ("left", VRef 2);
                     ("operator", VStr "||"); ("right", VRef 3)])
             "LogicalExpression"
             (TranspilerSuper.LogicalExpression (recursiveParse B 1))
             eq_refl eq_refl eq_refl).
    apply (LogicalExpression_produces _ conjunction conjunction conjunction 1 _
             (VRef 2) (VRef 3) "||" [Add (VStr "a")] [Add (VStr "b")]
             eq_refl eq_refl eq_refl eq_refl);
      [leaf conjunction 2 "a"|reflexivity|leaf conjunction 3 "b"].
  - leaf conjunction 4 "c".
Defined.

(** X18. A member expression on a named object is translated from names
    alone: the name of the object, then [.] and the name of the property,
    or the name of the property between brackets when the access is
    computed.  Neither node is dispatched, and a property without a
    name, such as the index of [a[0]], is emitted as undefined. *)
Theorem member_is_translated_by_name (B : Buffer.Impl) (fuel : nat)
    (h : list cell) (l ob pr : nat) (o oo po : gmap string value) (name : value) :
  h !! l = Some (CObj o) ->
  o !! "type" = Some (VStr "MemberExpression") ->
  o !! "object" = Some (VRef ob) ->
  o !! "property" = Some (VRef pr) ->
  h !! ob = Some (CObj oo) ->
  oo !! "name" = Some name ->
  truthy name = true ->
  h !! pr = Some (CObj po) ->
  produces (dispatch B (S fuel) (VRef l)) h
    ([Add name]
     ++ if truthy (default VUndef (o !! "computed"))
        then [Add (VStr "["); Add (default VUndef (po !! "name")); Add (VStr "]")]
        else [Add (VStr "."); Add (default VUndef (po !! "name"))]) h.
Proof.
  intros Hl Ht Hobj Hprop Hob Hname Htruthy Hpr.
  apply (produces_method B fuel h h _ l o "MemberExpression"
           (TranspilerSuper.MemberExpression (recursiveParse B fuel)) Hl Ht eq_refl).
  eapply MemberExpression_produces; eassumption.
Qed.

(** [a[0]] gives [a], [[], undefined and []]. *)
Lemma member_is_translated_by_name_witness :
  produces (dispatch B 1 (VRef 0)) firstOfA
    [Add (VStr "a"); Add (VStr "["); Add VUndef; Add (VStr "]")] firstOfA.
Proof.
  refine (member_is_translated_by_name B 0 firstOfA 0 1 2
            (props [("type", VStr "MemberExpression"); ("object", VRef 1);
                    ("property", VRef 2); ("computed", VBool true)])
            (props [("type", VStr "Identifier"); ("name", VStr "a")])
            (props [("type", VStr "NumericLiteral"); ("extra", VRef 3)])
            (VStr "a") eq_refl eq_refl eq_refl eq_refl eq_refl eq_refl eq_refl eq_refl).
Defined.

(** X19. A declarator is translated as its name, followed by [ = ] and
    the initializer when there is one; without an initializer nothing
    follows the name. *)
Theorem declarator_initializer_is_optional (B : Buffer.Impl) (fuel : nat)
    (h h1 h2 : list cell) (l : nat) (o : gmap string value) (id : value)
    (icalls vcalls : list call) :
  h !! l = Some (CObj o) ->
  o !! "type" = Some (VStr "VariableDeclarator") ->
  o !! "id" = Some id ->
  produces (recursiveParse B fuel id) h icalls h1 ->
  h1 !! l = Some (CObj o) ->
  (if truthy (default VUndef (o !! "init"))
   then produces (recursiveParse B fuel (default VUndef (o !! "init"))) h1 vcalls h2
   else h2 = h1) ->
  produces (dispatch B (S fuel) (VRef l)) h
    (icalls ++ if truthy (default VUndef (o !! "init"))
               then [Add (VStr " = ")] ++ vcalls
               else []) h2.
Proof.
  intros Hl Ht Hid Hp Hl1 Hinit.
  apply (produces_method B fuel h h2 _ l o "VariableDeclarator"
           (TranspilerSuper.VariableDeclarator (recursiveParse B fuel)) Hl Ht eq_refl).
  eapply VariableDeclarator_produces; eassumption.
Qed.

Lemma declarator_initializer_is_optional_witness :
  produces (dispatch B 2 (VRef 0)) declaratorBare [Add (VStr "x")] declaratorBare.
Proof.
  refine (declarator_initializer_is_optional B 1 declaratorBare declaratorBare
            declaratorBare 0
            (props [("type", VStr "VariableDeclarator"); ("id", VRef 1);
                    ("init", VNull)])
            (VRef 1) [Add (VStr "x")] [] eq_refl eq_refl eq_refl _ eq_refl eq_refl).
  leaf declaratorBare 1 "x".
Defined.

(** X20. A [for] statement whose body is a block is translated as its
    initializer followed by a [while] loop on its test: the node is
    given the tag [WhileStatement], the update expression is appended to
    the statements of the block, and the loop is translated from the
    nodes so rewritten. *)
Theorem for_is_init_then_while (B : Buffer.Impl) (fuel : nat)
    (h h1 h3 h4 : list cell) (l bl a : nat) (o bo : gmap string value)
    (init test : value) (stmts : list value) (icalls tcalls bcalls : list call) :
  h !! l = Some (CObj o) ->
  o !! "type" = Some (VStr "ForStatement") ->
  o !! "init" = Some init ->
  o !! "test" = Some test ->
  o !! "body" = Some (VRef bl) ->
  produces (recursiveParse B (S fuel) init) h icalls h1 ->
  h1 !! l = Some (CObj o) ->
  <[l := CObj (<["type" := VStr "WhileStatement"]> o)]> h1 !! bl = Some (CObj bo) ->
  bo !! "body" = Some (VRef a) ->
  h1 !! a = Some (CArr stmts) ->
  produces (recursiveParse B fuel test)
    (<[a := CArr (stmts ++ [default VUndef (o !! "update")])]>
       (<[l := CObj (<["type" := VStr "WhileStatement"]> o)]> h1))
    tcalls h3 ->
  h3 !! l = Some (CObj (<["type" := VStr "WhileStatement"]> o)) ->
  produces (recursiveParse B fuel (VRef bl)) h3 bcalls h4 ->
  produces (dispatch B (S (S fuel)) (VRef l)) h
    (icalls ++ [Add (VStr "while (")] ++ tcalls ++ [Add (VStr ")")] ++ bcalls) h4.
Proof.
  intros Hl Ht Hinit Htest Hbody Hpi Hl1 Hbl Hbo Ha Hpt Hl3 Hpb.
  apply (produces_method B (S fuel) h h4 _ l o "ForStatement"
           (ForStatement (recursiveParse B (S fuel)) (dispatch B (S fuel)))
           Hl Ht eq_refl).
  assert (Hne : a <> l).
  { intros ->. rewrite Hl1 in Ha. discriminate Ha. }
  apply (ForStatement_produces _ _ h h1 h4 l bl a o bo init stmts icalls _
           Hl Hinit Hbody Hpi Hl1 Hbl Hbo Ha).
  set (o' := <["type" := VStr "WhileStatement"]> o) in *.
  set (h2 := <[a := CArr (stmts ++ [default VUndef (o !! "update")])]>
               (<[l := CObj o']> h1)) in *.
  assert (Hl2 : h2 !! l = Some (CObj o')).
  { unfold h2. rewrite list_lookup_insert_ne by exact Hne.
    apply list_lookup_insert_eq. eapply lookup_lt_Some. exact Hl1. }
  apply (produces_method B fuel h2 h4 _ l o' "WhileStatement"
           (TranspilerSuper.WhileStatement (recursiveParse B fuel)) Hl2).
  - apply lookup_insert_eq.
  - reflexivity.
  - apply (WhileStatement_produces _ h2 h3 h4 l o' test (VRef bl) tcalls bcalls Hl2).
    + unfold o'. rewrite lookup_insert_ne by discriminate. exact Htest.
    + unfold o'. rewrite lookup_insert_ne by discriminate. exact Hbody.
    + exact Hpt.
    + exact Hl3.
    + exact Hpb.
Qed.

(** [for (i; c; u) {}] gives [i], [while (c)] and a block that holds
    [u]. *)
Lemma for_is_init_then_while_witness :
  produces (dispatch B 5 (VRef 0)) forEmpty
    [Add (VStr "i"); Add (VStr "while ("); Add (VStr "c"); Add (VStr ")");
     Indent; Newline; Add (VStr "u"); Trim; Dedent; Newline; Add (VStr "end");
     Newline]
    whileOfFor.
Proof.
  pose (o := props [("type", VStr "ForStatement"); ("init", VRef 1);
                    ("test", VRef 2); ("update", VRef 3); ("body", VRef 4)]).
  pose (bo := props [("type", VStr "BlockStatement"); ("body", VRef 5)]).
  assert (Hh : <[5 := CArr ([] ++ [default VUndef (o !! "update")])]>
                 (<[0 := CObj (<["type" := VStr "WhileStatement"]> o)]> forEmpty)
               = whileOfFor) by (vm_compute; reflexivity).
  refine (for_is_init_then_while B 3 forEmpty forEmpty whileOfFor whileOfFor 0 4 5
            o bo (VRef 1) (VRef 2) [] [Add (VStr "i")] [Add (VStr "c")]
            ([Indent; Newline] ++ ([] ++ [Add (VStr "u")] ++ [])
             ++ [Trim; Dedent; Newline; Add (VStr "end"); Newline])
            eq_refl eq_refl eq_refl eq_refl eq_refl _ eq_refl eq_refl eq_refl eq_refl
            _ _ _).
  - leaf forEmpty 1 "i".
  - rewrite Hh. leaf whileOfFor 2 "c".
  - vm_compute. reflexivity.
  - apply produces_recursiveParse.
    apply (produces_method B 2 whileOfFor whileOfFor _ 4 bo
             "BlockStatement" (BlockStatement (recursiveParse B 2) 2)
             eq_refl eq_refl eq_refl).
    apply (BlockStatement_produces _ _ whileOfFor whileOfFor 4 5 bo
             [VRef 3] ([] ++ [Add (VStr "u")] ++ []) eq_refl);
      [|cbn; lia].
    apply (each_cons _ _ _ _ _ whileOfFor whileOfFor whileOfFor);
      [split; reflexivity|leaf whileOfFor 3 "u"|].
    apply each_nil. split; reflexivity.
Defined.

(** ** A translation that fails *)

Section LoopFails.

Variable rp : value -> M text.
Variable inv : list cell -> Prop.
Variable sep : list call.
Variable elems : list value.
Variable cond : nat -> M bool.
Variable body : nat -> M unit.

Hypothesis cond_spec : forall i h b, inv h -> i <= length elems ->
  cond i (State h b) = Ok (i <? length elems) (State h b).
Hypothesis body_spec : forall i v h calls h1,
  inv h -> elems !! i = Some v -> produces (rp v) h calls h1 ->
  produces (body i) h (sep ++ calls) h1.
Hypothesis body_fails : forall i v h b e s',
  inv h -> elems !! i = Some v -> rp v (State h (b ++ sep)) = Throw e s' ->
  body i (State h b) = Throw e s'.

(** When an element fails, the loop fails in the state in which the
    element failed: the elements before it have been translated. *)
Lemma forLoop_fails (fuel i : nat) (done rest : list value) (bad : value)
    (h h1 : list cell) (calls b : list call) (e : exn) (s' : state) :
  drop i elems = done ++ bad :: rest ->
  eachProduces rp inv sep done h calls h1 ->
  rp bad (State h1 (b ++ calls ++ sep)) = Throw e s' ->
  length done < fuel ->
  forLoop fuel cond body i (State h b) = Throw e s'.
Proof using cond_spec body_spec body_fails.
  revert i done h calls b.
  induction fuel as [|fuel IH]; intros i done h calls b Hd He Hbad Hf; [lia|].
  assert (Hlt : i < length elems).
  { apply (f_equal length) in Hd. rewrite length_drop, length_app in Hd.
    cbn in Hd. lia. }
  cbn [forLoop].
  destruct He as [h Hinv|v vs h h0 h2 c1 crest Hinv Hv Hvs].
  - erewrite bind_Ok by (apply cond_spec; [exact Hinv|lia]).
    destruct (Nat.ltb_spec i (length elems)); [|lia].
    assert (Hiv : elems !! i = Some bad).
    { pose proof (f_equal (fun vs => vs !! 0) Hd) as H0. cbn in H0.
      rewrite lookup_drop, Nat.add_0_r in H0. exact H0. }
    unfold mbind, M_bind, bind.
    rewrite (body_fails i bad h b e s' Hinv Hiv); [reflexivity|exact Hbad].
  - erewrite bind_Ok by (apply cond_spec; [exact Hinv|lia]).
    destruct (Nat.ltb_spec i (length elems)); [|lia].
    assert (Hiv : elems !! i = Some v).
    { pose proof (f_equal (fun vs => vs !! 0) Hd) as H0. cbn in H0.
      rewrite lookup_drop, Nat.add_0_r in H0. exact H0. }
    destruct (body_spec i v h c1 h0 Hinv Hiv Hv b) as [[] Hb].
    erewrite bind_Ok by exact Hb.
    apply (IH (S i) vs h0 crest (b ++ sep ++ c1)).
    + pose proof (f_equal (drop 1) Hd) as H1. rewrite drop_drop in H1.
      replace (i + 1) with (S i) in H1 by lia. exact H1.
    + exact Hvs.
    + rewrite <- Hbad. f_equal. f_equal. rewrite <- !app_assoc. reflexivity.
    + cbn in Hf. lia.
Qed.

End LoopFails.

Lemma Program_fails (rp : value -> M text) (fuel : nat) (h h1 : list cell) (l a : nat)
    (o : gmap string value) (done rest : list value) (bad : value)
    (calls b : list call) (e : exn) (s' : state) :
  o !! "body" = Some (VRef a) ->
  eachProduces rp (holds l o a (done ++ bad :: rest)) [] done h calls h1 ->
  rp bad (State h1 (b ++ calls)) = Throw e s' ->
  length done < fuel ->
  TranspilerSuper.Program rp fuel (VRef l) (State h b) = Throw e s'.
Proof.
  intros Hkey He Hbad Hfuel. unfold TranspilerSuper.Program.
  apply (forLoop_fails rp (holds l o a (done ++ bad :: rest)) []
           (done ++ bad :: rest) _ _) with (done := done) (rest := rest) (bad := bad)
           (h1 := h1) (calls := calls).
  - intros i h0 b0 [Hl0 Ha0] Hi. gets.
    erewrite bind_Ok by (eapply getProp_length; eassumption).
    erewrite bind_Ok by apply looseEqNat_num.
    unfold ret. f_equal.
    destruct (Nat.eqb_spec (length (done ++ bad :: rest)) i),
      (Nat.ltb_spec i (length (done ++ bad :: rest)));
      try reflexivity; lia.
  - intros i v0 h0 calls0 h0' [Hl0 Ha0] Hi Hp b0. gets.
    erewrite bind_Ok by (eapply getIndex_arr; eassumption).
    destruct (Hp b0) as [t0 Ht0].
    erewrite bind_Ok by exact Ht0. exists tt. reflexivity.
  - intros i v0 h0 b0 e0 s0 [Hl0 Ha0] Hi Hp. gets.
    erewrite bind_Ok by (eapply getIndex_arr; eassumption).
    rewrite app_nil_r in Hp.
    unfold mbind, M_bind, bind. rewrite Hp. reflexivity.
  - reflexivity.
  - exact He.
  - rewrite app_nil_r. exact Hbad.
  - exact Hfuel.
Qed.

(** X21. When a statement of a program fails, the program fails in the
    state in which the statement failed, and so does [parse]: the calls
    made for the statements before it, and those that the failing
    statement made itself, are in the buffer, after what was there. *)
Theorem failed_statement_keeps_earlier_calls (E : Engine)
    (table : list (string * string)) (B : Buffer.Impl) (fuel : nat)
    (h h1 : list cell) (l a : nat) (o : gmap string value)
    (done rest : list value) (bad : value) (calls b : list call)
    (e : exn) (s' : state) :
  h !! l = Some (CObj o) ->
  o !! "type" = Some (VStr "Program") ->
  o !! "body" = Some (VRef a) ->
  eachProduces (recursiveParse B fuel) (holds l o a (done ++ bad :: rest)) []
    done h calls h1 ->
  recursiveParse B fuel bad (State h1 (b ++ calls)) = Throw e s' ->
  length done < fuel ->
  parse E table B (S fuel) (VRef l) (State h b) = Throw e s'
  /\ exists partial, buffer s' = b ++ calls ++ partial.
Proof.
  intros Hl Ht Ha He Hbad Hf. split.
  - unfold parse, recursiveParse at 1. unfold mbind, M_bind, bind.
    rewrite (dispatch_method B fuel h b l o "Program"
               (TranspilerSuper.Program (recursiveParse B fuel) fuel) Hl Ht eq_refl).
    rewrite (Program_fails _ fuel h h1 l a o done rest bad calls b e s' Ha He Hbad Hf).
    reflexivity.
  - unfold recursiveParse, mbind, M_bind, bind in Hbad.
    pose proof (dispatch_respects B fuel bad (State h1 (b ++ calls))) as Hr.
    destruct (dispatch B fuel bad _) as [[] s1|e1 s1|w]; try discriminate Hbad.
    inversion Hbad; subst. destruct Hr as [[partial Hp] _]. cbn [buffer] in Hp.
    exists partial. rewrite Hp, <- app_assoc. reflexivity.
Qed.

Lemma failed_statement_keeps_earlier_calls_witness :
  run E B fresh 5 failing (VRef 0) = Throw TypeError (State failing [Add (VStr "a")]).
Proof.
  unfold run.
  refine (proj1 (failed_statement_keeps_earlier_calls E [] B 4 failing failing 0 1
            (props [("type", VStr "Program"); ("body", VRef 1)])
            [VRef 2] [] (VRef 3) ([] ++ [Add (VStr "a")] ++ []) [] TypeError
            (State failing [Add (VStr "a")])
            eq_refl eq_refl eq_refl _ _ _)).
  - apply (each_cons _ _ _ _ _ failing failing failing);
      [split; reflexivity|leaf failing 2 "a"|].
    apply each_nil; split; reflexivity.
  - vm_compute. reflexivity.
  - cbn. lia.
Defined.

(** * The writes of a translation

    Two visitor methods write to the nodes they are given.  The store
    after a translation is followed here write by write. *)

Lemma write_length (n : nat) (h h' : list cell) :
  write n h h' -> length h <= length h'.
Proof.
  intros H. destruct H; rewrite ?length_app, ?length_insert; cbn; lia.
Qed.

Lemma writes_length (n : nat) (h h' : list cell) :
  rtc (write n) h h' -> length h <= length h'.
Proof.
  induction 1 as [|h1 h2 h3 H _ IH]; [lia|].
  apply write_length in H. lia.
Qed.

Lemma reads_tracks {A} (n : nat) (m : M A) : reads m -> tracks n m.
Proof.
  intros H s _. specialize (H s). destruct (m s); try exact I; subst; constructor.
Qed.

Lemma tracks_ret {A} (n : nat) (a : A) : tracks n (mret a).
Proof. intros s _. constructor. Qed.

Lemma tracks_throw {A} (n : nat) (e : exn) : tracks n (@throw A e).
Proof. intros s _. constructor. Qed.

Lemma tracks_beyond {A} (n : nat) (w : limit) : tracks n (@beyond A w).
Proof. intros s _. exact I. Qed.

Lemma tracks_emit (n : nat) (c : call) : tracks n (emit c).
Proof. intros s _. constructor. Qed.

Lemma tracks_bind {A C} (n : nat) (m : M A) (k : A -> M C) :
  tracks n m -> (forall a, tracks n (k a)) -> tracks n (m ≫= k).
Proof.
  intros Hm Hk s Hn. unfold mbind, M_bind, bind.
  specialize (Hm s Hn). destruct (m s) as [a s'| |]; try exact Hm.
  assert (Hn' : n <= length (heap s')) by (apply writes_length in Hm; lia).
  specialize (Hk a s' Hn'). destruct (k a s'); try exact I; etrans; eassumption.
Qed.

Lemma tracks_forLoop (n fuel : nat) (cond : nat -> M bool) (body : nat -> M unit)
    (i : nat) :
  (forall j, tracks n (cond j)) -> (forall j, tracks n (body j)) ->
  tracks n (forLoop fuel cond body i).
Proof.
  intros Hc Hb. revert i. induction fuel as [|fuel IH]; intros i.
  - apply tracks_beyond.
  - cbn [forLoop]. apply tracks_bind; [apply Hc|].
    intros [|]; [|apply tracks_ret].
    apply tracks_bind; [apply Hb|]. intros _. apply IH.
Qed.

Create HintDb tracks.

#[local] Hint Resolve tracks_ret tracks_throw tracks_beyond tracks_emit : tracks.
#[local] Hint Extern 1 (tracks _ (getProp _ _)) =>
  apply reads_tracks, reads_getProp : tracks.
#[local] Hint Extern 1 (tracks _ (getIndex _ _)) =>
  apply reads_tracks, reads_getIndex : tracks.
#[local] Hint Extern 1 (tracks _ (toString _)) =>
  apply reads_tracks, reads_toString : tracks.
#[local] Hint Extern 1 (tracks _ (keyed _)) =>
  apply reads_tracks, reads_keyed : tracks.
#[local] Hint Extern 1 (tracks _ (looseEqStr _ _)) =>
  apply reads_tracks, reads_looseEqStr : tracks.
#[local] Hint Extern 1 (tracks _ (ltNat _ _)) =>
  apply reads_tracks, reads_ltNat : tracks.
#[local] Hint Extern 1 (tracks _ (looseEqNat _ _)) =>
  apply reads_tracks, reads_looseEqNat : tracks.
#[local] Hint Extern 1 (tracks _ (gtZero _)) =>
  apply reads_tracks, reads_gtZero : tracks.
#[local] Hint Extern 1 (tracks _ (jsonStringify _)) =>
  apply reads_tracks, reads_jsonStringify : tracks.
#[local] Hint Extern 1 (tracks _ (JS.add _)) => apply tracks_emit : tracks.

Ltac step_tracks :=
  match goal with
  | |- tracks _ (_ ≫= _) => apply tracks_bind; [|intros ?]
  | |- tracks _ (forLoop _ _ _ _) => apply tracks_forLoop; intros ?
  | |- tracks _ (if ?b then _ else _) => destruct b
  | |- tracks _ _ => solve [auto with tracks]
  end.

(** What a read that succeeded tells. *)
Lemma getProp_Ok (v : value) (k : string) (s s' : state) (x : value) :
  getProp v k s = Ok x s' -> s' = s.
Proof.
  intros H. pose proof (reads_getProp v k s) as R. rewrite H in R. exact R.
Qed.

Lemma getProp_Throw (v : value) (k : string) (s s' : state) (e : exn) :
  getProp v k s = Throw e s' -> s' = s.
Proof.
  intros H. pose proof (reads_getProp v k s) as R. rewrite H in R. exact R.
Qed.

(** A property other than [length] that is defined belongs to an object. *)
Lemma getProp_defined (v : value) (k : string) (s s' : state) (x : value) :
  getProp v k s = Ok x s' -> k <> "length" -> x <> VUndef ->
  exists l o, v = VRef l /\ heap s !! l = Some (CObj o) /\ o !! k = Some x.
Proof.
  intros H Hk Hx. unfold getProp in H.
  destruct v as [| |b|z|d|str|l]; try discriminate H;
    try (inversion H; subst; congruence).
  - destruct (decide (k = "length")); [congruence|]. inversion H; subst; congruence.
  - destruct (heap s !! l) as [[o|a]|] eqn:Hl; [| |discriminate H].
    + exists l, o. split; [reflexivity|]. split; [exact Hl|].
      inversion H; subst. destruct (o !! k); [reflexivity|]. cbn in Hx. congruence.
    + destruct (decide (k = "length")); [congruence|]. inversion H; subst; congruence.
Qed.

(** An object keeps its [k] when another property is set, on it or on
    another object. *)
Lemma has_grow (h : list cell) (l : nat) (k : string) (x : value) (cs : list cell) :
  has h l k x -> has (h ++ cs) l k x.
Proof.
  intros (o & Hl & Hk). exists o. split; [|exact Hk].
  rewrite lookup_app_l by (eapply lookup_lt_Some; eauto). exact Hl.
Qed.

Lemma has_set (h : list cell) (l c : nat) (k k' : string) (x y : value)
    (co : gmap string value) :
  has h l k x -> h !! c = Some (CObj co) -> k' <> k ->
  has (<[c := CObj (<[k' := y]> co)]> h) l k x.
Proof.
  intros (o & Hl & Hk) Hc Hne. destruct (decide (l = c)) as [->|Hlc].
  - exists (<[k' := y]> co). split.
    + apply list_lookup_insert_eq. eapply lookup_lt_Some; eauto.
    + rewrite lookup_insert_ne by exact Hne.
      rewrite Hl in Hc. inversion Hc; subst. exact Hk.
  - exists o. split; [|exact Hk]. rewrite list_lookup_insert_ne by congruence. exact Hl.
Qed.

Lemma has_getProp (h : list cell) (b : list call) (l : nat) (k : string) (x : value) :
  has h l k x -> getProp (VRef l) k (State h b) = Ok x (State h b).
Proof. intros (o & Hl & Hk). eapply getProp_obj; eassumption. Qed.

Lemma ownProps_grow (cv ty : value) (h : list cell) (b : list call) :
  getProp cv "type" (State h b) = Ok ty (State h b) ->
  exists src, forall cs b',
    ownProps cv (State (h ++ cs) b') = Ok src (State (h ++ cs) b').
Proof.
  intros H. unfold getProp in H. cbn [heap] in H.
  destruct cv as [| |x|z|d|str|l]; try discriminate H;
    try (eexists; intros; reflexivity).
  destruct (h !! l) as [[o|a]|] eqn:Hl; [| |discriminate H].
  - exists o. intros cs b'. unfold ownProps. cbn [heap].
    rewrite lookup_app_l by (eapply lookup_lt_Some; eauto). rewrite Hl. reflexivity.
  - exists (indexed 0 a). intros cs b'. unfold ownProps. cbn [heap].
    rewrite lookup_app_l by (eapply lookup_lt_Some; eauto). rewrite Hl. reflexivity.
Qed.

Lemma copyInto_last (h : list cell) (b : list call) (o src : gmap string value) :
  copyInto (VRef (length h)) src (State (h ++ [CObj o]) b)
  = Ok tt (State (h ++ [CObj (src ∪ o)]) b).
Proof.
  unfold copyInto. cbn [heap buffer].
  rewrite list_lookup_middle by reflexivity.
  replace (length h) with (length h + 0) at 1 by lia.
  rewrite insert_app_r. reflexivity.
Qed.

Lemma setProp_obj (h : list cell) (b : list call) (c : nat) (co : gmap string value)
    (k : string) (x : value) :
  h !! c = Some (CObj co) ->
  setProp (VRef c) k x (State h b)
  = Ok tt (State (<[c := CObj (<[k := x]> co)]> h) b).
Proof. intros H. unfold setProp. cbn [heap buffer]. rewrite H. reflexivity. Qed.


(** *** What a write does to one object *)

Lemma write_cell (n : nat) (h h' : list cell) :
  write n h h' ->
  forall l c, h !! l = Some c -> exists c', h' !! l = Some c' /\ rtc rewrite c c'.
Proof.
  assert (Hins : forall (l0 : nat) (c0 c1 : cell),
             h !! l0 = Some c0 -> rewrite c0 c1 ->
             forall l c, h !! l = Some c ->
               exists c', <[l0 := c1]> h !! l = Some c' /\ rtc rewrite c c').
  { intros l0 c0 c1 H0 Hr l c Hl. destruct (decide (l = l0)) as [->|Hne].
    - exists c1. split.
      + apply list_lookup_insert_eq. eapply lookup_lt_Some; eauto.
      + rewrite H0 in Hl. inversion Hl; subst. apply rtc_once, Hr.
    - exists c. split; [|constructor].
      rewrite list_lookup_insert_ne by congruence. exact Hl. }
  intros H. destruct H.
  - intros l c0 Hl. exists c0. split; [|constructor].
    rewrite lookup_app_l by (eapply lookup_lt_Some; eauto). exact Hl.
  - eapply Hins; [eassumption|constructor].
  - eapply Hins; [eassumption|constructor].
  - eapply Hins; [eassumption|constructor].
  - eapply Hins; [eassumption|constructor].
Qed.

Lemma writes_cell (n : nat) (h h' : list cell) :
  rtc (write n) h h' ->
  forall l c, h !! l = Some c -> exists c', h' !! l = Some c' /\ rtc rewrite c c'.
Proof.
  induction 1 as [h|h1 h2 h3 H _ IH]; intros l c Hl.
  - exists c. split; [exact Hl|constructor].
  - destruct (write_cell _ _ _ H l c Hl) as (c' & Hl' & R).
    destruct (IH l c' Hl') as (c'' & Hl'' & R').
    exists c''. split; [exact Hl''|]. etrans; eassumption.
Qed.

(** A rewritten object keeps its tag or is retagged, and keeps its other
    properties. *)
Lemma rewrite_object (o : gmap string value) (c' : cell) :
  rtc rewrite (CObj o) c' ->
  exists o', c' = CObj o'
    /\ (o' !! "type" = o !! "type" \/ retagged o')
    /\ (forall k, k <> "type" -> k <> "body" -> o' !! k = o !! k).
Proof.
  intros H. pattern c'. revert c' H. apply rtc_ind_r.
  - exists o. split; [reflexivity|]. split; [left; reflexivity|reflexivity].
  - intros c1 c2 _ Hr (o1 & -> & Ht & Hk). inversion Hr; subst.
    + eexists. split; [reflexivity|]. split.
      * right. left. apply lookup_insert_eq.
      * intros k H1 H2. rewrite lookup_insert_ne by congruence. apply Hk; assumption.
    + eexists. split; [reflexivity|]. split.
      * rewrite lookup_insert_ne by discriminate. unfold retagged.
        rewrite lookup_insert_ne by discriminate. exact Ht.
      * intros k H1 H2. rewrite lookup_insert_ne by congruence. apply Hk; assumption.
    + eexists. split; [reflexivity|]. split.
      * right. right. apply lookup_insert_eq.
      * intros k H1 H2. rewrite lookup_insert_ne by congruence. apply Hk; assumption.
Qed.

Lemma stmt_writes (n : nat) (name : string) (h h' : list cell) (l : nat) :
  rtc (write n) h h' -> stmt name h l -> stmt name h' l.
Proof.
  intros H (o & Hl & Ht).
  destruct (writes_cell _ _ _ H l _ Hl) as (c' & Hl' & R).
  destruct (rewrite_object _ _ R) as (o' & -> & Ht' & _).
  exists o'. split; [exact Hl'|].
  destruct Ht' as [Heq|Hr]; [|right; exact Hr].
  destruct Ht as [(ty & Hty & Hn)|Hr].
  - left. exists ty. rewrite Heq. split; assumption.
  - right. unfold retagged in *. rewrite Heq. exact Hr.
Qed.

(** The node with its tag and its [k], in one object. *)
Lemma stmt_has (name : string) (h : list cell) (l : nat) (k : string) (x : value) :
  stmt name h l -> has h l k x ->
  exists o, h !! l = Some (CObj o) /\ (tagIs name o \/ retagged o) /\ o !! k = Some x.
Proof.
  intros (o & Hl & Ht) (o' & Hl' & Hk). rewrite Hl in Hl'. inversion Hl'; subst.
  exists o'. repeat split; assumption.
Qed.

Section Tracks.

Variable n : nat.
Variable recursiveParse : value -> M text.
Variable dispatch : value -> M unit.
Variable fuel : nat.
Hypothesis tracks_recursiveParse : forall v, tracks n (recursiveParse v).
Hypothesis tracks_dispatch : forall v, tracks n (dispatch v).

Lemma tracks_wrap (h : list cell) (b : list call) (l : nat) (cv ty : value)
    (rest : M unit) :
  n <= length h ->
  stmt "IfStatement" h l ->
  has h l "consequent" cv ->
  getProp cv "type" (State h b) = Ok ty (State h b) ->
  looseEqStr ty "BlockStatement" (State h b) = Ok false (State h b) ->
  tracks n rest ->
  match
    ((tempNode ← alloc (CObj {[ "type" := VStr "ReturnStatement" ]});
      consequent ← getProp (VRef l) "consequent";
      objectAssign tempNode consequent;;
      consequent ← getProp (VRef l) "consequent";
      setProp consequent "type" (VStr "BlockStatement");;
      consequent ← getProp (VRef l) "consequent";
      body ← alloc (CArr [tempNode]);
      setProp consequent "body" body;;
      consequent ← getProp (VRef l) "consequent";
      recursiveParse consequent;; ret tt);; rest) (State h b)
  with
  | Ok _ s' | Throw _ s' => rtc (write n) h (heap s')
  | Beyond _ => True
  end.
Proof using tracks_recursiveParse.
  intros Hn Hs Hl Hty Hblock Hrest.
  destruct (ownProps_grow cv ty h b Hty) as [src Hsrc].
  flat. erewrite bind_Ok by reflexivity. cbn [heap buffer].
  flat. erewrite bind_Ok by (apply has_getProp, has_grow, Hl).
  unfold objectAssign.
  flat. erewrite bind_Ok by apply Hsrc.
  flat. erewrite bind_Ok by apply copyInto_last.
  set (copy := CObj (src ∪ {["type" := VStr "ReturnStatement"]})).
  assert (H1 : rtc (write n) h (h ++ [copy])) by (apply rtc_once; constructor).
  flat. erewrite bind_Ok by (apply has_getProp, has_grow, Hl).
  destruct cv as [| |x|z|d|str|c]; try discriminate Hty;
    try (flat; unfold mbind, M_bind, bind, setProp; exact H1).
  assert (Hc : exists cc, h !! c = Some cc).
  { unfold getProp in Hty. cbn [heap] in Hty.
    destruct (h !! c) as [cc|]; [exists cc; reflexivity|discriminate Hty]. }
  destruct Hc as [[co|a] Hc].
  2:{ flat. unfold mbind, M_bind, bind, setProp. cbn [heap].
      rewrite lookup_app_l by (eapply lookup_lt_Some; eauto). rewrite Hc. exact I. }
  assert (Hc1 : (h ++ [copy]) !! c = Some (CObj co)).
  { rewrite lookup_app_l by (eapply lookup_lt_Some; eauto). exact Hc. }
  assert (Hnb : co !! "type" <> Some (VStr "BlockStatement")).
  { intros Heq. unfold getProp in Hty. cbn [heap] in Hty. rewrite Hc, Heq in Hty.
    inversion Hty; subst. discriminate Hblock. }
  flat. erewrite bind_Ok by (apply setProp_obj, Hc1).
  set (block := CObj (<["type" := VStr "BlockStatement"]> co)).
  set (h2 := <[c := block]> (h ++ [copy])).
  assert (Hl2 : has h2 l "consequent" (VRef c)).
  { apply has_set; [apply has_grow, Hl|exact Hc1|discriminate]. }
  assert (H2 : rtc (write n) h h2).
  { eapply rtc_r; [exact H1|].
    destruct (stmt_has _ _ _ _ _ (stmt_writes _ _ _ _ _ H1 Hs)
                (has_grow _ _ _ _ [copy] Hl)) as (o & Ho & Ht & Hk).
    eapply write_block; eassumption. }
  flat. erewrite bind_Ok by (apply has_getProp, Hl2).
  flat. erewrite bind_Ok by reflexivity. cbn [heap buffer].
  assert (Hc2 : h2 !! c = Some block).
  { apply list_lookup_insert_eq. eapply lookup_lt_Some; eauto. }
  assert (Hc3 : (h2 ++ [CArr [VRef (length h)]]) !! c = Some block).
  { rewrite lookup_app_l by (eapply lookup_lt_Some; eauto). exact Hc2. }
  flat. erewrite bind_Ok by (apply setProp_obj, Hc3).
  set (h3 := <[c := _]> (h2 ++ _)).
  assert (Hl3 : has h3 l "consequent" (VRef c)).
  { apply has_set; [apply has_grow, Hl2|exact Hc3|discriminate]. }
  assert (H2' : rtc (write n) h (h2 ++ [CArr [VRef (length h)]])).
  { eapply rtc_r; [exact H2|apply write_new]. }
  assert (H3 : rtc (write n) h h3).
  { eapply rtc_r; [exact H2'|].
    destruct (stmt_has _ _ _ _ _ (stmt_writes _ _ _ _ _ H2' Hs)
                (has_grow _ _ _ _ [CArr [VRef (length h)]] Hl2)) as (o & Ho & Ht & Hk).
    eapply (write_body n _ l c (length h2) (length h)); try eassumption.
    - apply lookup_insert_eq.
    - unfold h2. rewrite length_insert, length_app. lia.
    - apply list_lookup_middle. reflexivity. }
  flat. erewrite bind_Ok by (apply has_getProp, Hl3).
  assert (Hn3 : n <= length h3).
  { apply writes_length in H3. lia. }
  pose proof (tracks_recursiveParse (VRef c) (State h3 b) Hn3) as Hrp.
  flat. unfold mbind, M_bind, bind.
  destruct (recursiveParse (VRef c) _) as [t s4|e s4|w]; [| |exact I].
  - assert (H4 : rtc (write n) h (heap s4)) by (etrans; eassumption).
    assert (Hn4 : n <= length (heap s4)) by (apply writes_length in H4; lia).
    specialize (Hrest s4 Hn4). cbn. destruct (rest s4); try exact I; etrans; eassumption.
  - etrans; eassumption.
Qed.

(** [IfStatement] from the test of the consequent on. *)
Lemma tracks_consequent (l : nat) (h : list cell) (b : list call) :
  n <= length h ->
  stmt "IfStatement" h l ->
  match
    (consequent ← getProp (VRef l) "consequent";
     ty ← getProp consequent "type";
     block ← looseEqStr ty "BlockStatement";
     (if negb block then
        tempNode ← alloc (CObj {[ "type" := VStr "ReturnStatement" ]});
        consequent ← getProp (VRef l) "consequent";
        objectAssign tempNode consequent;;
        consequent ← getProp (VRef l) "consequent";
        setProp consequent "type" (VStr "BlockStatement");;
        consequent ← getProp (VRef l) "consequent";
        body ← alloc (CArr [tempNode]);
        setProp consequent "body" body;;
        consequent ← getProp (VRef l) "consequent";
        recursiveParse consequent;; ret tt
      else
        consequent ← getProp (VRef l) "consequent";
        recursiveParse consequent;; ret tt);;
     alternate ← getProp (VRef l) "alternate";
     if truthy alternate then
       emit (DeleteLines 1);;
       JS.add "else ";;
       alternate ← getProp (VRef l) "alternate";
       recursiveParse alternate;; ret tt
     else ret tt) (State h b)
  with
  | Ok _ s' | Throw _ s' => rtc (write n) h (heap s')
  | Beyond _ => True
  end.
Proof using tracks_recursiveParse.
  intros Hn Hs.
  unfold mbind at 1, M_bind at 1, bind at 1.
  destruct (getProp (VRef l) "consequent" (State h b)) as [cv s1|e s1|w] eqn:Hcv;
    [|apply getProp_Throw in Hcv; subst; constructor|exact I].
  pose proof (getProp_Ok _ _ _ _ _ Hcv) as ->.
  unfold mbind at 1, M_bind at 1, bind at 1.
  destruct (getProp cv "type" (State h b)) as [ty s1|e s1|w] eqn:Hty;
    [|apply getProp_Throw in Hty; subst; constructor|exact I].
  pose proof (getProp_Ok _ _ _ _ _ Hty) as ->.
  unfold mbind at 1, M_bind at 1, bind at 1.
  pose proof (reads_looseEqStr ty "BlockStatement" (State h b)) as Hb.
  destruct (looseEqStr ty "BlockStatement" (State h b)) as [block s1|e s1|w] eqn:Hblock;
    [subst s1|subst s1; constructor|exact I].
  assert (Hrest : tracks n
            (alternate ← getProp (VRef l) "alternate";
             if truthy alternate then
               emit (DeleteLines 1);; JS.add "else ";;
               alternate ← getProp (VRef l) "alternate";
               recursiveParse alternate;; ret tt
             else ret tt)).
  { repeat step_tracks. }
  destruct block; cbn [negb].
  - match goal with
    | |- match ?m (State h b) with _ => _ end =>
        assert (Ht : tracks n m) by (repeat step_tracks); exact (Ht (State h b) Hn)
    end.
  - destruct (getProp_defined (VRef l) "consequent" _ _ cv Hcv) as (l' & o & Heq & Hl & Hk);
      [discriminate|intros ->; discriminate Hty|].
    inversion Heq; subst l'.
    apply (tracks_wrap h b l cv ty); try assumption.
    exists o. split; assumption.
Qed.

Lemma tracks_IfStatement (l : nat) (s : state) :
  n <= length (heap s) ->
  stmt "IfStatement" (heap s) l ->
  match IfStatement recursiveParse (VRef l) s with
  | Ok _ s' | Throw _ s' => rtc (write n) (heap s) (heap s')
  | Beyond _ => True
  end.
Proof using tracks_recursiveParse.
  destruct s as [h b]. cbn [heap]. intros Hn Hs. unfold IfStatement.
  flat. erewrite bind_Ok by reflexivity. cbn [heap buffer].
  unfold mbind at 1, M_bind at 1, bind at 1.
  destruct (getProp (VRef l) "test" _) as [test s1|e s1|w] eqn:Htest;
    [|apply getProp_Throw in Htest; subst; constructor|exact I].
  pose proof (getProp_Ok _ _ _ _ _ Htest) as ->.
  unfold mbind at 1, M_bind at 1, bind at 1.
  pose proof (tracks_recursiveParse test (State h (b ++ [Add (VStr "if ")])) Hn) as Hrp.
  destruct (recursiveParse test _) as [t [h1 b1]|e s1|w]; [|exact Hrp|exact I].
  cbn [heap] in Hrp.
  assert (Hn1 : n <= length h1) by (apply writes_length in Hrp; lia).
  pose proof (tracks_consequent l h1 b1 Hn1 (stmt_writes _ _ _ _ _ Hrp Hs)) as Hc.
  match goal with
  | |- match ?m with _ => _ end => destruct m; try exact I; etrans; eassumption
  end.
Qed.

(** [ForStatement] from the assignment to [node.type] on. *)
Lemma tracks_desugar (l : nat) (h : list cell) (b : list call) :
  n <= length h ->
  stmt "ForStatement" h l ->
  match
    (setProp (VRef l) "type" (VStr "WhileStatement");;
     body ← getProp (VRef l) "body";
     stmts ← getProp body "body";
     update ← getProp (VRef l) "update";
     push stmts update;;
     dispatch (VRef l)) (State h b)
  with
  | Ok _ s' | Throw _ s' => rtc (write n) h (heap s')
  | Beyond _ => True
  end.
Proof using tracks_dispatch.
  intros Hn (o & Hl & Ht).
  flat. erewrite bind_Ok by (apply setProp_obj, Hl).
  set (o1 := <["type" := VStr "WhileStatement"]> o).
  set (h1 := <[l := CObj o1]> h).
  assert (H1 : rtc (write n) h h1) by (apply rtc_once, write_while; assumption).
  assert (Hl1 : h1 !! l = Some (CObj o1)).
  { apply list_lookup_insert_eq. eapply lookup_lt_Some; eauto. }
  flat. erewrite bind_Ok by (apply getProp_default, Hl1).
  unfold mbind at 1, M_bind at 1, bind at 1.
  destruct (getProp (default VUndef (o1 !! "body")) "body" (State h1 b))
    as [stmts s1|e s1|w] eqn:Hstmts;
    [|apply getProp_Throw in Hstmts; subst; exact H1|exact I].
  pose proof (getProp_Ok _ _ _ _ _ Hstmts) as ->.
  flat. erewrite bind_Ok by (apply getProp_default, Hl1).
  unfold mbind, M_bind, bind, push. cbn [heap buffer].
  destruct stmts as [| |x|z|d|str|a]; try exact H1.
  destruct (h1 !! a) as [[bo'|elems]|] eqn:Ha; [exact H1| |exact I].
  destruct (getProp_defined _ "body" _ _ _ Hstmts) as (block & bo & Hb & Hblock & Hk);
    [discriminate|discriminate|].
  cbn [heap] in Hblock.
  assert (H2 : rtc (write n) h
                 (<[a := CArr (elems ++ [default VUndef (o1 !! "update")])]> h1)).
  { eapply rtc_r; [exact H1|].
    eapply (write_update n h1 l block a o1 bo); try eassumption.
    - apply lookup_insert_eq.
    - destruct (o1 !! "body") as [v|]; [cbn in Hb; subst; reflexivity|discriminate Hb]. }
  match goal with
  | |- match dispatch _ ?s with _ => _ end =>
      assert (Hn2 : n <= length (heap s))
        by (cbn [heap]; apply writes_length in H2; lia);
      pose proof (tracks_dispatch (VRef l) s Hn2) as Hd;
      destruct (dispatch (VRef l) s); try exact I; cbn [heap] in Hd; etrans; eassumption
  end.
Qed.

Lemma tracks_ForStatement (l : nat) (s : state) :
  n <= length (heap s) ->
  stmt "ForStatement" (heap s) l ->
  match ForStatement recursiveParse dispatch (VRef l) s with
  | Ok _ s' | Throw _ s' => rtc (write n) (heap s) (heap s')
  | Beyond _ => True
  end.
Proof using tracks_recursiveParse tracks_dispatch.
  destruct s as [h b]. cbn [heap]. intros Hn Hs. unfold ForStatement.
  unfold mbind at 1, M_bind at 1, bind at 1.
  destruct (getProp (VRef l) "init" _) as [init s1|e s1|w] eqn:Hinit;
    [|apply getProp_Throw in Hinit; subst; constructor|exact I].
  pose proof (getProp_Ok _ _ _ _ _ Hinit) as ->.
  unfold mbind at 1, M_bind at 1, bind at 1.
  pose proof (tracks_recursiveParse init (State h b) Hn) as Hrp.
  destruct (recursiveParse init _) as [t [h1 b1]|e s1|w]; [|exact Hrp|exact I].
  cbn [heap] in Hrp.
  assert (Hn1 : n <= length h1) by (apply writes_length in Hrp; lia).
  pose proof (tracks_desugar l h1 b1 Hn1 (stmt_writes _ _ _ _ _ Hrp Hs)) as Hc.
  match goal with
  | |- match ?m with _ => _ end => destruct m; try exact I; etrans; eassumption
  end.
Qed.

Lemma members_track :
  Forall (fun e => match e.2 with
                   | Method f =>
                       forall node s, n <= length (heap s) -> called e.1 node s ->
                         match f node s with
                         | Ok _ s' | Throw _ s' => rtc (write n) (heap s) (heap s')
                         | Beyond _ => True
                         end
                   | _ => True
                   end)
    (members recursiveParse dispatch fuel).
Proof using tracks_recursiveParse tracks_dispatch.
  unfold members, instanceFields, rubyPrototype, superPrototype, objectPrototype.
  cbn [app].
  repeat (apply Forall_cons_2;
          [cbn [fst snd]; first [exact I | intros node s Hn Hc]|]).
  all: try apply Forall_nil_2.
  all: try match goal with
           | |- match IfStatement _ _ _ with _ => _ end =>
               destruct Hc as (l & -> & o & Hl & Ht);
               apply tracks_IfStatement;
               [exact Hn|exists o; split; [exact Hl|left; exact Ht]]
           | |- match ForStatement _ _ _ _ with _ => _ end =>
               destruct Hc as (l & -> & o & Hl & Ht);
               apply tracks_ForStatement;
               [exact Hn|exists o; split; [exact Hl|left; exact Ht]]
           end.
  all: clear Hc; revert s Hn;
    match goal with
    | |- forall s, _ -> match ?m s with _ => _ end => change (tracks n m)
    end.
  all: unfold inert, refuse, ExpressionStatement, FunctionDeclaration, BlockStatement,
    VariableDeclaration, ReturnStatement, UpdateExpression,
    TranspilerSuper.File, TranspilerSuper.Program,
    TranspilerSuper.ExpressionStatement, TranspilerSuper.ImportDeclaration,
    TranspilerSuper.FunctionDeclaration, TranspilerSuper.AssignmentExpression,
    TranspilerSuper.BlockStatement, TranspilerSuper.VariableDeclaration,
    TranspilerSuper.VariableDeclarator, TranspilerSuper.ReturnStatement,
    TranspilerSuper.CallExpression, TranspilerSuper.MemberExpression,
    TranspilerSuper.UnaryExpression, TranspilerSuper.BinaryExpression,
    TranspilerSuper.operand, TranspilerSuper.ConditionalExpression,
    TranspilerSuper.LogicalExpression, TranspilerSuper.WhileStatement,
    TranspilerSuper.DoWhileStatement, TranspilerSuper.Identifier,
    TranspilerSuper.Literal, TranspilerSuper.NumericLiteral,
    TranspilerSuper.StringLiteral, TranspilerSuper.BooleanLiteral,
    TranspilerSuper.RegExpLiteral, TranspilerSuper.ArrayExpression.
  all: repeat step_tracks.
Qed.

Lemma invoke_tracks (node : value) :
  tracks n (invoke recursiveParse dispatch fuel node).
Proof using tracks_recursiveParse tracks_dispatch.
  intros s Hn. unfold invoke.
  unfold mbind at 1, M_bind at 1, bind at 1.
  destruct (getProp node "type" s) as [ty s1|e s1|w] eqn:Hty;
    [|apply getProp_Throw in Hty; subst; constructor|exact I].
  pose proof (getProp_Ok _ _ _ _ _ Hty) as ->.
  unfold mbind at 1, M_bind at 1, bind at 1.
  pose proof (reads_toString ty s) as Hr.
  destruct (toString ty s) as [name s1|e s1|w] eqn:Hname;
    [subst s1|subst s1; constructor|exact I].
  unfold lookup.
  destruct (find _ _) as [[name' m]|] eqn:Hfind; cbn [fmap option_fmap option_map snd];
    [|constructor].
  destruct m as [f| |]; [|constructor|exact I].
  pose proof Hfind as Hin. apply find_some in Hin. destruct Hin as [Hin Heq].
  cbn [fst] in Heq. apply String.eqb_eq in Heq. subst name'.
  pose proof members_track as H. rewrite Forall_forall in H.
  apply list_elem_of_In in Hin. specialize (H _ Hin). cbn [fst snd] in H.
  apply H; [exact Hn|].
  destruct (getProp_defined node "type" _ _ ty Hty) as (l & o & -> & Hl & Hk);
    [discriminate| |].
  - intros ->. cbn in Hname. inversion Hname; subst name.
    pose proof (lookup_not_member recursiveParse dispatch fuel "undefined" eq_refl) as Hno.
    unfold lookup in Hno. rewrite Hfind in Hno. discriminate Hno.
  - exists l. split; [reflexivity|]. exists o. split; [exact Hl|].
    exists ty. split; [exact Hk|]. intros s'.
    destruct ty as [| |[]|z|d|str|r]; try discriminate Hname;
      try (cbn in *; inversion Hname; reflexivity).
    cbn in *. unfold digits in *. destruct (_ <? _)%Z; [|discriminate Hname].
    inversion Hname. reflexivity.
Qed.

End Tracks.

Lemma dispatch_tracks (B : Buffer.Impl) (n fuel : nat) (node : value) :
  tracks n (dispatch B fuel node).
Proof.
  revert node. induction fuel as [|fuel IH]; intros node.
  - apply tracks_beyond.
  - cbn [dispatch]. apply invoke_tracks; [|exact IH].
    intros v. apply tracks_bind; [apply IH|].
    intros _. apply reads_tracks, reads_get.
Qed.


